(** * Multishard mutation query: the read context and its helpers

    A shallow embedding of [multishard_mutation_query.cc]: the per-shard
    reader state machine of [read_context], the two buffer dismantlers,
    [save_reader]/[save_readers], [stop], [do_query],
    [do_query_on_all_shards] and the [multi_range_reader].

    Conventions.
    - [size_t] and [uint64_t] counters are [N] with the wrap-around at
      [2^64] written out ([wadd]).
    - [std::vector] indexed by shard id is a [list] read with [!!]; an index
      outside the vector is undefined behaviour in the source and is
      [None] / [Undefined] here.
    - [std::optional] and nullable smart pointers are [option]; reading
      through an empty one is undefined behaviour in the source. *)

From stdpp Require Import gmap list functions.
From Stdlib Require Import ZArith NArith Lia.

Local Open Scope N_scope.

(** ** Machine arithmetic *)

Definition size_t_modulus : N := 2 ^ 64.

(** [a += b] on a 64-bit unsigned counter. *)
Definition wadd (a b : N) : N := (a + b) mod size_t_modulus.

(** [a - b] on 64-bit unsigned values. *)
Definition wsub (a b : N) : N :=
  (a + size_t_modulus - b mod size_t_modulus) mod size_t_modulus.

(** ** Fragments *)

Abbreviation shard_id := nat (only parsing).

Record decorated_key := { dk_token : Z; dk_key : nat }.

Record partition_start := { ps_key : decorated_key; ps_partition_tombstone : Z }.
Record static_row := { sr_cells : list Z }.
Record clustering_row := { cr_key : nat; cr_cells : list Z }.
Record range_tombstone_change := { rtc_position : nat; rtc_tombstone : Z }.

Inductive mutation_fragment_v2 :=
| mf_partition_start (ps : partition_start)
| mf_static_row (sr : static_row)
| mf_clustering_row (cr : clustering_row)
| mf_range_tombstone_change (rtc : range_tombstone_change)
| mf_partition_end.

Definition is_partition_start (mf : mutation_fragment_v2) : bool :=
  match mf with mf_partition_start _ => true | _ => false end.

(** [flat_mutation_reader_v2::tracked_buffer]: [emplace_front] is [cons],
    [emplace_back] appends. *)
Abbreviation tracked_buffer := (list mutation_fragment_v2) (only parsing).

(** What the coordinator asks of the schema: the sharder
    ([_schema->get_sharder().shard_of(token)]) and the memory footprints
    ([mf.memory_usage()], [x.memory_usage(schema)]). *)
Record schema := {
  shard_of : Z → shard_id;
  mf_memory_usage : mutation_fragment_v2 → N;
  ps_memory_usage : partition_start → N;
  sr_memory_usage : static_row → N;
  rtc_memory_usage : range_tombstone_change → N;
}.

(** ** The per-shard reader state machine *)

Inductive reader_state := inexistent | successful_lookup | used | saving.

#[global] Instance reader_state_eq_dec : EqDecision reader_state.
Proof. solve_decision. Defined.

(** A permit is a handle on a shared implementation object; [==] compares
    the identity.  [permit_sem] names the semaphore the permit belongs to. *)
Record reader_permit := { permit_id : nat; permit_sem : nat }.

#[global] Instance reader_permit_eq_dec : EqDecision reader_permit.
Proof. solve_decision. Defined.

Abbreviation partition_range := (Z * Z)%type (only parsing).
(** [slice_clustering_bound] is where the clustering ranges of the slice
    start; it moves on from page to page. *)
Record partition_slice := {
  slice_partition_row_limit : N;
  slice_allow_short_read : bool;
  slice_is_reversed : bool;
  slice_clustering_bound : nat;
}.
Abbreviation inactive_read_handle := nat (only parsing).

Record remote_parts := {
  rp_permit : reader_permit;
  rp_range : option partition_range;
  rp_slice : option partition_slice;
  rp_read_operation : bool;
  rp_handle : option inactive_read_handle;
  rp_buffer : option tracked_buffer;
}.

Record reader_meta := {
  rm_state : reader_state;
  rm_rparts : option remote_parts;
  rm_dismantled_buffer : option tracked_buffer;
}.

(** [reader_meta() = default]. *)
Definition reader_meta_default : reader_meta :=
  {| rm_state := inexistent; rm_rparts := None; rm_dismantled_buffer := None |}.

(** [get_dismantled_buffer(permit)]: the buffer, created empty on first use. *)
Definition get_dismantled_buffer (rm : reader_meta) : tracked_buffer :=
  default [] (rm_dismantled_buffer rm).

Definition set_dismantled_buffer (b : tracked_buffer) (rm : reader_meta) : reader_meta :=
  {| rm_state := rm_state rm; rm_rparts := rm_rparts rm;
     rm_dismantled_buffer := Some b |}.

(** ** [dismantle_buffer_stats] *)

Record dismantle_buffer_stats := {
  dbs_partitions : N;
  dbs_fragments : N;
  dbs_bytes : N;
  dbs_discarded_partitions : N;
  dbs_discarded_fragments : N;
  dbs_discarded_bytes : N;
}.

Definition dbs_zero : dismantle_buffer_stats :=
  {| dbs_partitions := 0; dbs_fragments := 0; dbs_bytes := 0;
     dbs_discarded_partitions := 0; dbs_discarded_fragments := 0;
     dbs_discarded_bytes := 0 |}.

(** The body shared by the four [add] overloads: [p] partitions and [b]
    bytes, one fragment. *)
Definition dbs_add_raw (p b : N) (st : dismantle_buffer_stats) : dismantle_buffer_stats :=
  {| dbs_partitions := wadd (dbs_partitions st) p;
     dbs_fragments := wadd (dbs_fragments st) 1;
     dbs_bytes := wadd (dbs_bytes st) b;
     dbs_discarded_partitions := dbs_discarded_partitions st;
     dbs_discarded_fragments := dbs_discarded_fragments st;
     dbs_discarded_bytes := dbs_discarded_bytes st |}.

Definition dbs_add_discarded_raw (p b : N) (st : dismantle_buffer_stats) : dismantle_buffer_stats :=
  {| dbs_partitions := dbs_partitions st;
     dbs_fragments := dbs_fragments st;
     dbs_bytes := dbs_bytes st;
     dbs_discarded_partitions := wadd (dbs_discarded_partitions st) p;
     dbs_discarded_fragments := wadd (dbs_discarded_fragments st) 1;
     dbs_discarded_bytes := wadd (dbs_discarded_bytes st) b |}.

Definition N_of_bool (b : bool) : N := if b then 1 else 0.

(** [add(const mutation_fragment_v2&)]. *)
Definition dbs_add (s : schema) (st : dismantle_buffer_stats) (mf : mutation_fragment_v2) :=
  dbs_add_raw (N_of_bool (is_partition_start mf)) (mf_memory_usage s mf) st.
(** [add(s, rtc)], [add(s, sr)], [add(s, ps)]. *)
Definition dbs_add_rtc (s : schema) (st : dismantle_buffer_stats) (rtc : range_tombstone_change) :=
  dbs_add_raw 0 (rtc_memory_usage s rtc) st.
Definition dbs_add_sr (s : schema) (st : dismantle_buffer_stats) (sr : static_row) :=
  dbs_add_raw 0 (sr_memory_usage s sr) st.
Definition dbs_add_ps (s : schema) (st : dismantle_buffer_stats) (ps : partition_start) :=
  dbs_add_raw 1 (ps_memory_usage s ps) st.

(** [add_discarded(...)], same four overloads. *)
Definition dbs_add_discarded (s : schema) (st : dismantle_buffer_stats) (mf : mutation_fragment_v2) :=
  dbs_add_discarded_raw (N_of_bool (is_partition_start mf)) (mf_memory_usage s mf) st.
Definition dbs_add_discarded_rtc (s : schema) (st : dismantle_buffer_stats) (rtc : range_tombstone_change) :=
  dbs_add_discarded_raw 0 (rtc_memory_usage s rtc) st.
Definition dbs_add_discarded_sr (s : schema) (st : dismantle_buffer_stats) (sr : static_row) :=
  dbs_add_discarded_raw 0 (sr_memory_usage s sr) st.
Definition dbs_add_discarded_ps (s : schema) (st : dismantle_buffer_stats) (ps : partition_start) :=
  dbs_add_discarded_raw 1 (ps_memory_usage s ps) st.

(** ** [read_context::dismantle_combined_buffer] *)

(** The inner loop [for (auto& smf : tmp_buffer) { stats.add(smf);
    shard_buffer.emplace_front(std::move(smf)); }]. *)
Definition move_to_front (s : schema) (tmp : list mutation_fragment_v2)
    (st : dismantle_buffer_stats) (shard_buffer : tracked_buffer)
    : dismantle_buffer_stats * tracked_buffer :=
  foldl (λ '(st, b) smf, (dbs_add s st smf, smf :: b)) (st, shard_buffer) tmp.

(** The reverse walk.  [rits] is what the reverse iterator still has to
    visit (the buffer from its tail), [tmp] is [tmp_buffer]. *)
Fixpoint dismantle_walk (s : schema) (rits : list mutation_fragment_v2)
    (tmp : list mutation_fragment_v2) (st : dismantle_buffer_stats)
    (readers : list reader_meta)
    : option (list mutation_fragment_v2 * dismantle_buffer_stats * list reader_meta) :=
  match rits with
  | [] => Some (tmp, st, readers)
  | mf :: rest =>
      match mf with
      | mf_partition_start ps =>
          let shard := shard_of s (dk_token (ps_key ps)) in
          match readers !! shard with
          | None => None
          | Some rm =>
              if decide (rm_state rm ≠ saving) then
                let st := foldl (dbs_add_discarded s) st tmp in
                let st := dbs_add_discarded s st mf in
                dismantle_walk s rest [] st readers
              else
                let '(st, b) := move_to_front s tmp st (get_dismantled_buffer rm) in
                let st := dbs_add s st mf in
                let b := mf :: b in
                dismantle_walk s rest [] st (<[shard := set_dismantled_buffer b rm]> readers)
          end
      | _ => dismantle_walk s rest (tmp ++ [mf]) st readers
      end
  end.

(** The code after the loop: what is left in [tmp_buffer] goes to the shard
    of [pkey]. *)
Definition dismantle_tail (s : schema) (pkey : decorated_key)
    (r : list mutation_fragment_v2 * dismantle_buffer_stats * list reader_meta)
    : option (dismantle_buffer_stats * list reader_meta) :=
  let '(tmp, st, readers) := r in
  let shard := shard_of s (dk_token pkey) in
  match readers !! shard with
  | None => None
  | Some rm =>
      let '(st, b) := move_to_front s tmp st (get_dismantled_buffer rm) in
      Some (st, <[shard := set_dismantled_buffer b rm]> readers)
  end.

Definition dismantle_combined_buffer (s : schema) (readers : list reader_meta)
    (combined_buffer : tracked_buffer) (pkey : decorated_key)
    : option (dismantle_buffer_stats * list reader_meta) :=
  dismantle_walk s (reverse combined_buffer) [] dbs_zero readers
    ≫= dismantle_tail s pkey.

(** ** [read_context::dismantle_compaction_state] *)

Record detached_compaction_state := {
  cs_partition_start : partition_start;
  cs_static_row : option static_row;
  cs_current_tombstone : option range_tombstone_change;
}.

Definition dismantle_compaction_state (s : schema) (readers : list reader_meta)
    (compaction_state : detached_compaction_state)
    : option (dismantle_buffer_stats * list reader_meta) :=
  let stats := dbs_zero in
  let shard := shard_of s (dk_token (ps_key (cs_partition_start compaction_state))) in
  let rtc_opt := cs_current_tombstone compaction_state in
  match readers !! shard with
  | None => None
  | Some rm =>
      if decide (rm_state rm ≠ saving) then
        let stats := match rtc_opt with
                     | Some rtc => dbs_add_discarded_rtc s stats rtc
                     | None => stats end in
        let stats := match cs_static_row compaction_state with
                     | Some sr => dbs_add_discarded_sr s stats sr
                     | None => stats end in
        let stats := dbs_add_discarded_ps s stats (cs_partition_start compaction_state) in
        Some (stats, readers)
      else
        let b := get_dismantled_buffer rm in
        let '(stats, b) := match rtc_opt with
                           | Some rtc => (dbs_add_rtc s stats rtc, mf_range_tombstone_change rtc :: b)
                           | None => (stats, b) end in
        let '(stats, b) := match cs_static_row compaction_state with
                           | Some sr => (dbs_add_sr s stats sr, mf_static_row sr :: b)
                           | None => (stats, b) end in
        let stats := dbs_add_ps s stats (cs_partition_start compaction_state) in
        let b := mf_partition_start (cs_partition_start compaction_state) :: b in
        Some (stats, <[shard := set_dismantled_buffer b rm]> readers)
  end.

(** ** Outcomes and the state-and-exception monad

    The coordinator's code runs against the per-shard databases and its own
    reader vector, may throw, and has undefined behaviour where the source
    reads through an empty [std::optional], a null pointer or past a
    vector.  External operations throw when the fault table says so: this
    is how the exceptions that the [try]/[catch] blocks of the source
    guard against enter the model. *)

Inductive fault_site :=
| in_lookup_invoke_on | in_lookup_querier
| in_create_unregister
| in_obtain_permit
| in_save_invoke_on | in_save_unregister | in_save_unpop | in_save_insert
| in_stop_invoke_on | in_stop_unregister
| in_new_mutation_read.

Abbreviation faults := (fault_site → nat → bool) (only parsing).

Inductive exception :=
| external_failure (site : fault_site) (shard : nat)
| std_logic_error
| internal_error
| page_failure (code : nat).

Inductive outcome (S A : Type) :=
| Done (a : A) (st : S)
| Throw (e : exception) (st : S)
| Undefined.
Arguments Done {S A} a st.
Arguments Throw {S A} e st.
Arguments Undefined {S A}.

Definition M (S A : Type) := S → outcome S A.

Definition ret {S A} (a : A) : M S A := λ st, Done a st.
Definition throw {S A} (e : exception) : M S A := λ st, Throw e st.
Definition undefined {S A} : M S A := λ _, Undefined.
Definition bind {S A B} (m : M S A) (k : A → M S B) : M S B := λ st,
  match m st with
  | Done a st' => k a st'
  | Throw e st' => Throw e st'
  | Undefined => Undefined
  end.
Definition get {S} : M S S := λ st, Done st st.
Definition modify {S} (f : S → S) : M S unit := λ st, Done tt (f st).

Notation "'do' x <~ m ; k" := (bind m (λ x, k))
  (at level 10, x pattern, m at level 99, k at level 200,
   format "'[v' 'do'  x  <~  m ; '/' k ']'").
Notation "'do_' m ; k" := (bind m (λ _, k))
  (at level 10, m at level 99, k at level 200,
   format "'[v' 'do_'  m ; '/' k ']'").

(** [try { m } catch (...) { h }]. *)
Definition try_catch {S A} (m : M S A) (h : exception → M S A) : M S A := λ st,
  match m st with
  | Done a st' => Done a st'
  | Throw e st' => h e st'
  | Undefined => Undefined
  end.

(** [co_await coroutine::as_future(m)]: the failure becomes a value. *)
Definition as_future {S A} (m : M S A) : M S (exception + A) := λ st,
  match m st with
  | Done a st' => Done (inr a) st'
  | Throw e st' => Done (inl e) st'
  | Undefined => Undefined
  end.

(** Reading through an [std::optional] or a pointer. *)
Definition deref {S A} (o : option A) : M S A :=
  match o with Some a => ret a | None => undefined end.

(** An external operation that may throw. *)
Definition may_throw {S} (fl : faults) (site : fault_site) (shard : nat) : M S unit :=
  if fl site shard then throw (external_failure site shard) else ret tt.

(** [parallel_for_each]: every element is processed even when one fails;
    the first failure is the result. *)
Fixpoint parallel_for_each {S} (l : list nat) (f : nat → M S unit) : M S unit :=
  match l with
  | [] => ret tt
  | x :: rest => λ st,
      match f x st with
      | Done _ st' => parallel_for_each rest f st'
      | Throw e st' =>
          match parallel_for_each rest f st' with
          | Done _ st'' | Throw _ st'' => Throw e st''
          | Undefined => Undefined
          end
      | Undefined => Undefined
      end
  end.

(** ** The external collaborators *)

(** Modelled from the spec: [flat_mutation_reader_v2], the reader of section
    4 ("an ordered sequence of mutation fragments"), as far as the
    coordinator uses it: its permit, its buffer and the buffer's size. *)
Record flat_mutation_reader_v2 := {
  rd_permit : reader_permit;
  rd_buffer : list mutation_fragment_v2;
  rd_buffer_size : N;
}.

Definition unpop_mutation_fragment (s : schema) (rd : flat_mutation_reader_v2)
    (mf : mutation_fragment_v2) : flat_mutation_reader_v2 :=
  {| rd_permit := rd_permit rd;
     rd_buffer := mf :: rd_buffer rd;
     rd_buffer_size := wadd (rd_buffer_size rd) (mf_memory_usage s mf) |}.

(** Modelled from the spec: the querier of section 3, "a suspended reader
    plus the range vector it was serving, the current range, the slice, its
    permit, the last partition key delivered, and the last clustering key
    delivered". *)
Record shard_mutation_querier := {
  q_ranges : list partition_range;
  q_reader_range : option partition_range;
  q_reader_slice : option partition_slice;
  q_reader : flat_mutation_reader_v2;
  q_permit : reader_permit;
  q_last_pkey : decorated_key;
  q_last_ckey : option nat;
}.

(** Modelled from the spec: the reader concurrency semaphore of section
    4.1, as the registry of inactive reads.  A handle that is not in the
    registry belongs to an evicted (or already unregistered) reader. *)
Record reader_concurrency_semaphore := {
  sem_inactive : gmap nat flat_mutation_reader_v2;
  sem_next_handle : nat;
}.

Definition register_inactive_read (rd : flat_mutation_reader_v2)
    (sem : reader_concurrency_semaphore) : nat * reader_concurrency_semaphore :=
  (sem_next_handle sem,
   {| sem_inactive := <[sem_next_handle sem := rd]> (sem_inactive sem);
      sem_next_handle := S (sem_next_handle sem) |}).

Definition unregister_inactive_read (h : nat) (sem : reader_concurrency_semaphore)
    : option flat_mutation_reader_v2 * reader_concurrency_semaphore :=
  (sem_inactive sem !! h,
   {| sem_inactive := delete h (sem_inactive sem);
      sem_next_handle := sem_next_handle sem |}).

Record db_stats := {
  multishard_query_unpopped_fragments : N;
  multishard_query_unpopped_bytes : N;
  multishard_query_failed_reader_saves : N;
  total_reads : N;
  total_reads_failed : N;
  short_mutation_queries : N;
}.

(** What [mmq_log] receives. *)
Inductive log_line :=
| warn_unexpected_create (shard : nat) (st : reader_state)
| warn_unexpected_dismantle (st : reader_state)
| debug_failed_to_save (e : exception)
| debug_failed_to_save_on_shard (shard : nat) (e : exception).

(** One shard's [replica::database], as far as the coordinator uses it. *)
Record database := {
  db_semaphores : nat → reader_concurrency_semaphore;
  db_semaphore_id : nat;
  db_next_permit : nat;
  db_permit_max_result_size : gmap nat N;
  db_querier_cache : gmap N shard_mutation_querier;
  db_stats_of : db_stats;
  db_log : list log_line;
  db_closed : list flat_mutation_reader_v2;
  db_cache_hit_rate : nat;
  db_unlimited_query_max_result_size : N;
}.

Definition db_with_semaphores (f : nat → reader_concurrency_semaphore) (db : database) :=
  {| db_semaphores := f; db_semaphore_id := db_semaphore_id db;
     db_next_permit := db_next_permit db;
     db_permit_max_result_size := db_permit_max_result_size db;
     db_querier_cache := db_querier_cache db; db_stats_of := db_stats_of db;
     db_log := db_log db; db_closed := db_closed db;
     db_cache_hit_rate := db_cache_hit_rate db;
     db_unlimited_query_max_result_size := db_unlimited_query_max_result_size db |}.

Definition db_with_next_permit (n : nat) (db : database) :=
  {| db_semaphores := db_semaphores db; db_semaphore_id := db_semaphore_id db;
     db_next_permit := n;
     db_permit_max_result_size := db_permit_max_result_size db;
     db_querier_cache := db_querier_cache db; db_stats_of := db_stats_of db;
     db_log := db_log db; db_closed := db_closed db;
     db_cache_hit_rate := db_cache_hit_rate db;
     db_unlimited_query_max_result_size := db_unlimited_query_max_result_size db |}.

Definition db_with_permit_max_result_size (m : gmap nat N) (db : database) :=
  {| db_semaphores := db_semaphores db; db_semaphore_id := db_semaphore_id db;
     db_next_permit := db_next_permit db;
     db_permit_max_result_size := m;
     db_querier_cache := db_querier_cache db; db_stats_of := db_stats_of db;
     db_log := db_log db; db_closed := db_closed db;
     db_cache_hit_rate := db_cache_hit_rate db;
     db_unlimited_query_max_result_size := db_unlimited_query_max_result_size db |}.

Definition db_with_querier_cache (c : gmap N shard_mutation_querier) (db : database) :=
  {| db_semaphores := db_semaphores db; db_semaphore_id := db_semaphore_id db;
     db_next_permit := db_next_permit db;
     db_permit_max_result_size := db_permit_max_result_size db;
     db_querier_cache := c; db_stats_of := db_stats_of db;
     db_log := db_log db; db_closed := db_closed db;
     db_cache_hit_rate := db_cache_hit_rate db;
     db_unlimited_query_max_result_size := db_unlimited_query_max_result_size db |}.

Definition db_with_stats (st : db_stats) (db : database) :=
  {| db_semaphores := db_semaphores db; db_semaphore_id := db_semaphore_id db;
     db_next_permit := db_next_permit db;
     db_permit_max_result_size := db_permit_max_result_size db;
     db_querier_cache := db_querier_cache db; db_stats_of := st;
     db_log := db_log db; db_closed := db_closed db;
     db_cache_hit_rate := db_cache_hit_rate db;
     db_unlimited_query_max_result_size := db_unlimited_query_max_result_size db |}.

Definition db_with_log (l : list log_line) (db : database) :=
  {| db_semaphores := db_semaphores db; db_semaphore_id := db_semaphore_id db;
     db_next_permit := db_next_permit db;
     db_permit_max_result_size := db_permit_max_result_size db;
     db_querier_cache := db_querier_cache db; db_stats_of := db_stats_of db;
     db_log := l; db_closed := db_closed db;
     db_cache_hit_rate := db_cache_hit_rate db;
     db_unlimited_query_max_result_size := db_unlimited_query_max_result_size db |}.

Definition db_with_closed (l : list flat_mutation_reader_v2) (db : database) :=
  {| db_semaphores := db_semaphores db; db_semaphore_id := db_semaphore_id db;
     db_next_permit := db_next_permit db;
     db_permit_max_result_size := db_permit_max_result_size db;
     db_querier_cache := db_querier_cache db; db_stats_of := db_stats_of db;
     db_log := db_log db; db_closed := l;
     db_cache_hit_rate := db_cache_hit_rate db;
     db_unlimited_query_max_result_size := db_unlimited_query_max_result_size db |}.

(** Operations on one shard's database. *)

Definition db_unregister_inactive_read (sem h : nat)
    : M database (option flat_mutation_reader_v2) := λ db,
  let '(r, sem') := unregister_inactive_read h (db_semaphores db sem) in
  Done r (db_with_semaphores (<[sem := sem']> (db_semaphores db)) db).

Definition db_register_inactive_read (sem : nat) (rd : flat_mutation_reader_v2)
    : M database nat := λ db,
  let '(h, sem') := register_inactive_read rd (db_semaphores db sem) in
  Done h (db_with_semaphores (<[sem := sem']> (db_semaphores db)) db).

(** [reader.close()]. *)
Definition db_close_reader (rd : flat_mutation_reader_v2) : M database unit :=
  modify (λ db, db_with_closed (rd :: db_closed db) db).

Definition db_log_line (l : log_line) : M database unit :=
  modify (λ db, db_with_log (db_log db ++ [l]) db).

(** [++db.get_stats().multishard_query_failed_reader_saves]. *)
Definition db_bump_failed_reader_saves : M database unit :=
  modify (λ db,
    let st := db_stats_of db in
    db_with_stats
      {| multishard_query_unpopped_fragments := multishard_query_unpopped_fragments st;
         multishard_query_unpopped_bytes := multishard_query_unpopped_bytes st;
         multishard_query_failed_reader_saves :=
           wadd (multishard_query_failed_reader_saves st) 1;
         total_reads := total_reads st;
         total_reads_failed := total_reads_failed st;
         short_mutation_queries := short_mutation_queries st |} db).

(** [multishard_query_unpopped_fragments += fragments;
     multishard_query_unpopped_bytes += bytes]. *)
Definition db_add_unpopped (fragments bytes : N) : M database unit :=
  modify (λ db,
    let st := db_stats_of db in
    db_with_stats
      {| multishard_query_unpopped_fragments :=
           wadd (multishard_query_unpopped_fragments st) fragments;
         multishard_query_unpopped_bytes :=
           wadd (multishard_query_unpopped_bytes st) bytes;
         multishard_query_failed_reader_saves := multishard_query_failed_reader_saves st;
         total_reads := total_reads st;
         total_reads_failed := total_reads_failed st;
         short_mutation_queries := short_mutation_queries st |} db).

(** [++stats.total_reads; stats.short_mutation_queries += short]. *)
Definition db_count_read (short : bool) : M database unit :=
  modify (λ db,
    let st := db_stats_of db in
    db_with_stats
      {| multishard_query_unpopped_fragments := multishard_query_unpopped_fragments st;
         multishard_query_unpopped_bytes := multishard_query_unpopped_bytes st;
         multishard_query_failed_reader_saves := multishard_query_failed_reader_saves st;
         total_reads := wadd (total_reads st) 1;
         total_reads_failed := total_reads_failed st;
         short_mutation_queries := wadd (short_mutation_queries st) (N_of_bool short) |} db).

(** [++stats.total_reads_failed]. *)
Definition db_count_failed_read : M database unit :=
  modify (λ db,
    let st := db_stats_of db in
    db_with_stats
      {| multishard_query_unpopped_fragments := multishard_query_unpopped_fragments st;
         multishard_query_unpopped_bytes := multishard_query_unpopped_bytes st;
         multishard_query_failed_reader_saves := multishard_query_failed_reader_saves st;
         total_reads := total_reads st;
         total_reads_failed := wadd (total_reads_failed st) 1;
         short_mutation_queries := short_mutation_queries st |} db).

(** [permit.set_max_result_size(m)]: the limit lives in the shared permit
    object, found by the permit's identity. *)
Definition db_set_max_result_size (p : reader_permit) (m : N) : M database unit :=
  modify (λ db,
    db_with_permit_max_result_size (<[permit_id p := m]> (db_permit_max_result_size db)) db).

(** Modelled from the spec: [make_permit] of section 4.1, a new permit of
    this shard's semaphore ([obtain_reader_permit] and
    [make_tracking_only_permit] of the database). *)
Definition db_make_permit : M database reader_permit := λ db,
  Done {| permit_id := db_next_permit db; permit_sem := db_semaphore_id db |}
       (db_with_next_permit (S (db_next_permit db)) db).

#[global] Instance partition_slice_eq_dec : EqDecision partition_slice.
Proof. solve_decision. Defined.

(** Modelled from the spec: the compatibility check of the querier cache,
    section 4.2: "same schema version, requested ranges are a suffix of the
    stored ranges (the suffix starting at or after the last delivered
    partition), and slice options match modulo the advancing clustering
    bound".  The schema registry is outside the specification and a table
    has one schema version here, which leaves the ranges and the slice:
    the requested ranges are a suffix of the stored ones, and the two
    slices agree in everything but the clustering bound. *)
Definition slices_match (stored requested : partition_slice) : Prop :=
  slice_partition_row_limit stored = slice_partition_row_limit requested ∧
  slice_allow_short_read stored = slice_allow_short_read requested ∧
  slice_is_reversed stored = slice_is_reversed requested.

Definition compatible (q : shard_mutation_querier) (ranges : list partition_range)
    (slice : partition_slice) : bool :=
  bool_decide (ranges `suffix_of` q_ranges q)
  && match q_reader_slice q with
     | Some stored => bool_decide (slices_match stored slice)
     | None => false
     end.

(** Modelled from the spec: [lookup] of the querier cache, section 4.2: it
    "returns a querier only if the stored range vector and slice are
    compatible with the request; otherwise drops the stored entry and
    returns None".  A returned querier leaves the cache. *)
Definition db_lookup_shard_mutation_querier (uuid : N) (ranges : list partition_range)
    (slice : partition_slice) : M database (option shard_mutation_querier) := λ db,
  match db_querier_cache db !! uuid with
  | None => Done None db
  | Some q =>
      let db' := db_with_querier_cache (delete uuid (db_querier_cache db)) db in
      if compatible q ranges slice then Done (Some q) db' else Done None db'
  end.

(** Modelled from the spec: [insert] of the querier cache, section 4.2: it
    "stores a querier; if an entry already exists under that key, the
    previous querier is closed". *)
Definition db_querier_cache_insert (uuid : N) (q : shard_mutation_querier)
    : M database unit := λ db,
  let db' := db_with_querier_cache (<[uuid := q]> (db_querier_cache db)) db in
  match db_querier_cache db !! uuid with
  | Some old => db_close_reader (q_reader old) db'
  | None => Done tt db'
  end.

(** ** The coordinator's state *)

(** [_readers] of the [read_context], the databases of all shards
    ([distributed<replica::database>]) and what was sent to the tracing
    sink. *)
Record world := {
  w_readers : list reader_meta;
  w_dbs : list database;
  w_trace : list dismantle_buffer_stats;
}.

Definition w_with_readers (r : list reader_meta) (w : world) : world :=
  {| w_readers := r; w_dbs := w_dbs w; w_trace := w_trace w |}.
Definition w_with_dbs (d : list database) (w : world) : world :=
  {| w_readers := w_readers w; w_dbs := d; w_trace := w_trace w |}.
Definition w_with_trace (t : list dismantle_buffer_stats) (w : world) : world :=
  {| w_readers := w_readers w; w_dbs := w_dbs w; w_trace := t |}.

(** [smp::count]. *)
Definition smp_count (w : world) : nat := length (w_dbs w).

(** Run [m] on the database of [shard]. *)
Definition on_db {A} (shard : nat) (m : M database A) : M world A := λ w,
  match w_dbs w !! shard with
  | None => Undefined
  | Some db =>
      match m db with
      | Done a db' => Done a (w_with_dbs (<[shard := db']> (w_dbs w)) w)
      | Throw e db' => Throw e (w_with_dbs (<[shard := db']> (w_dbs w)) w)
      | Undefined => Undefined
      end
  end.

(** [_readers[shard]], read and written. *)
Definition reader_at (shard : nat) : M world reader_meta := λ w,
  match w_readers w !! shard with
  | Some rm => Done rm w
  | None => Undefined
  end.

Definition set_reader (shard : nat) (rm : reader_meta) : M world unit := λ w,
  if decide (shard < length (w_readers w))%nat
  then Done tt (w_with_readers (<[shard := rm]> (w_readers w)) w)
  else Undefined.

Definition lift_readers {A} (f : list reader_meta → option (A * list reader_meta))
    : M world A := λ w,
  match f (w_readers w) with
  | Some (a, r) => Done a (w_with_readers r w)
  | None => Undefined
  end.

(** [tracing::trace(_trace_state, ..., stats)]. *)
Definition trace (st : dismantle_buffer_stats) : M world unit :=
  modify (λ w, w_with_trace (w_trace w ++ [st]) w).

Record read_command := {
  cmd_query_uuid : N;
  cmd_is_first_page : bool;
  cmd_max_result_size : option N;
  cmd_row_limit : N;
  cmd_partition_limit : N;
  cmd_slice : partition_slice;
}.

(** The members of [read_context] that never change after construction;
    [ctx_shard] is the shard the coordinator runs on ([_db.local()]). *)
Record read_context := {
  ctx_shard : nat;
  ctx_schema : schema;
  ctx_permit : reader_permit;
  ctx_cmd : read_command;
  ctx_ranges : list partition_range;
}.

(** [get_max_result_size()], [local] being [_db.local()]. *)
Definition get_max_result_size (ctx : read_context) (local : database) : N :=
  match cmd_max_result_size (ctx_cmd ctx) with
  | Some m => m
  | None => db_unlimited_query_max_result_size local
  end.

Definition rm_with_state (st : reader_state) (rm : reader_meta) : reader_meta :=
  {| rm_state := st; rm_rparts := rm_rparts rm;
     rm_dismantled_buffer := rm_dismantled_buffer rm |}.
Definition rm_with_rparts (rp : option remote_parts) (rm : reader_meta) : reader_meta :=
  {| rm_state := rm_state rm; rm_rparts := rp;
     rm_dismantled_buffer := rm_dismantled_buffer rm |}.

(** ** [read_context]: the reader lifecycle policy *)

(** [create_reader], called on [shard] ([this_shard_id()]). *)
Definition create_reader (fl : faults) (shard : nat) (permit : reader_permit)
    (pr : partition_range) (ps : partition_slice)
    : M world flat_mutation_reader_v2 :=
  do rm <~ reader_at shard;
  if bool_decide (rm_state rm ≠ used ∧ rm_state rm ≠ successful_lookup
                  ∧ rm_state rm ≠ inexistent)
  then
    do_ on_db shard (db_log_line (warn_unexpected_create shard (rm_state rm)));
    throw std_logic_error
  else
    let fresh : M world flat_mutation_reader_v2 :=
      let remote_parts :=
        {| rp_permit := permit; rp_range := Some pr; rp_slice := Some ps;
           rp_read_operation := true; rp_handle := None; rp_buffer := None |} in
      do_ set_reader shard
            {| rm_state := used; rm_rparts := Some remote_parts;
               rm_dismantled_buffer := rm_dismantled_buffer rm |};
      ret {| rd_permit := permit; rd_buffer := []; rd_buffer_size := 0 |} in
    if decide (rm_state rm = successful_lookup) then
      do rparts <~ deref (rm_rparts rm);
      do handle <~ deref (rp_handle rparts);
      do_ may_throw fl in_create_unregister shard;
      do reader_opt <~ on_db shard (λ db,
           db_unregister_inactive_read (db_semaphore_id db) handle db);
      match reader_opt with
      | Some reader =>
          do_ set_reader shard (rm_with_state used rm);
          if decide (rd_permit reader ≠ permit)
          then throw internal_error
          else ret reader
      | None => fresh
      end
    else fresh.

(** [update_read_range]. *)
Definition update_read_range (shard : nat) (range : partition_range) : M world unit :=
  do rm <~ reader_at shard;
  do rparts <~ deref (rm_rparts rm);
  set_reader shard
    (rm_with_rparts
       (Some {| rp_permit := rp_permit rparts; rp_range := Some range;
                rp_slice := rp_slice rparts;
                rp_read_operation := rp_read_operation rparts;
                rp_handle := rp_handle rparts; rp_buffer := rp_buffer rparts |}) rm).

Record stopped_reader := {
  sr_handle : inactive_read_handle;
  sr_unconsumed_fragments : tracked_buffer;
}.

(** [destroy_reader]. *)
Definition destroy_reader (shard : nat) (reader : stopped_reader) : M world unit :=
  do rm <~ reader_at shard;
  if decide (rm_state rm = used) then
    do rparts <~ deref (rm_rparts rm);
    set_reader shard
      {| rm_state := saving;
         rm_rparts :=
           Some {| rp_permit := rp_permit rparts; rp_range := rp_range rparts;
                   rp_slice := rp_slice rparts;
                   rp_read_operation := rp_read_operation rparts;
                   rp_handle := Some (sr_handle reader);
                   rp_buffer := Some (sr_unconsumed_fragments reader) |};
         rm_dismantled_buffer := rm_dismantled_buffer rm |}
  else
    on_db shard (db_log_line (warn_unexpected_dismantle (rm_state rm))).

(** [obtain_reader_permit]. *)
Definition obtain_reader_permit (fl : faults) (ctx : read_context) (shard : nat)
    : M world reader_permit :=
  do rm <~ reader_at shard;
  if decide (rm_state rm = successful_lookup) then
    do rparts <~ deref (rm_rparts rm);
    do_ on_db shard (λ db,
          db_set_max_result_size (rp_permit rparts) (get_max_result_size ctx db) db);
    ret (rp_permit rparts)
  else
    do_ may_throw fl in_obtain_permit shard;
    do permit <~ on_db shard db_make_permit;
    do_ on_db shard (λ db,
          db_set_max_result_size permit (get_max_result_size ctx db) db);
    ret permit.

(** ** [read_context::stop] *)

Definition stop_shard (fl : faults) (shard : nat) : M world unit :=
  do rm <~ reader_at shard;
  match rm_rparts rm with
  | Some rparts =>
      do_ may_throw fl in_stop_invoke_on shard;
      (* rparts_fptr.release() *)
      do_ set_reader shard (rm_with_rparts None rm);
      match rp_handle rparts with
      | Some handle =>
          do_ may_throw fl in_stop_unregister shard;
          do reader_opt <~ on_db shard
               (db_unregister_inactive_read (permit_sem (rp_permit rparts)) handle);
          match reader_opt with
          | Some reader => on_db shard (db_close_reader reader)
          | None => ret tt
          end
      | None => ret tt
      end
  | None => ret tt
  end.

Definition stop (fl : faults) : M world unit :=
  do w <~ get;
  parallel_for_each (seq 0 (smp_count w)) (stop_shard fl).

(** ** [read_context::save_reader] and [save_readers] *)

(** What the two loops that push the saved fragments back into the reader
    compute when no [unpop_mutation_fragment] throws: each buffer is walked
    from its tail. *)
Definition unpop_buffer (s : schema) (buffer : option tracked_buffer)
    (acc : N * flat_mutation_reader_v2) : N * flat_mutation_reader_v2 :=
  match buffer with
  | Some b =>
      (wadd (fst acc) (N.of_nat (length b)),
       foldl (unpop_mutation_fragment s) (snd acc) (reverse b))
  | None => acc
  end.

(** [for (; rit != rend; ++rit) { reader->unpop_mutation_fragment(...); }]:
    [rits] is what the reverse iterator still has to visit; every call of
    [unpop_mutation_fragment] may throw. *)
Fixpoint unpop_loop (fl : faults) (s : schema) (shard : nat)
    (rits : list mutation_fragment_v2) (reader : flat_mutation_reader_v2)
    : M database flat_mutation_reader_v2 :=
  match rits with
  | [] => ret reader
  | mf :: rits =>
      do_ may_throw fl in_save_unpop shard;
      unpop_loop fl s shard rits (unpop_mutation_fragment s reader mf)
  end.

(** [if (buffer) { fragments += buffer->size(); for ... }]. *)
Definition unpop_saved_buffer (fl : faults) (s : schema) (shard : nat)
    (buffer : option tracked_buffer) (acc : N * flat_mutation_reader_v2)
    : M database (N * flat_mutation_reader_v2) :=
  match buffer with
  | Some b =>
      do reader <~ unpop_loop fl s shard (reverse b) (snd acc);
      ret (wadd (fst acc) (N.of_nat (length b)), reader)
  | None => ret acc
  end.

(** The [try] block of the lambda that [save_reader] runs on [shard]. *)
Definition save_step (fl : faults) (ctx : read_context) (shard : nat)
    (last_pkey : decorated_key) (last_ckey : option nat) (rm : reader_meta)
    : M database unit :=
  do rparts <~ deref (rm_rparts rm);
  do handle <~ deref (rp_handle rparts);
  do_ may_throw fl in_save_unregister shard;
  do reader_opt <~ db_unregister_inactive_read (permit_sem (rp_permit rparts)) handle;
  match reader_opt with
  | None => ret tt
  | Some reader =>
      let size_before := rd_buffer_size reader in
      do acc <~ unpop_saved_buffer fl (ctx_schema ctx) shard (rp_buffer rparts)
                  (0, reader);
      do acc <~ unpop_saved_buffer fl (ctx_schema ctx) shard (rm_dismantled_buffer rm)
                  acc;
      let '(fragments, reader) := acc in
      let size_after := rd_buffer_size reader in
      do_ may_throw fl in_save_insert shard;
      let querier :=
        {| q_ranges := ctx_ranges ctx; q_reader_range := rp_range rparts;
           q_reader_slice := rp_slice rparts; q_reader := reader;
           q_permit := rp_permit rparts; q_last_pkey := last_pkey;
           q_last_ckey := last_ckey |} in
      do_ db_querier_cache_insert (cmd_query_uuid (ctx_cmd ctx)) querier;
      db_add_unpopped fragments (wsub size_after size_before)
  end.

(** The whole lambda: the [try] block and its [catch (...)]. *)
Definition save_on_shard (fl : faults) (ctx : read_context) (shard : nat)
    (last_pkey : decorated_key) (last_ckey : option nat) (rm : reader_meta)
    : M database unit :=
  try_catch (save_step fl ctx shard last_pkey last_ckey rm)
    (λ e, do_ db_log_line (debug_failed_to_save e);
          db_bump_failed_reader_saves).

Definition save_reader (fl : faults) (ctx : read_context) (shard : nat)
    (last_pkey : decorated_key) (last_ckey : option nat) : M world unit :=
  do rm <~ reader_at shard;
  (* std::exchange(_readers[shard], {}) *)
  do_ set_reader shard reader_meta_default;
  try_catch
    (do_ may_throw fl in_save_invoke_on shard;
     on_db shard (save_on_shard fl ctx shard last_pkey last_ckey rm))
    (* .handle_exception(...) *)
    (λ e, on_db (ctx_shard ctx)
            (do_ db_log_line (debug_failed_to_save_on_shard shard e);
             db_bump_failed_reader_saves)).

Definition save_readers_shard (fl : faults) (ctx : read_context)
    (last_pkey : decorated_key) (last_ckey : option nat) (shard : nat) : M world unit :=
  do rm <~ reader_at shard;
  if bool_decide (rm_state rm = successful_lookup ∨ rm_state rm = saving)
  then save_reader fl ctx shard last_pkey last_ckey
  else ret tt.

Definition save_readers (fl : faults) (ctx : read_context)
    (unconsumed_buffer : tracked_buffer) (compaction_state : detached_compaction_state)
    (last_ckey : option nat) : M world unit :=
  if bool_decide (cmd_query_uuid (ctx_cmd ctx) = 0) then ret tt
  else
    let last_pkey := ps_key (cs_partition_start compaction_state) in
    do cb_stats <~ lift_readers (λ readers,
         dismantle_combined_buffer (ctx_schema ctx) readers unconsumed_buffer last_pkey);
    do_ trace cb_stats;
    do cs_stats <~ lift_readers (λ readers,
         dismantle_compaction_state (ctx_schema ctx) readers compaction_state);
    do_ trace cs_stats;
    do w <~ get;
    parallel_for_each (seq 0 (smp_count w))
      (save_readers_shard fl ctx last_pkey last_ckey).

(** ** [read_context::lookup_readers] *)

Definition lookup_readers_shard (fl : faults) (ctx : read_context) (shard : nat)
    : M world unit :=
  do_ may_throw fl in_lookup_invoke_on shard;
  do_ may_throw fl in_lookup_querier shard;
  do querier_opt <~ on_db shard
       (db_lookup_shard_mutation_querier (cmd_query_uuid (ctx_cmd ctx))
          (ctx_ranges ctx) (cmd_slice (ctx_cmd ctx)));
  match querier_opt with
  | None => set_reader shard reader_meta_default
  | Some q =>
      do sem <~ on_db shard (λ db, Done (db_semaphore_id db) db);
      if decide (permit_sem (q_permit q) ≠ sem) then throw internal_error
      else
        do handle <~ on_db shard (db_register_inactive_read sem (q_reader q));
        set_reader shard
          {| rm_state := successful_lookup;
             rm_rparts :=
               Some {| rp_permit := q_permit q; rp_range := q_reader_range q;
                       rp_slice := q_reader_slice q; rp_read_operation := true;
                       rp_handle := Some handle; rp_buffer := None |};
             rm_dismantled_buffer := None |}
  end.

Definition lookup_readers (fl : faults) (ctx : read_context) : M world unit :=
  if bool_decide (cmd_query_uuid (ctx_cmd ctx) = 0) || cmd_is_first_page (ctx_cmd ctx)
  then ret tt
  else
    do w <~ get;
    parallel_for_each (seq 0 (smp_count w)) (lookup_readers_shard fl ctx).

(** ** [read_page], [do_query], [do_query_on_all_shards] *)

Record query_result := {
  is_short_read : bool;
  result_partitions : list nat;
}.

(** A default-constructed result. *)
Definition query_result_default : query_result :=
  {| is_short_read := false; result_partitions := [] |}.

(** [compact_for_query_state_v2], as [do_query] uses it. *)
Record compaction_state := {
  are_limits_reached : bool;
  detach_state : detached_compaction_state;
}.

Record page_consume_result := {
  pcr_last_ckey : option nat;
  pcr_result : query_result;
  pcr_unconsumed_fragments : tracked_buffer;
  pcr_compaction_state : compaction_state;
}.

(** The multishard combining reader and the page consumer are outside this
    file; they drive the lifecycle policy above in ways the coordinator does
    not control.  [read_page] is written against their three entry points:
    [query::consume_page], [reader.detach_buffer()] and [reader.close()]. *)
Record page_env := {
  consume_page : read_context → partition_range → bool
                 → M world (option nat * query_result * compaction_state);
  detach_buffer : M world tracked_buffer;
  reader_close : read_context → M world unit;
}.

(** The reader is built on [ranges.front()], which is undefined behaviour
    on an empty range vector, forwarding (and wrapped in the
    [multi_range_reader]) when [ranges.size() > 1]; [consume_page] of the
    environment stands for the page read from the reader so built. *)
Definition read_page (env : page_env) (ctx : read_context) : M world page_consume_result :=
  do front <~ deref (head (ctx_ranges ctx));
  let fwd_mr := bool_decide (1 < length (ctx_ranges ctx))%nat in
  do f <~ as_future (consume_page env ctx front fwd_mr);
  match f with
  | inr (ckey, result, cstate) =>
      do buffer <~ detach_buffer env;
      do_ reader_close env ctx;
      ret {| pcr_last_ckey := ckey; pcr_result := result;
             pcr_unconsumed_fragments := buffer;
             pcr_compaction_state := cstate |}
  | inl e =>
      do_ reader_close env ctx;
      throw e
  end.

(** The constructor of [read_context]. *)
Definition make_read_context (local : nat) (s : schema) (cmd : read_command)
    (ranges : list partition_range) : M world read_context :=
  do permit <~ on_db local db_make_permit;
  let ctx := {| ctx_shard := local; ctx_schema := s; ctx_permit := permit;
                ctx_cmd := cmd; ctx_ranges := ranges |} in
  do w <~ get;
  do_ modify (w_with_readers (replicate (smp_count w) reader_meta_default));
  do_ on_db local (λ db,
        db_set_max_result_size permit (get_max_result_size ctx db) db);
  ret ctx.

(** The chain that [do_query] awaits through [coroutine::as_future]:
    [lookup_readers], then [read_page], then [save_readers] when more pages
    are expected. *)
Definition do_query_chain (fl : faults) (env : page_env) (ctx : read_context)
    : M world query_result :=
  do_ lookup_readers fl ctx;
  do r <~ read_page env ctx;
  do_ (if are_limits_reached (pcr_compaction_state r) || is_short_read (pcr_result r)
       then save_readers fl ctx (pcr_unconsumed_fragments r)
              (detach_state (pcr_compaction_state r)) (pcr_last_ckey r)
       else ret tt);
  ret (pcr_result r).

Definition do_query (fl : faults) (env : page_env) (local : nat) (s : schema)
    (cmd : read_command) (ranges : list partition_range) : M world query_result :=
  do ctx <~ make_read_context local s cmd ranges;
  do f <~ as_future (do_query_chain fl env ctx);
  do_ stop fl;
  match f with
  | inl e => throw e
  | inr result => ret result
  end.

Definition do_query_on_all_shards (fl : faults) (env : page_env) (local : nat)
    (s : schema) (cmd : read_command) (ranges : list partition_range)
    : M world (query_result * nat) :=
  if bool_decide (cmd_row_limit cmd = 0)
     || bool_decide (slice_partition_row_limit (cmd_slice cmd) = 0)
     || bool_decide (cmd_partition_limit cmd = 0)
  then
    do hit_rate <~ on_db local (λ db, Done (db_cache_hit_rate db) db);
    ret (query_result_default, hit_rate)
  else
    try_catch
      (do max_result_size <~ deref (cmd_max_result_size cmd);
       (* new_mutation_read(max_result_size, short_read_allowed) *)
       do_ may_throw fl in_new_mutation_read local;
       do result <~ do_query fl env local s cmd ranges;
       do_ on_db local (db_count_read (is_short_read result));
       do hit_rate <~ on_db local (λ db, Done (db_cache_hit_rate db) db);
       ret (result, hit_rate))
      (λ e, do_ on_db local db_count_failed_read; throw e).

(** Modelled from the spec: [Schema.make_reversed()] of section 6; the
    reversed schema shards and measures like the table's schema. *)
Definition make_reversed (s : schema) : schema := s.

Definition query_mutations_on_all_shards (fl : faults) (env : page_env) (local : nat)
    (table_schema : schema) (cmd : read_command) (ranges : list partition_range)
    : M world (query_result * nat) :=
  let query_schema := if slice_is_reversed (cmd_slice cmd)
                      then make_reversed table_schema else table_schema in
  do_query_on_all_shards fl env local query_schema cmd ranges.

Definition query_data_on_all_shards (fl : faults) (env : page_env) (local : nat)
    (table_schema : schema) (cmd : read_command) (ranges : list partition_range)
    : M world (query_result * nat) :=
  let query_schema := if slice_is_reversed (cmd_slice cmd)
                      then make_reversed table_schema else table_schema in
  do_query_on_all_shards fl env local query_schema cmd ranges.

(** ** Stream-order reading of a merged buffer

    These functions read a buffer from head to tail, the order in which the
    fragments were produced; the theorems compare the reverse walks of the
    dismantlers with them. *)

(** [select s p lead buf]: the fragments of [buf], in stream order, whose
    partition lives on a shard satisfying [p].  A fragment belongs to the
    partition opened by the closest [partition_start] in front of it; the
    fragments in front of the first [partition_start] are selected iff
    [lead]. *)
Fixpoint select (s : schema) (p : shard_id → bool) (lead : bool)
    (buf : list mutation_fragment_v2) : list mutation_fragment_v2 :=
  match buf with
  | [] => []
  | mf :: rest =>
      let keep := match mf with
                  | mf_partition_start ps => p (shard_of s (dk_token (ps_key ps)))
                  | _ => lead
                  end in
      (if keep then [mf] else []) ++ select s p keep rest
  end.

(** Does shard [shard] of the vector sit in state [saving]? *)
Definition is_saving (readers : list reader_meta) (shard : shard_id) : bool :=
  match readers !! shard with
  | Some rm => bool_decide (rm_state rm = saving)
  | None => false
  end.

(** Partitions, fragments and bytes of a list of fragments (unbounded). *)
Definition count_partitions (l : list mutation_fragment_v2) : N :=
  N.of_nat (length (filter (λ mf, is_partition_start mf = true) l)).
Definition count_fragments (l : list mutation_fragment_v2) : N :=
  N.of_nat (length l).
Definition count_bytes (s : schema) (l : list mutation_fragment_v2) : N :=
  foldr (λ mf acc, mf_memory_usage s mf + acc) 0 l.

(** The three numbers the statistics keep for a list of fragments, and the
    statistics record holding two such tallies reduced modulo [2^64]. *)
Definition tally := (N * N * N)%type.

Definition tally_of (s : schema) (l : list mutation_fragment_v2) : tally :=
  (count_partitions l, count_fragments l, count_bytes s l).

Definition tadd (a b : tally) : tally :=
  match a, b with (p, f, y), (p', f', y') => (p + p', f + f', y + y') end.

Definition dbs_mk (k d : tally) : dismantle_buffer_stats :=
  match k, d with
  | (p, f, y), (dp, df, dy) =>
      {| dbs_partitions := p mod size_t_modulus;
         dbs_fragments := f mod size_t_modulus;
         dbs_bytes := y mod size_t_modulus;
         dbs_discarded_partitions := dp mod size_t_modulus;
         dbs_discarded_fragments := df mod size_t_modulus;
         dbs_discarded_bytes := dy mod size_t_modulus |}
  end.


(** [readers'] is [readers] with [extra shard] pushed in front of the
    dismantled buffer of every shard, states and remote parts untouched. *)
Definition dismantled_onto (extra : shard_id → list mutation_fragment_v2)
    (readers readers' : list reader_meta) : Prop :=
  length readers' = length readers ∧
  ∀ shard rm, readers !! shard = Some rm →
    ∃ rm', readers' !! shard = Some rm' ∧
           rm_state rm' = rm_state rm ∧
           rm_rparts rm' = rm_rparts rm ∧
           get_dismantled_buffer rm' = extra shard ++ get_dismantled_buffer rm.

(** ** Vocabulary of the theorems about saving and stopping *)

(** What [save_readers] relies on: one database and one reader slot per
    shard, the coordinator's own shard among them, a sharder that stays
    inside the vector, and remote parts with a handle wherever a reader is
    in a state that gets saved. *)
Definition to_be_saved (rm : reader_meta) : Prop :=
  rm_state rm = successful_lookup ∨ rm_state rm = saving.

Definition wf_save (ctx : read_context) (w : world) : Prop :=
  length (w_readers w) = length (w_dbs w) ∧
  (ctx_shard ctx < length (w_dbs w))%nat ∧
  (∀ t, (shard_of (ctx_schema ctx) t < length (w_readers w))%nat) ∧
  ∀ x rm, w_readers w !! x = Some rm → to_be_saved rm →
    ∃ rparts handle, rm_rparts rm = Some rparts ∧ rp_handle rparts = Some handle.

(** The counter [multishard_query_failed_reader_saves] of a database. *)
Definition failed_reader_saves (db : database) : N :=
  multishard_query_failed_reader_saves (db_stats_of db).

(** [b] is the counter [a] after [k] increments. *)
Definition bumped (k a b : N) : Prop :=
  (k = 0 ∧ b = a) ∨ (0 < k ∧ b = (a + k) mod size_t_modulus).

Definition is_empty {A} (l : list A) : bool :=
  match l with [] => true | _ => false end.

(** The fragments that the save of a slot pushes back into its reader. *)
Definition pushed_back (rm : reader_meta) : list mutation_fragment_v2 :=
  default [] (rm_rparts rm ≫= rp_buffer) ++ default [] (rm_dismantled_buffer rm).

(** Does the [try] block of the save lambda throw on [shard]?  It does when
    unregistering throws, or when the reader is still registered and
    pushing a fragment back (there must be one) or storing the querier
    throws. *)
Definition save_step_fault (fl : faults) (shard : nat) (rm : reader_meta)
    (db : database) : bool :=
  match rm_rparts rm with
  | Some rparts =>
      match rp_handle rparts with
      | Some handle =>
          fl in_save_unregister shard
          || (bool_decide (is_Some (sem_inactive
                (db_semaphores db (permit_sem (rp_permit rparts))) !! handle))
              && ((fl in_save_unpop shard && negb (is_empty (pushed_back rm)))
                  || fl in_save_insert shard))
      | None => false
      end
  | None => false
  end.

(** The shard whose counter pays for a failed save of [shard]: the
    coordinator's when the cross-shard call fails, [shard] itself when the
    lambda catches. *)
Definition blame (fl : faults) (ctx : read_context) (shard : nat) (rm : reader_meta)
    (db : database) : option nat :=
  if fl in_save_invoke_on shard then Some (ctx_shard ctx)
  else if save_step_fault fl shard rm db then Some shard
  else None.

(** What [stop] leaves behind on one shard: the remote parts are gone from
    the vector; a handle they held is no longer registered with the permit's
    semaphore, and the reader it stood for, if it was still there, has been
    closed; a shard without remote parts or without handle keeps its
    database. *)
Definition stopped (rm : reader_meta) (db : database) (rm' : reader_meta)
    (db' : database) : Prop :=
  rm_rparts rm' = None ∧ rm_state rm' = rm_state rm ∧
  rm_dismantled_buffer rm' = rm_dismantled_buffer rm ∧
  match rm_rparts rm with
  | Some rparts =>
      match rp_handle rparts with
      | Some handle =>
          let sem := permit_sem (rp_permit rparts) in
          sem_inactive (db_semaphores db' sem) !! handle = None ∧
          db_closed db'
          = option_list (sem_inactive (db_semaphores db sem) !! handle) ++ db_closed db ∧
          db_querier_cache db' = db_querier_cache db ∧
          db_stats_of db' = db_stats_of db ∧ db_log db' = db_log db
      | None => db' = db
      end
  | None => db' = db
  end.

(** The shard that pays when [save_readers] reaches [shard] in world [w],
    if the save of [shard] is attempted and fails. *)
Definition saved_blame (fl : faults) (ctx : read_context) (shard : nat) (w : world)
    : option nat :=
  match w_readers w !! shard, w_dbs w !! shard with
  | Some rm, Some db =>
      if bool_decide (to_be_saved rm) then blame fl ctx shard rm db else None
  | _, _ => None
  end.

(** ** [multi_range_reader] *)

(** Modelled from the spec: the reader that the multi-range reader wraps
    ("an abstract source producing an ordered sequence of mutation fragments
    for a partition range", section 2; here the multishard combining
    reader).  [u_pending] is what the current range still has to deliver.
    Every buffered fragment carries the index of the range it was read
    from. *)
Record underlying_reader := {
  u_buffer : list (nat * mutation_fragment_v2);
  u_end_of_stream : bool;
  u_range : nat;
  u_pending : list mutation_fragment_v2;
}.

(** [clear_buffer_to_next_partition()]: drop up to the next
    [partition_start]. *)
Fixpoint clear_to_next_partition {A} (is_start : A → bool) (l : list A) : list A :=
  match l with
  | [] => []
  | x :: rest => if is_start x then l else clear_to_next_partition is_start rest
  end.

(** Modelled from the spec: [fill_buffer] of the wrapped reader buffers at
    least one more fragment of its range when there is one, [chunk + 1] at
    most, and reports the end of the stream once the range is exhausted. *)
Definition u_fill_buffer (chunk : underlying_reader → nat) (r : underlying_reader)
    : underlying_reader :=
  if u_end_of_stream r then r
  else
    let n := S (chunk r) in
    {| u_buffer := u_buffer r ++ ((λ mf, (u_range r, mf)) <$> take n (u_pending r));
       u_end_of_stream := is_empty (drop n (u_pending r));
       u_range := u_range r;
       u_pending := drop n (u_pending r) |}.

(** Modelled from the spec: [fast_forward_to(range)] of the wrapped reader
    starts over on the range with index [i] and content [content]. *)
Definition u_fast_forward_to (i : nat) (content : list mutation_fragment_v2)
    (r : underlying_reader) : underlying_reader :=
  {| u_buffer := []; u_end_of_stream := false; u_range := i; u_pending := content |}.

(** Modelled from the spec: [next_partition()] of the wrapped reader skips
    to the next partition, in its buffer or, when that runs empty, in what
    is still to be read. *)
Definition u_next_partition (r : underlying_reader) : underlying_reader :=
  match clear_to_next_partition (λ f, is_partition_start (snd f)) (u_buffer r) with
  | [] =>
      {| u_buffer := []; u_end_of_stream := u_end_of_stream r; u_range := u_range r;
         u_pending := clear_to_next_partition is_partition_start (u_pending r) |}
  | b =>
      {| u_buffer := b; u_end_of_stream := u_end_of_stream r; u_range := u_range r;
         u_pending := u_pending r |}
  end.

(** The wrapper: its own buffer and end-of-stream flag (those of
    [flat_mutation_reader_v2::impl]), [_reader], and [_it] as an index
    into the range vector ([_end] is the vector's length). *)
Record multi_range_reader := {
  mrr_buffer : list (nat * mutation_fragment_v2);
  mrr_end_of_stream : bool;
  mrr_reader : underlying_reader;
  mrr_it : nat;
}.

Inductive fill_result :=
| Filled (m : multi_range_reader)
| Out_of_fuel
| Past_the_end.

(** The fragments of the ranges [rs], in order, each with the index of its
    range, the first range having index [i]. *)
Fixpoint tag_ranges (i : nat) (rs : list (list mutation_fragment_v2))
    : list (nat * mutation_fragment_v2) :=
  match rs with
  | [] => []
  | content :: rs => ((λ mf, (i, mf)) <$> content) ++ tag_ranges (S i) rs
  end.

Section multi_range_reader.
(** The range vector, each range given by the fragments it holds, and the
    chunking of the wrapped reader. *)
Variable ranges : list (list mutation_fragment_v2).
Variable chunk : underlying_reader → nat.

(** The end of the loop body: fill the wrapped reader if its buffer is
    empty, then [_reader.move_buffer_content_to( *this )]. *)
Definition fill_and_move (m : multi_range_reader) : multi_range_reader :=
  let rd := mrr_reader m in
  let rd := if is_empty (u_buffer rd) then u_fill_buffer chunk rd else rd in
  {| mrr_buffer := mrr_buffer m ++ u_buffer rd;
     mrr_end_of_stream := mrr_end_of_stream m;
     mrr_reader := {| u_buffer := []; u_end_of_stream := u_end_of_stream rd;
                      u_range := u_range rd; u_pending := u_pending rd |};
     mrr_it := mrr_it m |}.

(** [while (is_buffer_empty()) { ... }]. *)
Fixpoint fill_loop (fuel : nat) (m : multi_range_reader) : fill_result :=
  match fuel with
  | O => Out_of_fuel
  | S fuel =>
      if is_empty (mrr_buffer m) then
        if is_empty (u_buffer (mrr_reader m)) && u_end_of_stream (mrr_reader m) then
          let it := S (mrr_it m) in
          if decide (it = length ranges) then
            (* _end_of_stream = true; break; *)
            Filled {| mrr_buffer := mrr_buffer m; mrr_end_of_stream := true;
                      mrr_reader := mrr_reader m; mrr_it := it |}
          else
            match ranges !! it with
            | None => Past_the_end
            | Some content =>
                fill_loop fuel
                  (fill_and_move
                     {| mrr_buffer := mrr_buffer m;
                        mrr_end_of_stream := mrr_end_of_stream m;
                        mrr_reader := u_fast_forward_to it content (mrr_reader m);
                        mrr_it := it |})
            end
        else fill_loop fuel (fill_and_move m)
      else Filled m
  end.

Definition fill_buffer (fuel : nat) (m : multi_range_reader) : fill_result :=
  if mrr_end_of_stream m then Filled m else fill_loop fuel m.

(** [next_partition()]. *)
Definition mrr_next_partition (m : multi_range_reader) : multi_range_reader :=
  let b := clear_to_next_partition (λ f, is_partition_start (snd f)) (mrr_buffer m) in
  {| mrr_buffer := b; mrr_end_of_stream := mrr_end_of_stream m;
     mrr_reader := if is_empty b && negb (mrr_end_of_stream m)
                   then u_next_partition (mrr_reader m) else mrr_reader m;
     mrr_it := mrr_it m |}.

(** What a consumer does with the wrapper between fills. *)
Inductive reader_call :=
| call_fill_buffer
| call_pop_mutation_fragment
| call_detach_buffer
| call_next_partition.

Definition run_call (fuel : nat) (c : reader_call) (m : multi_range_reader)
    : fill_result :=
  match c with
  | call_fill_buffer => fill_buffer fuel m
  | call_pop_mutation_fragment =>
      Filled {| mrr_buffer := tail (mrr_buffer m);
                mrr_end_of_stream := mrr_end_of_stream m;
                mrr_reader := mrr_reader m; mrr_it := mrr_it m |}
  | call_detach_buffer =>
      Filled {| mrr_buffer := []; mrr_end_of_stream := mrr_end_of_stream m;
                mrr_reader := mrr_reader m; mrr_it := mrr_it m |}
  | call_next_partition => Filled (mrr_next_partition m)
  end.

Fixpoint run_calls (fuel : nat) (cs : list reader_call) (m : multi_range_reader)
    : fill_result :=
  match cs with
  | [] => Filled m
  | c :: cs =>
      match run_call fuel c m with
      | Filled m' => run_calls fuel cs m'
      | r => r
      end
  end.

(** The wrapper as [read_page] builds it: around a fresh reader of
    [ranges.front()], [_it] at [ranges.begin()]. *)
Definition mrr_initial : option multi_range_reader :=
  (λ first,
     {| mrr_buffer := []; mrr_end_of_stream := false;
        mrr_reader := {| u_buffer := []; u_end_of_stream := false;
                         u_range := 0; u_pending := first |};
        mrr_it := 0 |}) <$> head ranges.

(** What holds of the wrapper between calls. *)
Definition mrr_inv (m : multi_range_reader) : Prop :=
  u_buffer (mrr_reader m) = [] ∧
  (u_range (mrr_reader m) < length ranges)%nat ∧
  (mrr_end_of_stream m = false → (mrr_it m < length ranges)%nat).

(** What the wrapped reader has still to fetch, that is what the wrapper
    has still to deliver beyond its own buffer: the rest of the current
    range and the ranges behind it, every fragment with the index of its
    range. *)
Definition mrr_future (m : multi_range_reader) : list (nat * mutation_fragment_v2) :=
  if mrr_end_of_stream m then []
  else ((λ mf, (mrr_it m, mf)) <$> u_pending (mrr_reader m))
       ++ tag_ranges (S (mrr_it m)) (drop (S (mrr_it m)) ranges).

(** What holds of the wrapper while it is read: the wrapped reader's buffer
    is empty between calls and, until the end of the stream, the wrapped
    reader is on the range of [_it] and has nothing pending once it
    reported the end of its stream. *)
Definition mrr_reading (m : multi_range_reader) : Prop :=
  u_buffer (mrr_reader m) = [] ∧
  (mrr_end_of_stream m = false →
   (mrr_it m < length ranges)%nat ∧
   u_range (mrr_reader m) = mrr_it m ∧
   (u_end_of_stream (mrr_reader m) = true → u_pending (mrr_reader m) = [])).

(** Iterations the loop needs at most, less one. *)
Definition mrr_need (m : multi_range_reader) : nat :=
  if is_empty (mrr_buffer m)
  then 2 * (length ranges - mrr_it m)
       + (if u_end_of_stream (mrr_reader m) then 0 else 1)
  else 0.
End multi_range_reader.

(** ** A small node, used by the examples

    Two shards; tokens go to shards by parity. *)

Definition ex_schema : schema :=
  {| shard_of := λ t, Z.to_nat (t mod 2);
     mf_memory_usage := λ _, 10;
     ps_memory_usage := λ _, 8;
     sr_memory_usage := λ _, 6;
     rtc_memory_usage := λ _, 4 |}.

Definition ex_ps (token : Z) : partition_start :=
  {| ps_key := {| dk_token := token; dk_key := Z.to_nat token |};
     ps_partition_tombstone := 0 |}.

Definition ex_row (k : nat) : mutation_fragment_v2 :=
  mf_clustering_row {| cr_key := k; cr_cells := [] |}.

Definition ex_slice : partition_slice :=
  {| slice_partition_row_limit := 100; slice_allow_short_read := true;
     slice_is_reversed := false; slice_clustering_bound := 0 |}.

Definition ex_rparts (h : nat) : remote_parts :=
  {| rp_permit := {| permit_id := 1; permit_sem := 0 |};
     rp_range := Some (0, 100)%Z; rp_slice := Some ex_slice;
     rp_read_operation := true; rp_handle := Some h; rp_buffer := None |}.

(** Shard 0 is being saved, shard 1 is still in use. *)
Definition ex_readers : list reader_meta :=
  [ {| rm_state := saving; rm_rparts := Some (ex_rparts 0);
       rm_dismantled_buffer := None |};
    {| rm_state := used; rm_rparts := Some (ex_rparts 1);
       rm_dismantled_buffer := None |} ].

(** The tail of shard 0's partition in delivery, a partition of shard 0 and
    a partition of shard 1. *)
Definition ex_buffer : list mutation_fragment_v2 :=
  [ ex_row 1; mf_partition_end;
    mf_partition_start (ex_ps 2); ex_row 2; mf_partition_end;
    mf_partition_start (ex_ps 3); ex_row 3 ].

Definition ex_compaction_state (token : Z) : detached_compaction_state :=
  {| cs_partition_start := ex_ps token;
     cs_static_row := Some {| sr_cells := [1%Z] |};
     cs_current_tombstone := None |}.

Definition ex_cmd : read_command :=
  {| cmd_query_uuid := 7; cmd_is_first_page := true;
     cmd_max_result_size := Some 4096; cmd_row_limit := 10;
     cmd_partition_limit := 10; cmd_slice := ex_slice |}.

Definition ex_ranges : list partition_range := [(0, 100)%Z].

Definition ex_db : database :=
  {| db_semaphores := λ _, {| sem_inactive := ∅; sem_next_handle := 0 |};
     db_semaphore_id := 0; db_next_permit := 0;
     db_permit_max_result_size := ∅; db_querier_cache := ∅;
     db_stats_of :=
       {| multishard_query_unpopped_fragments := 0;
          multishard_query_unpopped_bytes := 0;
          multishard_query_failed_reader_saves := 0;
          total_reads := 0; total_reads_failed := 0;
          short_mutation_queries := 0 |};
     db_log := []; db_closed := []; db_cache_hit_rate := 42;
     db_unlimited_query_max_result_size := 1000 |}.

(** The node before the query: no read context yet. *)
Definition ex_node : world :=
  {| w_readers := []; w_dbs := [ex_db; ex_db]; w_trace := [] |}.

Definition ex_result : query_result :=
  {| is_short_read := false; result_partitions := [2%nat] |}.

Definition ex_reader : flat_mutation_reader_v2 :=
  {| rd_permit := {| permit_id := 1; permit_sem := 0 |};
     rd_buffer := [ex_row 5]; rd_buffer_size := 10 |}.

(** The reader that shard 1 builds for the page below; its permit is the
    first one that shard 1 hands out. *)
Definition ex_shard_reader : flat_mutation_reader_v2 :=
  {| rd_permit := {| permit_id := 0; permit_sem := 0 |};
     rd_buffer := [ex_row 5]; rd_buffer_size := 10 |}.

(** The coordinator runs on shard 0 and the page reads from shard 1 only:
    the combining reader creates shard 1's reader while the page is
    consumed and, when it is closed, hands that reader back, stopped and
    registered as inactive.  [limits] says whether the page ended on a
    limit, that is whether more pages are expected. *)
Definition ex_env (fl : faults) (limits : bool) : page_env :=
  {| consume_page := λ ctx _ _,
       do permit <~ obtain_reader_permit fl ctx 1;
       do_ create_reader fl 1 permit (0, 100)%Z ex_slice;
       ret (Some 5%nat, ex_result,
            {| are_limits_reached := limits;
               detach_state := ex_compaction_state 3 |});
     detach_buffer := ret [ex_row 3];
     reader_close := λ ctx,
       do h <~ on_db 1 (db_register_inactive_read 0 ex_shard_reader);
       destroy_reader 1 {| sr_handle := h; sr_unconsumed_fragments := [ex_row 4] |} |}.

Definition no_faults : faults := λ _ _, false.

(** Unregistering the saved reader throws on shard 1. *)
Definition ex_save_fault : faults := λ site shard,
  match site with
  | in_save_unregister => bool_decide (shard = 1%nat)
  | _ => false
  end.

(** The cross-shard call of [stop] to shard 1 fails. *)
Definition ex_stop_fault : faults := λ site shard,
  match site with
  | in_stop_invoke_on => bool_decide (shard = 1%nat)
  | _ => false
  end.

(** The state of an outcome, for the examples. *)
Definition state_of {S A} (default : S) (o : outcome S A) : S :=
  match o with
  | Done _ st | Throw _ st => st
  | Undefined => default
  end.

Definition ex_ctx : read_context :=
  {| ctx_shard := 0; ctx_schema := ex_schema;
     ctx_permit := {| permit_id := 0; permit_sem := 0 |};
     ctx_cmd := ex_cmd; ctx_ranges := ex_ranges |}.

(** The node once the read context exists, and once the page was read. *)
Definition ex_w0 : world :=
  state_of ex_node (make_read_context 0 ex_schema ex_cmd ex_ranges ex_node).

Definition ex_w1 (fl : faults) (limits : bool) : world :=
  state_of ex_node
    ((do_ lookup_readers fl ex_ctx; read_page (ex_env fl limits) ex_ctx) ex_w0).

Definition ex_page_result (limits : bool) : page_consume_result :=
  {| pcr_last_ckey := Some 5%nat; pcr_result := ex_result;
     pcr_unconsumed_fragments := [ex_row 3];
     pcr_compaction_state :=
       {| are_limits_reached := limits; detach_state := ex_compaction_state 3 |} |}.

(** The reader vector of [ex_readers] on the two-shard node. *)
Definition ex_world : world :=
  {| w_readers := ex_readers; w_dbs := [ex_db; ex_db]; w_trace := [] |}.

(** A node whose shard 0 found its saved reader again: the reader is
    registered under handle 0 and the slot is in [successful_lookup]. *)
Definition ex_lookup_db : database :=
  db_with_semaphores
    (λ _, {| sem_inactive := {[ 0%nat := ex_reader ]}; sem_next_handle := 1 |}) ex_db.

Definition ex_lookup_world : world :=
  {| w_readers :=
       [ {| rm_state := successful_lookup; rm_rparts := Some (ex_rparts 0);
            rm_dismantled_buffer := None |};
         reader_meta_default ];
     w_dbs := [ex_lookup_db; ex_db]; w_trace := [] |}.

Definition ex_stopped_reader : stopped_reader :=
  {| sr_handle := 3; sr_unconsumed_fragments := [ex_row 4] |}.

(** Commands with a zero row limit, and without [max_result_size]. *)
Definition ex_cmd_zero_limit : read_command :=
  {| cmd_query_uuid := 7; cmd_is_first_page := true;
     cmd_max_result_size := Some 4096; cmd_row_limit := 0;
     cmd_partition_limit := 10; cmd_slice := ex_slice |}.

Definition ex_cmd_no_max_size : read_command :=
  {| cmd_query_uuid := 7; cmd_is_first_page := true;
     cmd_max_result_size := None; cmd_row_limit := 10;
     cmd_partition_limit := 10; cmd_slice := ex_slice |}.

(** Three ranges, the second one empty; the wrapped reader buffers one
    fragment per fill. *)
Definition ex_range_contents : list (list mutation_fragment_v2) :=
  [ [mf_partition_start (ex_ps 2); ex_row 2]; []; [mf_partition_start (ex_ps 4)] ].

Definition ex_chunk : underlying_reader → nat := λ _, 0%nat.

Definition ex_mrr : multi_range_reader :=
  {| mrr_buffer := []; mrr_end_of_stream := false;
     mrr_reader := {| u_buffer := []; u_end_of_stream := false; u_range := 0;
                      u_pending := [mf_partition_start (ex_ps 2); ex_row 2] |};
     mrr_it := 0 |}.

(** The node once the chain of [do_query] is through, the failure of the
    chain being a value. *)
Definition ex_w_chain (fl : faults) (limits : bool) : world :=
  state_of ex_node (as_future (do_query_chain fl (ex_env fl limits) ex_ctx) ex_w0).

(** What the querier saved under [uuid] on [shard] will deliver first. *)
Definition saved_reader_buffer (w : world) (shard : nat) (uuid : N)
    : option (list mutation_fragment_v2) :=
  db ← w_dbs w !! shard;
  q ← db_querier_cache db !! uuid;
  Some (rd_buffer (q_reader q)).

Definition result_of {S A} (o : outcome S A) : option (exception + A) :=
  match o with
  | Done a _ => Some (inr a)
  | Throw e _ => Some (inl e)
  | Undefined => None
  end.

(** A stateless query on the same node. *)
Definition ex_ctx_stateless : read_context :=
  {| ctx_shard := 0; ctx_schema := ex_schema;
     ctx_permit := {| permit_id := 0; permit_sem := 0 |};
     ctx_cmd := {| cmd_query_uuid := 0; cmd_is_first_page := true;
                   cmd_max_result_size := Some 4096; cmd_row_limit := 10;
                   cmd_partition_limit := 10; cmd_slice := ex_slice |};
     ctx_ranges := ex_ranges |}.

(** A page whose consumer fails after the reader of shard 1 was created. *)
Definition ex_env_timeout : page_env :=
  {| consume_page := λ ctx _ _,
       do permit <~ obtain_reader_permit no_faults ctx 1;
       do_ create_reader no_faults 1 permit (0, 100)%Z ex_slice;
       throw (page_failure 1);
     detach_buffer := ret [];
     reader_close := reader_close (ex_env no_faults false) |}.

From stdpp Require Import strings.

Local Open Scope N_scope.

(** ** Vocabulary of the further theorems *)

(** The shard of a [partition_start] is an index of a reader vector of
    length [n]; other fragments name no shard. *)
Definition shard_in_range (s : schema) (n : nat) (mf : mutation_fragment_v2) : Prop :=
  match mf with
  | mf_partition_start ps => (shard_of s (dk_token (ps_key ps)) < n)%nat
  | _ => True
  end.

(** Every shard that [dismantle_combined_buffer] computes, for the
    [partition_start]s of the buffer and for [pkey], is an index of a
    reader vector of length [n]. *)
Definition shards_in_range (s : schema) (n : nat) (buf : list mutation_fragment_v2)
    (pkey : decorated_key) : Prop :=
  (shard_of s (dk_token pkey) < n)%nat ∧ Forall (shard_in_range s n) buf.

(** The counters [multishard_query_unpopped_fragments] and
    [multishard_query_unpopped_bytes] of a database. *)
Definition unpopped_fragments (db : database) : N :=
  multishard_query_unpopped_fragments (db_stats_of db).
Definition unpopped_bytes (db : database) : N :=
  multishard_query_unpopped_bytes (db_stats_of db).

(** The pieces of a detached compaction state as fragments, in stream
    order: the [partition_start], the static row, the current range
    tombstone change. *)
Definition compaction_state_fragments (cs : detached_compaction_state)
    : list mutation_fragment_v2 :=
  mf_partition_start (cs_partition_start cs)
  :: option_list (mf_static_row <$> cs_static_row cs)
  ++ option_list (mf_range_tombstone_change <$> cs_current_tombstone cs).

(** What the two dismantlers of [save_readers] hand back to shard [x], in
    stream order: the pieces of the compaction state when [x] owns the
    partition in delivery and is [saving], then the share of [x] in the
    unconsumed buffer (the fragments in front of the first
    [partition_start] belong to the partition in delivery). *)
Definition handed_back (s : schema) (readers : list reader_meta)
    (buf : list mutation_fragment_v2) (cs : detached_compaction_state) (x : shard_id)
    : list mutation_fragment_v2 :=
  let owner := shard_of s (dk_token (ps_key (cs_partition_start cs))) in
  (if bool_decide (x = owner) && is_saving readers x
   then compaction_state_fragments cs else [])
  ++ select s (λ y, bool_decide (y = x) && is_saving readers y)
       (bool_decide (owner = x)) buf.

(** From [w] to [w'] the reader slot of shard [x] is the same, and so are
    the querier cache, the semaphores and the closed readers of its
    database. *)
Definition shard_store_kept (x : nat) (w w' : world) : Prop :=
  w_readers w' !! x = w_readers w !! x ∧
  ∀ db, w_dbs w !! x = Some db →
    ∃ db', w_dbs w' !! x = Some db' ∧
      db_querier_cache db' = db_querier_cache db ∧
      db_semaphores db' = db_semaphores db ∧
      db_closed db' = db_closed db.

(** ** The lifecycle policy as its callers drive it

    The multishard combining reader and its shard readers are outside this
    file.  What they do to the read context is a sequence of calls of the
    lifecycle policy, on some shards and in some order, while the shards'
    databases change under them (readers are registered as inactive,
    evicted, ...). *)
Inductive policy_call :=
| call_obtain_reader_permit (shard : nat)
| call_create_reader (shard : nat) (permit : reader_permit) (pr : partition_range)
    (ps : partition_slice)
| call_update_read_range (shard : nat) (range : partition_range)
| call_destroy_reader (shard : nat) (reader : stopped_reader)
| call_shard_effect (shard : nat) (f : database → database).

Definition call_shard (c : policy_call) : nat :=
  match c with
  | call_obtain_reader_permit shard | call_create_reader shard _ _ _
  | call_update_read_range shard _ | call_destroy_reader shard _
  | call_shard_effect shard _ => shard
  end.

Definition run_policy_call (fl : faults) (ctx : read_context) (c : policy_call)
    : M world unit :=
  match c with
  | call_obtain_reader_permit shard =>
      do_ obtain_reader_permit fl ctx shard; ret tt
  | call_create_reader shard permit pr ps =>
      do_ create_reader fl shard permit pr ps; ret tt
  | call_update_read_range shard range => update_read_range shard range
  | call_destroy_reader shard reader => destroy_reader shard reader
  | call_shard_effect shard f => on_db shard (modify f)
  end.

Fixpoint run_policy_calls (fl : faults) (ctx : read_context) (cs : list policy_call)
    : M world unit :=
  match cs with
  | [] => ret tt
  | c :: cs => do_ run_policy_call fl ctx c; run_policy_calls fl ctx cs
  end.

(** [update_read_range] is only called for a shard whose reader was
    created: by an earlier call of the sequence, or before it ([created]). *)
Fixpoint updates_after_create (created : nat → bool) (cs : list policy_call) : bool :=
  match cs with
  | [] => true
  | call_create_reader shard _ _ _ :: cs =>
      updates_after_create (λ x, bool_decide (x = shard) || created x) cs
  | call_update_read_range shard _ :: cs =>
      created shard && updates_after_create created cs
  | _ :: cs => updates_after_create created cs
  end.

(** What the policy keeps true of the reader vector: one slot per shard;
    a slot that is not [inexistent] has remote parts; a slot that would be
    saved has remote parts with a handle. *)
Definition slot_ok (rm : reader_meta) : Prop :=
  (rm_state rm ≠ inexistent → is_Some (rm_rparts rm)) ∧
  (to_be_saved rm →
   ∃ rparts handle, rm_rparts rm = Some rparts ∧ rp_handle rparts = Some handle).

Definition policy_inv (w : world) : Prop :=
  length (w_readers w) = length (w_dbs w) ∧
  ∀ x rm, w_readers w !! x = Some rm → slot_ok rm.

(** The shards in [created] have a reader: their slot is not [inexistent]. *)
Definition created_in (created : nat → bool) (w : world) : Prop :=
  ∀ x, created x = true → ∃ rm, w_readers w !! x = Some rm ∧ rm_state rm ≠ inexistent.

(** From [w] to [w'] the policy's invariant, the number of shards and the
    readers that exist are kept. *)
Definition keeps (w w' : world) : Prop :=
  policy_inv w' ∧ smp_count w' = smp_count w ∧
  ∀ created, created_in created w → created_in created w'.

(** The state in which a computation ends, normally or by an exception,
    satisfies [P]; the computation is not undefined. *)
Definition ends_in {S A} (P : S → Prop) (o : outcome S A) : Prop :=
  match o with
  | Done _ st | Throw _ st => P st
  | Undefined => False
  end.

(** A page whose reader drives the policy by the calls [page] while the
    page is consumed, which ends as [result] says, and by the calls
    [closing] when the reader is closed; [buffer] is what the reader has
    left unconsumed. *)
Definition scripted_env (fl : faults) (page : list policy_call)
    (result : exception + (option nat * query_result * compaction_state))
    (buffer : tracked_buffer) (closing : list policy_call) : page_env :=
  {| consume_page := λ ctx _ _,
       do_ run_policy_calls fl ctx page;
       match result with inl e => throw e | inr r => ret r end;
     detach_buffer := ret buffer;
     reader_close := λ ctx, run_policy_calls fl ctx closing |}.

(** One reader slot per shard, on a node of [n] shards. *)
Definition one_slot_per_shard (n : nat) (w : world) : Prop :=
  length (w_readers w) = length (w_dbs w) ∧ smp_count w = n.

(** The querier caches, the statistics and the logs of all shards are the
    same in [w] and [w']. *)
Definition same_reports (w w' : world) : Prop :=
  db_querier_cache <$> w_dbs w' = db_querier_cache <$> w_dbs w ∧
  db_stats_of <$> w_dbs w' = db_stats_of <$> w_dbs w ∧
  db_log <$> w_dbs w' = db_log <$> w_dbs w.

(** ** Reading a range vector to its end *)

Section read_all.
Variable ranges : list (list mutation_fragment_v2).
Variable chunk : underlying_reader → nat.

(** A consumer that reads the wrapper to its end: until the wrapper is at
    the end of its stream with an empty buffer, call [fill_buffer()] and
    take the buffer with [detach_buffer()]; [acc] is what was taken so
    far.  [rounds] bounds the iterations, [fuel] those of each fill. *)
Fixpoint read_all (rounds fuel : nat) (m : multi_range_reader)
    (acc : list (nat * mutation_fragment_v2))
    : option (list (nat * mutation_fragment_v2)) :=
  match rounds with
  | O => None
  | S rounds =>
      if mrr_end_of_stream m && is_empty (mrr_buffer m) then Some acc
      else
        match fill_buffer ranges chunk fuel m with
        | Filled m' =>
            read_all rounds fuel
              {| mrr_buffer := []; mrr_end_of_stream := mrr_end_of_stream m';
                 mrr_reader := mrr_reader m'; mrr_it := mrr_it m' |}
              (acc ++ mrr_buffer m')
        | _ => None
        end
  end.
End read_all.

(** ** Shard locality *)

(** From [w] to [w'] nothing but the reader slot and the database of shard
    [x] has changed. *)
Definition only_shard (x : nat) (w w' : world) : Prop :=
  w_trace w' = w_trace w ∧
  length (w_readers w') = length (w_readers w) ∧
  length (w_dbs w') = length (w_dbs w) ∧
  ∀ y, y ≠ x →
    w_readers w' !! y = w_readers w !! y ∧ w_dbs w' !! y = w_dbs w !! y.

(** However the computation [m] ends, it has changed nothing but the
    reader slot and the database of shard [x]. *)
Definition shard_local {A} (x : nat) (m : M world A) : Prop :=
  ∀ w, match m w with
       | Done _ w' | Throw _ w' => only_shard x w w'
       | Undefined => True
       end.

(** ** [read_context::reader_state_to_string] *)

Definition reader_state_to_string (rs : reader_state) : string :=
  match rs with
  | inexistent => "inexistent"
  | successful_lookup => "successful_lookup"
  | used => "used"
  | saving => "saving"
  end.

(** The enumerators of [reader_state]. *)
Definition reader_states : list reader_state :=
  [inexistent; successful_lookup; used; saving].

(** ** What [lookup_readers] makes of a shard

    The slot of a shard after the lookup, as its database says: in
    [successful_lookup] with the querier's permit, range and slice and the
    handle under which the reader gets registered when the cache holds a
    querier for this query that is compatible with the ranges and the slice
    of this page; the default slot otherwise. *)
Definition looked_up (ctx : read_context) (db : database) : reader_meta :=
  match db_querier_cache db !! cmd_query_uuid (ctx_cmd ctx) with
  | Some q =>
      if compatible q (ctx_ranges ctx) (cmd_slice (ctx_cmd ctx))
      then {| rm_state := successful_lookup;
              rm_rparts :=
                Some {| rp_permit := q_permit q; rp_range := q_reader_range q;
                        rp_slice := q_reader_slice q; rp_read_operation := true;
                        rp_handle :=
                          Some (sem_next_handle (db_semaphores db (db_semaphore_id db)));
                        rp_buffer := None |};
              rm_dismantled_buffer := None |}
      else reader_meta_default
  | None => reader_meta_default
  end.

(** The querier that the cache of [db] holds for this query, if it is
    compatible with this page, has a permit of the semaphore of this
    query. *)
Definition own_semaphore (ctx : read_context) (db : database) : Prop :=
  ∀ q, db_querier_cache db !! cmd_query_uuid (ctx_cmd ctx) = Some q →
    compatible q (ctx_ranges ctx) (cmd_slice (ctx_cmd ctx)) = true →
    permit_sem (q_permit q) = db_semaphore_id db.

(** ** Further examples *)

(** A slot in state [saving] whose reader is registered under handle 0 in
    [ex_lookup_db]: the shard reader handed one fragment over, one was
    dismantled. *)
Definition ex_saving_rparts : remote_parts :=
  {| rp_permit := {| permit_id := 1; permit_sem := 0 |};
     rp_range := Some (0, 100)%Z; rp_slice := Some ex_slice;
     rp_read_operation := true; rp_handle := Some 0%nat;
     rp_buffer := Some [ex_row 4] |}.

Definition ex_saving_rm : reader_meta :=
  {| rm_state := saving; rm_rparts := Some ex_saving_rparts;
     rm_dismantled_buffer := Some [ex_row 3] |}.

(** A querier as a previous page stored it, its permit belonging to the
    semaphore [sem], and a node whose shard 1 holds it under the id of
    [ex_cmd]. *)
Definition ex_querier (sem : nat) : shard_mutation_querier :=
  {| q_ranges := ex_ranges; q_reader_range := Some (0, 100)%Z;
     q_reader_slice := Some ex_slice; q_reader := ex_reader;
     q_permit := {| permit_id := 1; permit_sem := sem |};
     q_last_pkey := ps_key (ex_ps 3); q_last_ckey := Some 5%nat |}.

Definition ex_saved_world (sem : nat) : world :=
  {| w_readers := [reader_meta_default; reader_meta_default];
     w_dbs := [ex_db; db_with_querier_cache {[ 7 := ex_querier sem ]} ex_db];
     w_trace := [] |}.

(** The reader vector of [ex_readers] on a node whose shard 1 has a reader
    registered under handle 0. *)
Definition ex_used_world : world :=
  {| w_readers := ex_readers; w_dbs := [ex_db; ex_lookup_db]; w_trace := [] |}.

(** A page driven on shard 1: the permit is obtained, the reader created
    and fast-forwarded, then registered as inactive when it is stopped; on
    closing it is handed back. *)
Definition ex_page_calls : list policy_call :=
  [ call_obtain_reader_permit 1;
    call_create_reader 1 {| permit_id := 0; permit_sem := 0 |} (0, 100)%Z ex_slice;
    call_update_read_range 1 (50, 100)%Z;
    call_shard_effect 1
      (db_with_semaphores
         (λ _, {| sem_inactive := {[ 0%nat := ex_shard_reader ]};
                  sem_next_handle := 1 |})) ].

Definition ex_closing_calls : list policy_call :=
  [ call_destroy_reader 1 {| sr_handle := 0; sr_unconsumed_fragments := [ex_row 4] |} ].

(** A node whose shard 1 is about to be saved, and a fault table where
    storing the querier throws on shard 1. *)
Definition ex_saving_world : world :=
  {| w_readers := [reader_meta_default; ex_saving_rm];
     w_dbs := [ex_db; ex_lookup_db]; w_trace := [] |}.

Definition ex_insert_fault : faults := λ site shard,
  match site with
  | in_save_insert => bool_decide (shard = 1%nat)
  | _ => false
  end.

(** Every [unpop_mutation_fragment] throws. *)
Definition ex_unpop_fault : faults := λ site shard,
  match site with
  | in_save_unpop => true
  | _ => false
  end.

(** A later page of the query of [ex_cmd]: its slice has moved on to a
    later clustering bound, and only the last of the two ranges that the
    query started with is left to read.  Shard 1 holds the querier that the
    previous page stored; shard 0 holds a querier of the same query that was
    stored for another range. *)
Definition ex_later_slice : partition_slice :=
  {| slice_partition_row_limit := 100; slice_allow_short_read := true;
     slice_is_reversed := false; slice_clustering_bound := 5 |}.

Definition ex_ctx_later : read_context :=
  {| ctx_shard := 0; ctx_schema := ex_schema;
     ctx_permit := {| permit_id := 0; permit_sem := 0 |};
     ctx_cmd := {| cmd_query_uuid := 7; cmd_is_first_page := false;
                   cmd_max_result_size := Some 4096; cmd_row_limit := 10;
                   cmd_partition_limit := 10; cmd_slice := ex_later_slice |};
     ctx_ranges := ex_ranges |}.

Definition ex_querier_earlier : shard_mutation_querier :=
  {| q_ranges := [(-100, -1)%Z; (0, 100)%Z]; q_reader_range := Some (0, 100)%Z;
     q_reader_slice := Some ex_slice; q_reader := ex_reader;
     q_permit := {| permit_id := 1; permit_sem := 0 |};
     q_last_pkey := ps_key (ex_ps 3); q_last_ckey := Some 5%nat |}.

Definition ex_querier_other : shard_mutation_querier :=
  {| q_ranges := [(0, 50)%Z]; q_reader_range := Some (0, 50)%Z;
     q_reader_slice := Some ex_slice; q_reader := ex_reader;
     q_permit := {| permit_id := 1; permit_sem := 0 |};
     q_last_pkey := ps_key (ex_ps 3); q_last_ckey := Some 5%nat |}.

Definition ex_paged_world : world :=
  {| w_readers := [reader_meta_default; reader_meta_default];
     w_dbs := [db_with_querier_cache {[ 7 := ex_querier_other ]} ex_db;
               db_with_querier_cache {[ 7 := ex_querier_earlier ]} ex_db];
     w_trace := [] |}.

(** * Theorems *)

(** ** Tallies *)

Ltac tally_eq :=
  repeat (match goal with |- (_, _) = (_, _) => f_equal end); try lia.

Lemma dbs_zero_mk : dbs_zero = dbs_mk (0, 0, 0) (0, 0, 0).
Proof. reflexivity. Qed.

Lemma count_partitions_app l1 l2 :
  count_partitions (l1 ++ l2) = count_partitions l1 + count_partitions l2.
Proof.
  unfold count_partitions. induction l1 as [|x l1 IH]; simpl; [done|].
  rewrite !filter_cons. destruct (decide (is_partition_start x = true)); simpl; lia.
Qed.

Lemma count_bytes_app s l1 l2 :
  count_bytes s (l1 ++ l2) = count_bytes s l1 + count_bytes s l2.
Proof. induction l1 as [|x l1 IH]; simpl; [done|]. rewrite IH. lia. Qed.

Lemma tally_of_app s l1 l2 : tally_of s (l1 ++ l2) = tadd (tally_of s l1) (tally_of s l2).
Proof.
  unfold tally_of, tadd, count_fragments.
  rewrite count_partitions_app, count_bytes_app, length_app.
  tally_eq.
Qed.

Lemma tally_of_nil s : tally_of s [] = (0, 0, 0).
Proof. reflexivity. Qed.

Lemma tally_of_singleton s mf :
  tally_of s [mf] = (N_of_bool (is_partition_start mf), 1, mf_memory_usage s mf).
Proof.
  unfold tally_of, count_partitions, count_fragments. simpl.
  destruct mf; simpl; tally_eq.
Qed.

Lemma tadd_0_r a : tadd a (0, 0, 0) = a.
Proof. destruct a as [[p f] y]. unfold tadd. tally_eq. Qed.

Lemma tadd_0_l a : tadd (0, 0, 0) a = a.
Proof. by destruct a as [[p f] y]. Qed.

Lemma tadd_assoc a b c : tadd (tadd a b) c = tadd a (tadd b c).
Proof.
  destruct a as [[? ?] ?], b as [[? ?] ?], c as [[? ?] ?].
  unfold tadd. tally_eq.
Qed.

Lemma tadd_comm a b : tadd a b = tadd b a.
Proof.
  destruct a as [[? ?] ?], b as [[? ?] ?].
  unfold tadd. tally_eq.
Qed.

Lemma dbs_add_mk s k d mf :
  dbs_add s (dbs_mk k d) mf = dbs_mk (tadd k (tally_of s [mf])) d.
Proof.
  rewrite tally_of_singleton.
  destruct k as [[p f] y], d as [[dp df] dy].
  unfold dbs_add, dbs_add_raw, dbs_mk, tadd; simpl.
  unfold wadd. by rewrite !N.Div0.add_mod_idemp_l.
Qed.

Lemma dbs_add_discarded_mk s k d mf :
  dbs_add_discarded s (dbs_mk k d) mf = dbs_mk k (tadd d (tally_of s [mf])).
Proof.
  rewrite tally_of_singleton.
  destruct k as [[p f] y], d as [[dp df] dy].
  unfold dbs_add_discarded, dbs_add_discarded_raw, dbs_mk, tadd; simpl.
  unfold wadd. by rewrite !N.Div0.add_mod_idemp_l.
Qed.

Lemma foldl_add_discarded_mk s tmp : ∀ k d,
  foldl (dbs_add_discarded s) (dbs_mk k d) tmp = dbs_mk k (tadd d (tally_of s tmp)).
Proof.
  induction tmp as [|mf tmp IH]; intros k d; simpl.
  - by rewrite tally_of_nil, tadd_0_r.
  - rewrite dbs_add_discarded_mk, IH, tadd_assoc, <- tally_of_app. done.
Qed.

Lemma move_to_front_mk s tmp : ∀ k d b,
  move_to_front s tmp (dbs_mk k d) b
  = (dbs_mk (tadd k (tally_of s tmp)) d, reverse tmp ++ b).
Proof.
  unfold move_to_front.
  induction tmp as [|mf tmp IH]; intros k d b; simpl.
  - by rewrite tally_of_nil, tadd_0_r.
  - rewrite dbs_add_mk, IH, tadd_assoc, <- tally_of_app.
    rewrite reverse_cons, <- app_assoc. done.
Qed.

Lemma tally_of_reverse s l : tally_of s (reverse l) = tally_of s l.
Proof.
  induction l as [|x l IH]; [done|].
  rewrite reverse_cons, tally_of_app, IH.
  change (x :: l) with ([x] ++ l). rewrite tally_of_app. apply tadd_comm.
Qed.

Ltac tally_solve :=
  rewrite ?tally_of_app, ?tally_of_reverse, ?tally_of_nil, ?tadd_0_r;
  repeat match goal with
         | |- context [tally_of ?s ?l] => destruct (tally_of s l) as [[? ?] ?]
         | t : tally |- _ => destruct t as [[? ?] ?]
         end;
  unfold tadd; tally_eq.

(** ** Stream-order selection *)

Lemma select_body s p lead body :
  Forall (λ mf, is_partition_start mf = false) body →
  select s p lead body = if lead then body else [].
Proof.
  induction 1 as [|mf body Hmf _ IH]; simpl; [by destruct lead|].
  destruct mf; try discriminate; rewrite IH; by destruct lead.
Qed.

Lemma select_app_partition s p a ps body : ∀ lead,
  Forall (λ mf, is_partition_start mf = false) body →
  select s p lead (a ++ mf_partition_start ps :: body)
  = select s p lead a
    ++ (if p (shard_of s (dk_token (ps_key ps)))
        then mf_partition_start ps :: body else []).
Proof.
  induction a as [|mf a IH]; intros lead Hbody; simpl.
  - rewrite select_body by done.
    by destruct (p (shard_of s (dk_token (ps_key ps)))).
  - rewrite IH by done. by rewrite app_assoc.
Qed.

(** ** The reverse walk against the stream-order reading *)

Lemma is_saving_insert_buffer readers shard rm b x :
  readers !! shard = Some rm →
  is_saving (<[shard := set_dismantled_buffer b rm]> readers) x = is_saving readers x.
Proof.
  intros Hrm. unfold is_saving.
  destruct (decide (shard = x)) as [->|Hne].
  - rewrite list_lookup_insert_eq by (by eapply lookup_lt_Some). by rewrite Hrm.
  - by rewrite list_lookup_insert_ne.
Qed.

Lemma dismantled_onto_insert readers shard rm l :
  readers !! shard = Some rm →
  dismantled_onto (λ x, if decide (x = shard) then l else [])
    readers (<[shard := set_dismantled_buffer (l ++ get_dismantled_buffer rm) rm]> readers).
Proof.
  intros Hrm. split; [by rewrite length_insert|].
  intros x rmx Hx. destruct (decide (x = shard)) as [->|Hne].
  - rewrite list_lookup_insert_eq by (by eapply lookup_lt_Some).
    eexists; split; [done|]. by simplify_eq.
  - rewrite list_lookup_insert_ne by done. eexists; split; [done|]. done.
Qed.

Lemma dismantled_onto_trans e1 e2 r1 r2 r3 :
  dismantled_onto e1 r1 r2 → dismantled_onto e2 r2 r3 →
  dismantled_onto (λ x, e2 x ++ e1 x) r1 r3.
Proof.
  intros [Hl1 H1] [Hl2 H2]. split; [congruence|].
  intros x rm Hx. destruct (H1 x rm Hx) as (rm2 & Hx2 & Hs2 & Hp2 & Hb2).
  destruct (H2 x rm2 Hx2) as (rm3 & Hx3 & Hs3 & Hp3 & Hb3).
  exists rm3. repeat split; [done|congruence|congruence|].
  by rewrite Hb3, Hb2, app_assoc.
Qed.

Lemma dismantled_onto_ext e1 e2 r1 r2 :
  (∀ x, e1 x = e2 x) → dismantled_onto e1 r1 r2 → dismantled_onto e2 r1 r2.
Proof.
  intros He [Hl H]. split; [done|]. intros x rm Hx.
  destruct (H x rm Hx) as (rm' & ? & ? & ? & ?). exists rm'. by rewrite <- He.
Qed.

Lemma dismantle_walk_tail s pkey sv rits : ∀ tmp k d readers,
  (∀ t, (shard_of s t < length readers)%nat) →
  (∀ x, is_saving readers x = sv x) →
  Forall (λ mf, is_partition_start mf = false) tmp →
  ∃ readers',
    dismantle_walk s rits tmp (dbs_mk k d) readers ≫= dismantle_tail s pkey
    = Some (dbs_mk
              (tadd k (tally_of s (select s sv true (reverse rits ++ reverse tmp))))
              (tadd d (tally_of s (select s (λ x, negb (sv x)) false
                                     (reverse rits ++ reverse tmp)))),
            readers') ∧
    dismantled_onto
      (λ shard, select s (λ x, bool_decide (x = shard) && sv x)
                  (bool_decide (shard_of s (dk_token pkey) = shard))
                  (reverse rits ++ reverse tmp))
      readers readers'.
Proof.
  induction rits as [|mf rest IH]; intros tmp k d readers Hrange Hsv Htmp.
  - (* the walk is over: the tail of the function *)
    simpl. destruct (lookup_lt_is_Some_2 readers _ (Hrange (dk_token pkey))) as [rm Hrm].
    rewrite Hrm, move_to_front_mk.
    assert (Hrev : Forall (λ mf, is_partition_start mf = false) (reverse tmp))
      by (by apply Forall_reverse).
    rewrite !select_body by done. eexists; split.
    + by rewrite tally_of_reverse, tally_of_nil, tadd_0_r.
    + eapply dismantled_onto_ext; [|by apply dismantled_onto_insert].
      intros x; simpl. rewrite select_body by done.
      destruct (decide (x = _)) as [->|Hne].
      * by rewrite bool_decide_eq_true_2.
      * by rewrite bool_decide_eq_false_2.
  - assert (Hother : is_partition_start mf = false →
      reverse (mf :: rest) ++ reverse tmp = reverse rest ++ reverse (tmp ++ [mf])).
    { intros _. by rewrite reverse_cons, reverse_app, <- app_assoc. }
    destruct mf as [ps| | | |];
      try (simpl dismantle_walk; rewrite Hother by done;
           apply IH; [done|done|]; apply Forall_app; split; [done|];
           by repeat constructor).
    clear Hother. simpl dismantle_walk.
    set (shard := shard_of s (dk_token (ps_key ps))).
    destruct (lookup_lt_is_Some_2 readers shard (Hrange _)) as [rm Hrm].
    rewrite Hrm.
    assert (Hrev : Forall (λ mf, is_partition_start mf = false) (reverse tmp))
      by (by apply Forall_reverse).
    assert (Hsh : sv shard = bool_decide (rm_state rm = saving)).
    { rewrite <- Hsv. unfold is_saving. by rewrite Hrm. }
    rewrite reverse_cons, <- app_assoc. simpl.
    rewrite !select_app_partition by done. fold shard.
    destruct (decide (rm_state rm ≠ saving)) as [Hns|Hs].
    + (* the shard is not saving: everything collected is discarded *)
      rewrite bool_decide_eq_false_2 in Hsh by done.
      rewrite foldl_add_discarded_mk, dbs_add_discarded_mk.
      destruct (IH [] k (tadd (tadd d (tally_of s tmp))
                           (tally_of s [mf_partition_start ps])) readers)
        as (readers' & Heq & Honto); [done..|].
      rewrite reverse_nil, !app_nil_r in Heq, Honto.
      exists readers'. split.
      * rewrite Heq, Hsh. simpl. rewrite app_nil_r. do 3 f_equal.
        change (mf_partition_start ps :: reverse tmp)
          with ([mf_partition_start ps] ++ reverse tmp).
        tally_solve.
      * eapply dismantled_onto_ext; [|exact Honto].
        intros x; simpl. rewrite select_app_partition by done. fold shard.
        by rewrite Hsh, andb_false_r, app_nil_r.
    + (* the shard is saving: the collected fragments go to its buffer *)
      assert (Hst : rm_state rm = saving) by (by destruct (decide (rm_state rm = saving))).
      rewrite bool_decide_eq_true_2 in Hsh by done.
      rewrite move_to_front_mk, dbs_add_mk.
      set (readers1 := <[shard := _]> readers).
      destruct (IH [] (tadd (tadd k (tally_of s tmp))
                         (tally_of s [mf_partition_start ps])) d readers1)
        as (readers' & Heq & Honto).
      { intros t. unfold readers1. rewrite length_insert. apply Hrange. }
      { intros x. unfold readers1. rewrite is_saving_insert_buffer by done. apply Hsv. }
      { done. }
      rewrite reverse_nil, !app_nil_r in Heq, Honto.
      exists readers'. split.
      * rewrite Heq, Hsh. simpl. rewrite app_nil_r. do 3 f_equal.
        change (mf_partition_start ps :: reverse tmp)
          with ([mf_partition_start ps] ++ reverse tmp).
        tally_solve.
      * eapply dismantled_onto_ext;
          [|eapply dismantled_onto_trans;
             [apply (dismantled_onto_insert readers shard rm
                       (mf_partition_start ps :: reverse tmp) Hrm)|exact Honto]].
        intros x; simpl. rewrite select_app_partition by done. fold shard.
        rewrite Hsh, andb_true_r.
        destruct (decide (x = shard)) as [->|Hne].
        -- by rewrite (bool_decide_eq_true_2 (shard = shard)).
        -- by rewrite (bool_decide_eq_false_2 (shard = x)).
Qed.

(** C2.  [dismantle_combined_buffer], which walks the merged buffer from
    its tail collecting fragments in a scratch list, always returns (the
    sharder maps every token to a shard of the vector) and has this effect,
    read in stream order: every partition of the buffer ([partition_start]
    and the fragments behind it) whose shard is in state [saving] is put, in
    its original order, in front of that shard's dismantled buffer; every
    partition whose shard is not [saving] is dropped and counted as
    discarded; the fragments in front of the first [partition_start] go
    to the front of the buffer of the shard owning [pkey], the last
    delivered partition key.  States and remote parts are untouched, and the
    statistics count the kept and the discarded fragments. *)
Theorem dismantle_combined_buffer_routes s readers buf pkey :
  (∀ t, (shard_of s t < length readers)%nat) →
  ∃ stats readers',
    dismantle_combined_buffer s readers buf pkey = Some (stats, readers') ∧
    dismantled_onto
      (λ shard, select s (λ x, bool_decide (x = shard) && is_saving readers x)
                  (bool_decide (shard_of s (dk_token pkey) = shard)) buf)
      readers readers' ∧
    stats = dbs_mk (tally_of s (select s (is_saving readers) true buf))
                   (tally_of s (select s (λ x, negb (is_saving readers x)) false buf)).
Proof.
  intros Hrange. unfold dismantle_combined_buffer. rewrite dbs_zero_mk.
  destruct (dismantle_walk_tail s pkey (is_saving readers) (reverse buf)
              [] (0, 0, 0) (0, 0, 0) readers) as (readers' & Heq & Honto);
    [done..|].
  rewrite reverse_nil, app_nil_r, reverse_involutive in Heq, Honto.
  rewrite !tadd_0_l in Heq. eauto.
Qed.

(** C6.  [dismantle_compaction_state] looks at the shard of the active
    [partition_start].  When that shard is [saving], the shard's dismantled
    buffer afterwards reads [partition_start], static row (if present),
    range tombstone change (if present), then what it held before, and the
    pieces are counted as kept.  When it is not [saving], the vector is
    unchanged and the pieces are counted as discarded. *)
Theorem dismantle_compaction_state_routes s readers cs rm :
  let ps := cs_partition_start cs in
  let shard := shard_of s (dk_token (ps_key ps)) in
  let n := 1 + N.of_nat (length (option_list (cs_static_row cs)))
             + N.of_nat (length (option_list (cs_current_tombstone cs))) in
  let bytes := (default 0 (rtc_memory_usage s <$> cs_current_tombstone cs)
                + default 0 (sr_memory_usage s <$> cs_static_row cs)
                + ps_memory_usage s ps) mod size_t_modulus in
  readers !! shard = Some rm →
  (rm_state rm = saving →
   dismantle_compaction_state s readers cs
   = Some ({| dbs_partitions := 1; dbs_fragments := n; dbs_bytes := bytes;
              dbs_discarded_partitions := 0; dbs_discarded_fragments := 0;
              dbs_discarded_bytes := 0 |},
           <[shard := set_dismantled_buffer
                        (mf_partition_start ps
                           :: option_list (mf_static_row <$> cs_static_row cs)
                           ++ option_list (mf_range_tombstone_change
                                             <$> cs_current_tombstone cs)
                           ++ get_dismantled_buffer rm) rm]> readers)) ∧
  (rm_state rm ≠ saving →
   dismantle_compaction_state s readers cs
   = Some ({| dbs_partitions := 0; dbs_fragments := 0; dbs_bytes := 0;
              dbs_discarded_partitions := 1; dbs_discarded_fragments := n;
              dbs_discarded_bytes := bytes |},
           readers)).
Proof.
  intros ps shard n bytes Hrm. unfold dismantle_compaction_state.
  fold ps. fold shard. rewrite Hrm. subst n bytes.
  split; intros Hst; destruct (decide (rm_state rm ≠ saving)) as [Hd|Hd];
    try done;
    destruct (cs_current_tombstone cs) as [rtc|], (cs_static_row cs) as [sr|];
    simpl; f_equal; f_equal;
    unfold dbs_add_ps, dbs_add_sr, dbs_add_rtc, dbs_add_discarded_ps,
      dbs_add_discarded_sr, dbs_add_discarded_rtc, dbs_add_raw,
      dbs_add_discarded_raw, dbs_zero; simpl;
    f_equal; unfold wadd;
    repeat (rewrite ?N.Div0.add_mod_idemp_l, <- ?N.add_assoc);
    first [reflexivity | f_equal; lia].
Qed.

(** ** The reader lifecycle policy *)

Lemma w_with_dbs_id w : w_with_dbs (w_dbs w) w = w.
Proof. by destruct w. Qed.

(** C9.  [destroy_reader] on a shard in state [used] moves it to [saving]
    and stores the stopped reader's handle and unconsumed fragments in the
    shard's remote parts; in any other state it only logs a warning, leaves
    the reader vector as it is and still returns normally. *)
Theorem destroy_reader_transition shard reader w rm :
  w_readers w !! shard = Some rm →
  (rm_state rm = used →
   ∀ rparts, rm_rparts rm = Some rparts →
     destroy_reader shard reader w
     = Done tt
         (w_with_readers
            (<[shard :=
                 {| rm_state := saving;
                    rm_rparts :=
                      Some {| rp_permit := rp_permit rparts;
                              rp_range := rp_range rparts;
                              rp_slice := rp_slice rparts;
                              rp_read_operation := rp_read_operation rparts;
                              rp_handle := Some (sr_handle reader);
                              rp_buffer := Some (sr_unconsumed_fragments reader) |};
                    rm_dismantled_buffer := rm_dismantled_buffer rm |}]>
               (w_readers w)) w)) ∧
  (rm_state rm ≠ used →
   ∀ db, w_dbs w !! shard = Some db →
     ∃ w', destroy_reader shard reader w = Done tt w' ∧
           w_readers w' = w_readers w ∧
           w_dbs w'
           = <[shard := db_with_log
                          (db_log db ++ [warn_unexpected_dismantle (rm_state rm)]) db]>
               (w_dbs w)).
Proof.
  intros Hrm. split.
  - intros Hst rparts Hrp. unfold destroy_reader, bind, reader_at.
    rewrite Hrm. destruct (decide (rm_state rm = used)); [|done].
    rewrite Hrp. simpl. unfold set_reader.
    destruct (decide (shard < length (w_readers w))%nat) as [|Hge]; [done|].
    exfalso. apply Hge. by eapply lookup_lt_Some.
  - intros Hst db Hdb. unfold destroy_reader, bind, reader_at.
    rewrite Hrm. destruct (decide (rm_state rm = used)); [done|].
    unfold on_db. rewrite Hdb. simpl. eauto.
Qed.

(** C5.  On a shard in state [successful_lookup] whose saved reader is
    still registered: [obtain_reader_permit] hands out the permit of the
    saved remote parts; [create_reader] called with the saved reader's own
    permit returns that reader and leaves the shard [used]; called with any
    other permit it raises the internal error. *)
Theorem create_reader_permit_identity fl ctx shard permit pr ps w rm rparts handle db reader :
  w_readers w !! shard = Some rm →
  rm_state rm = successful_lookup →
  rm_rparts rm = Some rparts →
  rp_handle rparts = Some handle →
  w_dbs w !! shard = Some db →
  fl in_create_unregister shard = false →
  sem_inactive (db_semaphores db (db_semaphore_id db)) !! handle = Some reader →
  (∃ w', obtain_reader_permit fl ctx shard w = Done (rp_permit rparts) w' ∧
         w_readers w' = w_readers w) ∧
  (rd_permit reader = permit →
   ∃ w', create_reader fl shard permit pr ps w = Done reader w' ∧
         w_readers w' = <[shard := rm_with_state used rm]> (w_readers w)) ∧
  (rd_permit reader ≠ permit →
   ∃ w', create_reader fl shard permit pr ps w = Throw internal_error w').
Proof.
  intros Hrm Hst Hrp Hh Hdb Hfl Hreg.
  assert (Hlt : (shard < length (w_readers w))%nat) by (by eapply lookup_lt_Some).
  split; [|split].
  - unfold obtain_reader_permit, bind, reader_at. rewrite Hrm.
    destruct (decide (rm_state rm = successful_lookup)); [|done].
    rewrite Hrp. simpl. unfold on_db. rewrite Hdb. simpl. eauto.
  - intros Hp. unfold create_reader, bind, reader_at. rewrite Hrm, Hst.
    rewrite bool_decide_eq_false_2 by (intros (_ & ? & _); done).
    destruct (decide (successful_lookup = successful_lookup)); [|done].
    rewrite Hrp. simpl. rewrite Hh. simpl.
    unfold may_throw. rewrite Hfl. simpl.
    unfold on_db. rewrite Hdb. unfold db_unregister_inactive_read. simpl.
    rewrite Hreg. unfold set_reader. simpl.
    destruct (decide (shard < length (w_readers w))%nat); [|done].
    destruct (decide (rd_permit reader ≠ permit)); [done|].
    simpl. eexists; split; done.
  - intros Hp. unfold create_reader, bind, reader_at. rewrite Hrm, Hst.
    rewrite bool_decide_eq_false_2 by (intros (_ & ? & _); done).
    destruct (decide (successful_lookup = successful_lookup)); [|done].
    rewrite Hrp. simpl. rewrite Hh. simpl.
    unfold may_throw. rewrite Hfl. simpl.
    unfold on_db. rewrite Hdb. unfold db_unregister_inactive_read. simpl.
    rewrite Hreg. unfold set_reader. simpl.
    destruct (decide (shard < length (w_readers w))%nat); [|done].
    destruct (decide (rd_permit reader ≠ permit)); [|done].
    simpl. eauto.
Qed.

(** ** The entry points *)

(** Building a read context is visible in the node: the coordinator's shard
    hands out a permit. *)
Lemma make_read_context_takes_a_permit local s cmd ranges w ctx w' db :
  make_read_context local s cmd ranges w = Done ctx w' →
  w_dbs w !! local = Some db →
  ∃ db', w_dbs w' !! local = Some db' ∧ db_next_permit db' = S (db_next_permit db).
Proof.
  intros Hmk Hdb. unfold make_read_context, bind, on_db, get, modify, ret in Hmk.
  rewrite Hdb in Hmk. simpl in Hmk.
  rewrite list_lookup_insert_eq in Hmk by (by eapply lookup_lt_Some). simpl in Hmk.
  injection Hmk as _ <-. simpl.
  rewrite list_lookup_insert_eq
    by (rewrite length_insert; by eapply lookup_lt_Some).
  by eexists.
Qed.

(** C3.  With a zero row limit, per-partition row limit or partition limit,
    both entry points return the default-constructed result with the cache
    hit rate of the table and leave everything as it was: no read context
    is built, no reader is looked up, created or touched. *)
Theorem zero_limit_returns_empty fl env local s cmd ranges w db :
  cmd_row_limit cmd = 0 ∨ slice_partition_row_limit (cmd_slice cmd) = 0
    ∨ cmd_partition_limit cmd = 0 →
  w_dbs w !! local = Some db →
  query_mutations_on_all_shards fl env local s cmd ranges w
    = Done (query_result_default, db_cache_hit_rate db) w ∧
  query_data_on_all_shards fl env local s cmd ranges w
    = Done (query_result_default, db_cache_hit_rate db) w.
Proof.
  intros Hzero Hdb.
  assert (Hcond : bool_decide (cmd_row_limit cmd = 0)
                  || bool_decide (slice_partition_row_limit (cmd_slice cmd) = 0)
                  || bool_decide (cmd_partition_limit cmd = 0) = true).
  { destruct Hzero as [H|[H|H]]; rewrite H; simpl;
      rewrite ?orb_true_r; done. }
  unfold query_mutations_on_all_shards, query_data_on_all_shards,
    do_query_on_all_shards.
  rewrite Hcond. unfold bind, on_db, ret. rewrite Hdb.
  rewrite list_insert_id by done. by rewrite w_with_dbs_id.
Qed.

(** C10.  With all three limits non-zero, [do_query_on_all_shards] reads
    through [cmd.max_result_size] before anything else happens: when the
    optional is empty the behaviour is undefined whatever the faults, the
    page consumer and the state are, although [get_max_result_size] itself
    falls back to the database's unlimited-query maximum in that case. *)
Theorem max_result_size_is_dereferenced fl env local s cmd ranges w :
  cmd_row_limit cmd ≠ 0 →
  slice_partition_row_limit (cmd_slice cmd) ≠ 0 →
  cmd_partition_limit cmd ≠ 0 →
  cmd_max_result_size cmd = None →
  do_query_on_all_shards fl env local s cmd ranges w = Undefined ∧
  query_mutations_on_all_shards fl env local s cmd ranges w = Undefined ∧
  query_data_on_all_shards fl env local s cmd ranges w = Undefined ∧
  ∀ ctx db, ctx_cmd ctx = cmd →
    get_max_result_size ctx db = db_unlimited_query_max_result_size db.
Proof.
  intros Hr Hpr Hp Hnone.
  assert (Hcond : bool_decide (cmd_row_limit cmd = 0)
                  || bool_decide (slice_partition_row_limit (cmd_slice cmd) = 0)
                  || bool_decide (cmd_partition_limit cmd = 0) = false).
  { by rewrite !bool_decide_eq_false_2. }
  unfold query_mutations_on_all_shards, query_data_on_all_shards,
    do_query_on_all_shards.
  rewrite Hcond, Hnone. repeat split; try done.
  intros ctx db Hc. unfold get_max_result_size. by rewrite Hc, Hnone.
Qed.

(** ** Saving never fails the read *)

Lemma bumped_0 a : bumped 0 a a.
Proof. by left. Qed.

Lemma bumped_1 a : bumped 1 a (wadd a 1).
Proof. right. split; [lia|done]. Qed.

Lemma bumped_trans k k' a b c : bumped k a b → bumped k' b c → bumped (k + k') a c.
Proof.
  intros [[-> ->]|[Hk ->]] [[-> ->]|[Hk' ->]].
  - by left.
  - right. split; [lia|done].
  - right. split; [lia|]. f_equal. lia.
  - right. split; [lia|]. rewrite N.Div0.add_mod_idemp_l. f_equal. lia.
Qed.

(** The loops that push fragments back: a throwing
    [unpop_mutation_fragment] stops them at the first fragment, and without
    a fragment nothing is called that could throw. *)
Lemma is_empty_reverse {A} (l : list A) : is_empty (reverse l) = is_empty l.
Proof.
  destruct l as [|a l]; [done|]. rewrite reverse_cons.
  by destruct (reverse l).
Qed.

Lemma is_empty_app {A} (l k : list A) : is_empty (l ++ k) = is_empty l && is_empty k.
Proof. by destruct l. Qed.

Lemma unpop_loop_outcome fl s shard rits : ∀ reader db,
  unpop_loop fl s shard rits reader db
  = if fl in_save_unpop shard && negb (is_empty rits)
    then Throw (external_failure in_save_unpop shard) db
    else Done (foldl (unpop_mutation_fragment s) reader rits) db.
Proof.
  induction rits as [|mf rits IH]; intros reader db; simpl.
  - by rewrite andb_false_r.
  - unfold bind, may_throw, throw, ret.
    destruct (fl in_save_unpop shard) eqn:Hf; simpl; [done|].
    rewrite IH. by rewrite ?Hf.
Qed.

Lemma unpop_saved_buffer_outcome fl s shard ob acc db :
  unpop_saved_buffer fl s shard ob acc db
  = if fl in_save_unpop shard && negb (is_empty (default [] ob))
    then Throw (external_failure in_save_unpop shard) db
    else Done (unpop_buffer s ob acc) db.
Proof.
  destruct ob as [b|]; simpl; [|by rewrite andb_false_r].
  unfold bind. rewrite unpop_loop_outcome, is_empty_reverse.
  by destruct (_ && _).
Qed.

(** The [try] block either completes or throws, as [save_step_fault] says,
    and never touches the failure counter or the log. *)
Lemma save_step_outcome fl ctx x pk ck rm rparts handle db :
  rm_rparts rm = Some rparts → rp_handle rparts = Some handle →
  if save_step_fault fl x rm db
  then ∃ e db', save_step fl ctx x pk ck rm db = Throw e db' ∧
                failed_reader_saves db' = failed_reader_saves db
  else ∃ db', save_step fl ctx x pk ck rm db = Done tt db' ∧
              failed_reader_saves db' = failed_reader_saves db.
Proof.
  intros Hrp Hh. unfold save_step_fault, save_step.
  unfold bind, deref, ret, may_throw, throw. rewrite Hrp. simpl. rewrite Hh. simpl.
  destruct (fl in_save_unregister x); simpl; [eauto|].
  unfold db_unregister_inactive_read. simpl.
  destruct (sem_inactive (db_semaphores db (permit_sem (rp_permit rparts))) !! handle)
    as [reader|] eqn:Hreg; simpl.
  2:{ rewrite ?bool_decide_eq_false_2 by (by intros [? ?]). simpl. eauto. }
  rewrite ?bool_decide_eq_true_2 by eauto. simpl.
  unfold pushed_back. rewrite Hrp, is_empty_app, negb_andb, andb_orb_distrib_r. simpl.
  rewrite unpop_saved_buffer_outcome.
  destruct (fl in_save_unpop x && negb (is_empty (default [] (rp_buffer rparts))));
    simpl; [eauto|].
  rewrite unpop_saved_buffer_outcome.
  destruct (fl in_save_unpop x && negb (is_empty (default [] (rm_dismantled_buffer rm))));
    simpl; [eauto|].
  destruct (unpop_buffer _ (rm_dismantled_buffer rm) _) as [fragments reader'].
  destruct (fl in_save_insert x); simpl; [eauto|].
  unfold db_querier_cache_insert. simpl.
  destruct (db_querier_cache db !! cmd_query_uuid (ctx_cmd ctx)); simpl; eauto.
Qed.

Lemma save_on_shard_outcome fl ctx x pk ck rm rparts handle db :
  rm_rparts rm = Some rparts → rp_handle rparts = Some handle →
  ∃ db', save_on_shard fl ctx x pk ck rm db = Done tt db' ∧
         failed_reader_saves db'
         = (if save_step_fault fl x rm db
            then wadd (failed_reader_saves db) 1 else failed_reader_saves db).
Proof.
  intros Hrp Hh. unfold save_on_shard, try_catch.
  pose proof (save_step_outcome fl ctx x pk ck rm rparts handle db Hrp Hh) as H.
  destruct (save_step_fault fl x rm db).
  - destruct H as (e & db' & -> & Hf). simpl. eexists; split; [done|].
    unfold failed_reader_saves in *. simpl. by rewrite Hf.
  - destruct H as (db' & -> & Hf). eauto.
Qed.

Lemma save_reader_spec fl ctx x pk ck w rm rparts handle dbx :
  length (w_readers w) = length (w_dbs w) →
  (ctx_shard ctx < length (w_dbs w))%nat →
  w_readers w !! x = Some rm → w_dbs w !! x = Some dbx →
  rm_rparts rm = Some rparts → rp_handle rparts = Some handle →
  ∃ w', save_reader fl ctx x pk ck w = Done tt w' ∧
    w_readers w' = <[x := reader_meta_default]> (w_readers w) ∧
    w_trace w' = w_trace w ∧
    length (w_dbs w') = length (w_dbs w) ∧
    ∀ s db, w_dbs w !! s = Some db →
      ∃ db', w_dbs w' !! s = Some db' ∧
        (s ≠ x → db_semaphores db' = db_semaphores db) ∧
        failed_reader_saves db'
        = (if bool_decide (blame fl ctx x rm dbx = Some s)
           then wadd (failed_reader_saves db) 1 else failed_reader_saves db).
Proof.
  intros Hlen Hlocal Hrm Hdbx Hrp Hh.
  assert (Hx : (x < length (w_readers w))%nat) by (by eapply lookup_lt_Some).
  destruct (lookup_lt_is_Some_2 (w_dbs w) _ Hlocal) as [dbl Hdbl].
  unfold save_reader, bind, reader_at, set_reader, try_catch, may_throw, blame.
  rewrite Hrm. destruct (decide (x < length (w_readers w))%nat); [|done].
  destruct (fl in_save_invoke_on x) eqn:Hinv; simpl.
  - (* the cross-shard call fails: the coordinator's shard pays *)
    unfold on_db. simpl. rewrite Hdbl. simpl.
    eexists; split; [done|]. simpl. repeat split; [by rewrite length_insert|].
    intros s db Hs. destruct (decide (ctx_shard ctx = s)) as [<-|Hne].
    + rewrite list_lookup_insert_eq by done. eexists; split; [done|].
      rewrite bool_decide_eq_true_2 by done. simplify_eq. done.
    + rewrite list_lookup_insert_ne by done. eexists; split; [done|].
      rewrite bool_decide_eq_false_2 by congruence. done.
  - (* the lambda runs on the shard and never throws *)
    unfold on_db. simpl. rewrite Hdbx.
    destruct (save_on_shard_outcome fl ctx x pk ck rm rparts handle dbx Hrp Hh)
      as (db' & -> & Hf).
    eexists; split; [done|]. simpl. repeat split; [by rewrite length_insert|].
    intros s db Hs. destruct (decide (x = s)) as [<-|Hne].
    + rewrite list_lookup_insert_eq by (by eapply lookup_lt_Some).
      eexists; split; [done|]. split; [done|]. simplify_eq. rewrite Hf.
      destruct (save_step_fault fl x rm dbx).
      * by rewrite bool_decide_eq_true_2.
      * by rewrite bool_decide_eq_false_2.
    + rewrite list_lookup_insert_ne by done. eexists; split; [done|].
      split; [done|].
      rewrite bool_decide_eq_false_2; [done|].
      destruct (save_step_fault fl x rm dbx); congruence.
Qed.

Lemma save_readers_shard_spec fl ctx pk ck x w :
  wf_save ctx w → (x < length (w_dbs w))%nat →
  ∃ w', save_readers_shard fl ctx pk ck x w = Done tt w' ∧
    wf_save ctx w' ∧
    length (w_dbs w') = length (w_dbs w) ∧
    w_trace w' = w_trace w ∧
    (∀ s rm, w_readers w !! s = Some rm →
       w_readers w' !! s
       = Some (if bool_decide (s = x ∧ to_be_saved rm)
               then reader_meta_default else rm)) ∧
    ∀ s db, w_dbs w !! s = Some db →
      ∃ db', w_dbs w' !! s = Some db' ∧
        (s ≠ x → db_semaphores db' = db_semaphores db) ∧
        failed_reader_saves db'
        = (if bool_decide (saved_blame fl ctx x w = Some s)
           then wadd (failed_reader_saves db) 1 else failed_reader_saves db).
Proof.
  intros (Hlen & Hlocal & Hrange & Hready) Hx.
  destruct (lookup_lt_is_Some_2 (w_dbs w) _ Hx) as [dbx Hdbx].
  assert (Hxr : (x < length (w_readers w))%nat) by lia.
  destruct (lookup_lt_is_Some_2 (w_readers w) _ Hxr) as [rm Hrm].
  unfold save_readers_shard, saved_blame. unfold bind at 1. unfold reader_at.
  rewrite Hrm, Hdbx. fold (to_be_saved rm).
  destruct (bool_decide (to_be_saved rm)) eqn:Hsave.
  - apply bool_decide_eq_true_1 in Hsave.
    destruct (Hready x rm Hrm Hsave) as (rparts & handle & Hrp & Hh).
    destruct (save_reader_spec fl ctx x pk ck w rm rparts handle dbx
                Hlen Hlocal Hrm Hdbx Hrp Hh)
      as (w' & Heq & Hr' & Ht' & Hl' & Hdbs').
    exists w'. split; [done|]. split; [|split; [done|split; [done|split; [|done]]]].
    + unfold wf_save. rewrite Hr', length_insert, Hl'. repeat split; try done.
      intros y rmy Hy Hsy. destruct (decide (x = y)) as [<-|Hne].
      * rewrite list_lookup_insert_eq in Hy by done. simplify_eq.
        by destruct Hsy.
      * rewrite list_lookup_insert_ne in Hy by done. eauto.
    + intros s rms Hs. rewrite Hr'. destruct (decide (x = s)) as [<-|Hne].
      * rewrite list_lookup_insert_eq by done. simplify_eq.
        by rewrite bool_decide_eq_true_2.
      * rewrite list_lookup_insert_ne by done.
        rewrite bool_decide_eq_false_2; [done|]. by intros [? _].
  - apply bool_decide_eq_false_1 in Hsave.
    exists w. split; [done|]. split; [done|]. split; [done|]. split; [done|]. split.
    + intros s rms Hs. rewrite bool_decide_eq_false_2; [done|].
      intros [-> ?]. by simplify_eq.
    + intros s db Hs. by exists db.
Qed.

(** Whether the save of [x] fails depends on the reader slot of [x] and on
    the semaphores of its database only. *)
Lemma saved_blame_frame fl ctx x w w' :
  w_readers w' !! x = w_readers w !! x →
  (∀ db, w_dbs w !! x = Some db →
     ∃ db', w_dbs w' !! x = Some db' ∧ db_semaphores db' = db_semaphores db) →
  length (w_dbs w') = length (w_dbs w) →
  saved_blame fl ctx x w' = saved_blame fl ctx x w.
Proof.
  intros Hr Hdb Hlen. unfold saved_blame. rewrite Hr.
  destruct (w_readers w !! x) as [rm|]; [|done].
  destruct (w_dbs w !! x) as [db|] eqn:Hx.
  - destruct (Hdb db eq_refl) as (db' & -> & Hsem).
    unfold blame, save_step_fault. by rewrite Hsem.
  - rewrite (lookup_ge_None_2 (w_dbs w')); [done|].
    rewrite Hlen. by apply lookup_ge_None_1.
Qed.

Lemma save_loop fl ctx pk ck n : ∀ i w,
  wf_save ctx w → (i + n ≤ length (w_dbs w))%nat →
  ∃ w', parallel_for_each (seq i n) (save_readers_shard fl ctx pk ck) w = Done tt w' ∧
    wf_save ctx w' ∧
    length (w_dbs w') = length (w_dbs w) ∧
    w_trace w' = w_trace w ∧
    (∀ s rm, w_readers w !! s = Some rm →
       w_readers w' !! s
       = Some (if bool_decide ((i ≤ s < i + n)%nat ∧ to_be_saved rm)
               then reader_meta_default else rm)) ∧
    ∀ s db, w_dbs w !! s = Some db →
      ∃ db' k, w_dbs w' !! s = Some db' ∧
        k ≤ N.of_nat n ∧
        bumped k (failed_reader_saves db) (failed_reader_saves db') ∧
        (¬ (i ≤ s < i + n)%nat → db_semaphores db' = db_semaphores db) ∧
        ((∃ x, (i ≤ x < i + n)%nat ∧ saved_blame fl ctx x w = Some s) → 1 ≤ k).
Proof.
  induction n as [|n IH]; intros i w Hwf Hin.
  - exists w. split; [done|]. split; [done|]. split; [done|]. split; [done|]. split.
    + intros s rm Hs. rewrite bool_decide_eq_false_2; [done|]. lia.
    + intros s db Hs. exists db, 0. repeat split; try done; try lia.
      * apply bumped_0.
      * intros (x & ? & _). lia.
  - simpl seq. simpl parallel_for_each.
    destruct (save_readers_shard_spec fl ctx pk ck i w Hwf ltac:(lia))
      as (w1 & Heq1 & Hwf1 & Hlen1 & Ht1 & Hr1 & Hd1).
    rewrite Heq1.
    destruct (IH (S i) w1 Hwf1 ltac:(lia)) as (w' & Heq & Hwf' & Hlen' & Ht' & Hr' & Hd').
    exists w'. split; [done|]. split; [done|]. split; [congruence|].
    split; [congruence|]. split.
    + intros s rm Hs. specialize (Hr1 s rm Hs). specialize (Hr' _ _ Hr1).
      rewrite Hr'. f_equal.
      destruct (decide (s = i)) as [->|Hne].
      * rewrite (bool_decide_eq_false_2 ((S i ≤ i < S i + n)%nat ∧ _)) by lia.
        destruct (decide (to_be_saved rm)).
        -- rewrite !bool_decide_eq_true_2; [done|split; [lia|done]|done].
        -- rewrite !bool_decide_eq_false_2; [done|by intros [_ ?]..].
      * rewrite (bool_decide_eq_false_2 (s = i ∧ _)) by (by intros [? _]).
        destruct (decide ((S i ≤ s < S i + n)%nat ∧ to_be_saved rm)) as [[? ?]|Hn].
        -- rewrite !bool_decide_eq_true_2; [done|split; [lia|done]..].
        -- rewrite !bool_decide_eq_false_2; [done|..]; intros [? ?]; apply Hn;
             (split; [lia|done]).
    + intros s db Hs.
      destruct (Hd1 s db Hs) as (db1 & Hs1 & Hsem1 & Hf1).
      destruct (Hd' s db1 Hs1) as (db' & k2 & Hs' & Hk2 & Hb2 & Hsem2 & Hpos2).
      exists db', ((if bool_decide (saved_blame fl ctx i w = Some s) then 1 else 0) + k2).
      split; [done|]. split; [case_bool_decide; lia|]. split; [|split].
      * eapply bumped_trans; [|exact Hb2]. rewrite Hf1.
        case_bool_decide; [apply bumped_1|apply bumped_0].
      * intros Hout. rewrite Hsem2 by lia. apply Hsem1. lia.
      * intros (x & Hx & Hbl). destruct (decide (x = i)) as [->|Hne].
        -- rewrite bool_decide_eq_true_2 by done. lia.
        -- assert (1 ≤ k2); [|lia]. apply Hpos2. exists x. split; [lia|].
           rewrite <- Hbl. apply saved_blame_frame; [| |done].
           ++ destruct (w_readers w !! x) as [rmx|] eqn:Hrx.
              ** rewrite (Hr1 x rmx Hrx).
                 rewrite bool_decide_eq_false_2; [done|]. by intros [? _].
              ** apply lookup_ge_None_2. apply lookup_ge_None_1 in Hrx.
                 destruct Hwf as (Hl & _), Hwf1 as (Hl1 & _). lia.
           ++ intros dbx Hdbx. destruct (Hd1 x dbx Hdbx) as (dbx1 & ? & Hsx & _).
              exists dbx1. split; [done|]. by apply Hsx.
Qed.

(** The two dismantlers only push fragments onto dismantled buffers. *)
Lemma dismantle_combined_buffer_onto s readers buf pkey :
  (∀ t, (shard_of s t < length readers)%nat) →
  ∃ stats readers' extra,
    dismantle_combined_buffer s readers buf pkey = Some (stats, readers') ∧
    dismantled_onto extra readers readers'.
Proof.
  intros Hrange. unfold dismantle_combined_buffer. rewrite dbs_zero_mk.
  destruct (dismantle_walk_tail s pkey (is_saving readers) (reverse buf)
              [] (0, 0, 0) (0, 0, 0) readers) as (readers' & Heq & Honto);
    [done..|].
  eauto.
Qed.

Lemma dismantled_onto_refl readers : dismantled_onto (λ _, []) readers readers.
Proof. split; [done|]. intros x rm Hx. by exists rm. Qed.

Lemma dismantle_compaction_state_onto s readers cs :
  (∀ t, (shard_of s t < length readers)%nat) →
  ∃ stats readers' extra,
    dismantle_compaction_state s readers cs = Some (stats, readers') ∧
    dismantled_onto extra readers readers'.
Proof.
  intros Hrange. unfold dismantle_compaction_state.
  set (shard := shard_of s _).
  destruct (lookup_lt_is_Some_2 readers shard (Hrange _)) as [rm Hrm].
  rewrite Hrm. destruct (decide (rm_state rm ≠ saving)).
  - do 3 eexists. split; [done|]. apply dismantled_onto_refl.
  - destruct (cs_current_tombstone cs) as [rtc|], (cs_static_row cs) as [sr|];
      do 3 eexists; (split; [done|]);
      match goal with
      | |- dismantled_onto _ _ (<[_ := set_dismantled_buffer ?b _]> _) =>
          match b with
          | context C [get_dismantled_buffer rm] =>
              let l := context C [@nil mutation_fragment_v2] in
              eapply dismantled_onto_ext;
                [|apply (dismantled_onto_insert readers shard rm l Hrm)]
          end
      end; intros x; simpl; reflexivity.
Qed.

Lemma wf_save_onto ctx w extra readers' :
  wf_save ctx w → dismantled_onto extra (w_readers w) readers' →
  wf_save ctx (w_with_readers readers' w).
Proof.
  intros (Hlen & Hlocal & Hrange & Hready) [Hl Honto].
  unfold wf_save. simpl. rewrite Hl. repeat split; try done.
  intros x rm' Hx Hs.
  destruct (lookup_lt_is_Some_2 (w_readers w) x) as [rm Hrm].
  { rewrite <- Hl. by eapply lookup_lt_Some. }
  destruct (Honto x rm Hrm) as (rm2 & Hx2 & Hst & Hrp & _). simplify_eq.
  rewrite Hrp. apply (Hready x rm Hrm). unfold to_be_saved in *. by rewrite <- Hst.
Qed.

(** A save that fails before the dismantlers have run fails after them as
    well: they only add to what is pushed back. *)
Lemma saved_blame_onto fl ctx x w extra readers' s :
  dismantled_onto extra (w_readers w) readers' →
  saved_blame fl ctx x w = Some s →
  saved_blame fl ctx x (w_with_readers readers' w) = Some s.
Proof.
  intros [Hl Honto]. unfold saved_blame. simpl.
  destruct (w_readers w !! x) as [rm|] eqn:Hrm; [|done].
  destruct (Honto x rm Hrm) as (rm' & -> & Hst & Hrp & Hbuf).
  destruct (w_dbs w !! x) as [db|]; [|done].
  unfold to_be_saved, blame, save_step_fault, pushed_back. rewrite Hst, Hrp.
  destruct (bool_decide _); [|done].
  destruct (fl in_save_invoke_on x); [done|].
  destruct (rm_rparts rm) as [rparts|]; [|done]. simpl.
  destruct (rp_handle rparts) as [handle|]; [|done].
  unfold get_dismantled_buffer in Hbuf. rewrite Hbuf, !is_empty_app.
  destruct (fl in_save_unregister x); [done|]. simpl.
  destruct (bool_decide _); [|done]. simpl.
  destruct (fl in_save_insert x); [by rewrite !orb_true_r|].
  destruct (fl in_save_unpop x); [|done]. simpl.
  destruct (is_empty (default [] (rp_buffer rparts))); [|done]. simpl.
  destruct (default [] (rm_dismantled_buffer rm)); [done|].
  by rewrite andb_false_r.
Qed.

Lemma save_readers_spec fl ctx buf cs ck w :
  cmd_query_uuid (ctx_cmd ctx) ≠ 0 → wf_save ctx w →
  ∃ w', save_readers fl ctx buf cs ck w = Done tt w' ∧
    wf_save ctx w' ∧ length (w_dbs w') = length (w_dbs w) ∧
    (∀ s rm, w_readers w !! s = Some rm →
       ∃ rm', w_readers w' !! s = Some rm' ∧
         (to_be_saved rm → rm' = reader_meta_default) ∧
         (¬ to_be_saved rm →
          rm_state rm' = rm_state rm ∧ rm_rparts rm' = rm_rparts rm)) ∧
    ∀ s db, w_dbs w !! s = Some db →
      ∃ db' k, w_dbs w' !! s = Some db' ∧ k ≤ N.of_nat (smp_count w) ∧
        bumped k (failed_reader_saves db) (failed_reader_saves db') ∧
        ((∃ x, saved_blame fl ctx x w = Some s) → 1 ≤ k).
Proof.
  intros Huuid Hwf. pose proof Hwf as (Hlen & Hlocal & Hrange & Hready).
  unfold save_readers. rewrite bool_decide_eq_false_2 by done.
  set (pk := ps_key (cs_partition_start cs)).
  destruct (dismantle_combined_buffer_onto (ctx_schema ctx) (w_readers w) buf pk Hrange)
    as (st1 & r1 & e1 & Heq1 & Honto1).
  assert (Hrange1 : ∀ t, (shard_of (ctx_schema ctx) t < length r1)%nat).
  { intros t. destruct Honto1 as [-> _]. apply Hrange. }
  destruct (dismantle_compaction_state_onto (ctx_schema ctx) r1 cs Hrange1)
    as (st2 & r2 & e2 & Heq2 & Honto2).
  pose proof (dismantled_onto_trans _ _ _ _ _ Honto1 Honto2) as Honto.
  unfold bind at 1. unfold lift_readers at 1. rewrite Heq1.
  unfold bind at 1. unfold trace at 1, modify at 1.
  unfold bind at 1. unfold lift_readers at 1. simpl w_readers. rewrite Heq2.
  unfold bind at 1. unfold trace at 1, modify at 1.
  unfold bind at 1. unfold get at 1.
  match goal with
  | |- ∃ w', parallel_for_each _ _ ?W = _ ∧ _ => set (w2 := W)
  end.
  assert (Hwf2 : wf_save ctx w2) by exact (wf_save_onto ctx w _ r2 Hwf Honto).
  assert (Hbl : ∀ x s, saved_blame fl ctx x w = Some s → saved_blame fl ctx x w2 = Some s)
    by exact (λ x s, saved_blame_onto fl ctx x w _ r2 s Honto).
  destruct (save_loop fl ctx pk ck (smp_count w2) 0 w2 Hwf2 ltac:(done))
    as (w' & Heq & Hwf' & Hlen' & _ & Hr' & Hd').
  exists w'. split; [done|]. split; [done|]. split; [done|]. split.
  - intros s rm Hs. destruct Honto as [_ Honto].
    destruct (Honto s rm Hs) as (rm2 & Hs2 & Hst & Hrp & _).
    specialize (Hr' s rm2 Hs2). eexists; split; [done|].
    assert (Hin : (0 ≤ s < 0 + smp_count w2)%nat).
    { apply lookup_lt_Some in Hs. unfold smp_count. simpl.
      rewrite <- Hlen. lia. }
    assert (Hiff : to_be_saved rm2 ↔ to_be_saved rm)
      by (unfold to_be_saved; by rewrite Hst).
    split; intros Hsave.
    + rewrite bool_decide_eq_true_2; [done|]. split; [done|by apply Hiff].
    + rewrite bool_decide_eq_false_2; [done|]. intros [_ ?]. by apply Hsave, Hiff.
  - intros s db Hs. destruct (Hd' s db Hs) as (db' & k & Hs' & Hk & Hb & _ & Hpos).
    exists db', k. repeat split; try done.
    intros (x & Hx). apply Hpos. exists x. split; [|by apply Hbl].
    assert (is_Some (w_dbs w !! x)) as Hx'%lookup_lt_is_Some.
    { unfold saved_blame in Hx.
      destruct (w_readers w !! x); [|done]. destruct (w_dbs w !! x); [eauto|done]. }
    unfold smp_count. simpl. lia.
Qed.

(** What [stop] does when none of its operations throws. *)

Lemma stop_shard_spec fl x w rm db :
  w_readers w !! x = Some rm → w_dbs w !! x = Some db →
  fl in_stop_invoke_on x = false → fl in_stop_unregister x = false →
  ∃ w' rm' db',
    stop_shard fl x w = Done tt w' ∧
    w_readers w' = <[x := rm']> (w_readers w) ∧
    w_dbs w' = <[x := db']> (w_dbs w) ∧
    stopped rm db rm' db'.
Proof.
  intros Hrm Hdb Hinv Hunr.
  assert (Hx : (x < length (w_readers w))%nat) by (by eapply lookup_lt_Some).
  unfold stop_shard, stopped, bind, reader_at, may_throw, set_reader.
  rewrite Hrm.
  destruct (rm_rparts rm) as [rparts|] eqn:Hrp.
  2:{ exists w, rm, db. rewrite !list_insert_id by done. repeat split; done. }
  rewrite Hinv. simpl. destruct (decide (x < length (w_readers w))%nat); [|done].
  destruct (rp_handle rparts) as [handle|] eqn:Hh; simpl.
  2:{ exists (w_with_readers (<[x := rm_with_rparts None rm]> (w_readers w)) w),
        (rm_with_rparts None rm), db. simpl.
      rewrite (list_insert_id (w_dbs w)) by done. done. }
  rewrite Hunr. simpl. unfold on_db. simpl. rewrite Hdb.
  unfold db_unregister_inactive_read. simpl.
  destruct (sem_inactive (db_semaphores db (permit_sem (rp_permit rparts))) !! handle)
    as [reader|] eqn:Hreg; simpl.
  - rewrite list_lookup_insert_eq by (by eapply lookup_lt_Some). simpl.
    rewrite list_insert_insert_eq.
    eexists _, (rm_with_rparts None rm), _. split; [done|]. simpl.
    repeat split; try done.
    unfold db_with_closed, db_with_semaphores. simpl.
    rewrite fn_lookup_insert. simpl. apply lookup_delete_eq.
  - eexists _, (rm_with_rparts None rm), _. split; [done|]. simpl.
    repeat split; try done.
    unfold db_with_semaphores. simpl.
    rewrite fn_lookup_insert. simpl. apply lookup_delete_eq.
Qed.

Lemma stop_loop fl n : ∀ i w,
  length (w_readers w) = length (w_dbs w) →
  (i + n ≤ length (w_dbs w))%nat →
  (∀ x, fl in_stop_invoke_on x = false ∧ fl in_stop_unregister x = false) →
  ∃ w', parallel_for_each (seq i n) (stop_shard fl) w = Done tt w' ∧
    length (w_readers w') = length (w_readers w) ∧
    length (w_dbs w') = length (w_dbs w) ∧
    ∀ x rm db, w_readers w !! x = Some rm → w_dbs w !! x = Some db →
      ∃ rm' db', w_readers w' !! x = Some rm' ∧ w_dbs w' !! x = Some db' ∧
        if decide (i ≤ x < i + n)%nat then stopped rm db rm' db'
        else rm' = rm ∧ db' = db.
Proof.
  induction n as [|n IH]; intros i w Hlen Hin Hfl.
  - exists w. repeat split; try done. intros x rm db Hrm Hdb.
    exists rm, db. repeat split; try done.
    destruct (decide (i ≤ x < i + 0)%nat); [lia|done].
  - simpl seq. simpl parallel_for_each.
    destruct (lookup_lt_is_Some_2 (w_dbs w) i ltac:(lia)) as [dbi Hdbi].
    destruct (lookup_lt_is_Some_2 (w_readers w) i ltac:(lia)) as [rmi Hrmi].
    destruct (stop_shard_spec fl i w rmi dbi Hrmi Hdbi (proj1 (Hfl i)) (proj2 (Hfl i)))
      as (w1 & rmi' & dbi' & Heq1 & Hr1 & Hd1 & Hstopped).
    rewrite Heq1.
    destruct (IH (S i) w1) as (w' & Heq & Hlr & Hld & Hall).
    { by rewrite Hr1, Hd1, !length_insert. }
    { rewrite Hd1, length_insert. lia. }
    { done. }
    exists w'. split; [done|].
    split; [by rewrite Hlr, Hr1, length_insert|].
    split; [by rewrite Hld, Hd1, length_insert|].
    intros x rm db Hrm Hdb. destruct (decide (x = i)) as [->|Hne].
    + simplify_eq. destruct (Hall i rmi' dbi') as (rm' & db' & Hrm' & Hdb' & Hcase).
      { rewrite Hr1. apply list_lookup_insert_eq. by eapply lookup_lt_Some. }
      { rewrite Hd1. apply list_lookup_insert_eq. by eapply lookup_lt_Some. }
      destruct (decide (S i ≤ i < S i + n)%nat); [lia|]. destruct Hcase as [-> ->].
      exists rmi', dbi'. repeat split; try done.
      destruct (decide (i ≤ i < i + S n)%nat); [done|lia].
    + destruct (Hall x rm db) as (rm' & db' & Hrm' & Hdb' & Hcase).
      { by rewrite Hr1, list_lookup_insert_ne. }
      { by rewrite Hd1, list_lookup_insert_ne. }
      exists rm', db'. repeat split; try done.
      destruct (decide (S i ≤ x < S i + n)%nat), (decide (i ≤ x < i + S n)%nat);
        try done; lia.
Qed.

Lemma stop_spec fl w :
  length (w_readers w) = length (w_dbs w) →
  (∀ x, fl in_stop_invoke_on x = false ∧ fl in_stop_unregister x = false) →
  ∃ w', stop fl w = Done tt w' ∧
    ∀ x rm db, w_readers w !! x = Some rm → w_dbs w !! x = Some db →
      ∃ rm' db', w_readers w' !! x = Some rm' ∧ w_dbs w' !! x = Some db' ∧
        stopped rm db rm' db'.
Proof.
  intros Hlen Hfl. unfold stop, bind, get.
  destruct (stop_loop fl (smp_count w) 0 w Hlen ltac:(done) Hfl)
    as (w' & Heq & _ & _ & Hall).
  exists w'. split; [done|]. intros x rm db Hrm Hdb.
  destruct (Hall x rm db Hrm Hdb) as (rm' & db' & ? & ? & Hcase).
  exists rm', db'. split; [done|]. split; [done|].
  destruct (decide (0 ≤ x < 0 + smp_count w)%nat) as [|Hout]; [done|].
  apply lookup_lt_Some in Hdb. unfold smp_count in Hout. lia.
Qed.


(** ** Saving twice *)

Lemma parallel_for_each_noop {S} (f : nat → M S unit) (st : S) l :
  (∀ x, x ∈ l → f x st = Done tt st) →
  parallel_for_each l f st = Done tt st.
Proof.
  induction l as [|x l IH]; intros Hf; simpl; [done|].
  rewrite Hf by (by left). apply IH. intros y Hy. apply Hf. by right.
Qed.

Lemma save_readers_nothing_to_save fl ctx buf cs ck w :
  wf_save ctx w →
  (∀ x rm, w_readers w !! x = Some rm → ¬ to_be_saved rm) →
  ∃ w', save_readers fl ctx buf cs ck w = Done tt w' ∧ w_dbs w' = w_dbs w.
Proof.
  intros Hwf Hnone. pose proof Hwf as (Hlen & Hlocal & Hrange & Hready).
  unfold save_readers. case_bool_decide; [by exists w|].
  set (pk := ps_key (cs_partition_start cs)).
  destruct (dismantle_combined_buffer_onto (ctx_schema ctx) (w_readers w) buf pk Hrange)
    as (st1 & r1 & e1 & Heq1 & Honto1).
  assert (Hrange1 : ∀ t, (shard_of (ctx_schema ctx) t < length r1)%nat).
  { intros t. destruct Honto1 as [-> _]. apply Hrange. }
  destruct (dismantle_compaction_state_onto (ctx_schema ctx) r1 cs Hrange1)
    as (st2 & r2 & e2 & Heq2 & Honto2).
  destruct (dismantled_onto_trans _ _ _ _ _ Honto1 Honto2) as [Hl Honto].
  unfold bind at 1. unfold lift_readers at 1. rewrite Heq1.
  unfold bind at 1. unfold trace at 1, modify at 1.
  unfold bind at 1. unfold lift_readers at 1. simpl w_readers. rewrite Heq2.
  unfold bind at 1. unfold trace at 1, modify at 1.
  unfold bind at 1. unfold get at 1.
  eexists. split; [|shelve].
  apply parallel_for_each_noop. intros x Hx%elem_of_seq.
  unfold smp_count in Hx. simpl in Hx.
  destruct (lookup_lt_is_Some_2 (w_readers w) x) as [rm Hrm]; [lia|].
  destruct (Honto x rm Hrm) as (rm2 & Hrm2 & Hst & _).
  unfold save_readers_shard, bind, reader_at. simpl. rewrite Hrm2.
  rewrite bool_decide_eq_false_2; [done|].
  unfold to_be_saved. rewrite Hst. apply (Hnone x rm Hrm).
  Unshelve. reflexivity.
Qed.

(** C4, as the code has it.  [save_readers] always returns on a well-formed
    context, and a second invocation, with whatever arguments, returns with
    the databases of all shards (querier caches, semaphores, counters, logs)
    exactly as the first invocation left them.  For a stateful query the
    first invocation leaves the default [reader_meta] in the slot of every
    shard it saved, so that afterwards no shard is in state
    [successful_lookup] or [saving] and the second invocation calls
    [save_reader] for no shard.  For a stateless query both invocations
    return at once and change nothing, whatever the states are. *)
Theorem save_readers_twice fl ctx buf cs ck buf' cs' ck' w :
  wf_save ctx w →
  ∃ w1 w2,
    save_readers fl ctx buf cs ck w = Done tt w1 ∧
    save_readers fl ctx buf' cs' ck' w1 = Done tt w2 ∧
    w_dbs w2 = w_dbs w1 ∧
    (cmd_query_uuid (ctx_cmd ctx) ≠ 0 →
     (∀ x rm, w_readers w !! x = Some rm → to_be_saved rm →
        w_readers w1 !! x = Some reader_meta_default) ∧
     (∀ x rm1, w_readers w1 !! x = Some rm1 → ¬ to_be_saved rm1) ∧
     (∀ x rm2, w_readers w2 !! x = Some rm2 → ¬ to_be_saved rm2)) ∧
    (cmd_query_uuid (ctx_cmd ctx) = 0 → w1 = w ∧ w2 = w).
Proof.
  intros Hwf. destruct (decide (cmd_query_uuid (ctx_cmd ctx) = 0)) as [Hz|Hnz].
  - exists w, w. unfold save_readers. rewrite !bool_decide_eq_true_2 by done.
    done.
  - destruct (save_readers_spec fl ctx buf cs ck w Hnz Hwf)
      as (w1 & Hsave & Hwf1 & Hlen1 & Hr1 & _).
    assert (Hnone : ∀ x rm1, w_readers w1 !! x = Some rm1 → ¬ to_be_saved rm1).
    { intros x rm1 Hx Hs.
      destruct (lookup_lt_is_Some_2 (w_readers w) x) as [rm Hrm].
      { destruct Hwf as (-> & _), Hwf1 as (Hl1 & _).
        rewrite <- Hlen1, <- Hl1. by eapply lookup_lt_Some. }
      destruct (Hr1 x rm Hrm) as (rm' & Hx' & Hyes & Hno). simplify_eq.
      destruct (decide (to_be_saved rm)) as [Hy|Hn].
      - rewrite (Hyes Hy) in Hs. by destruct Hs.
      - destruct (Hno Hn) as [Hst _]. apply Hn.
        unfold to_be_saved in *. by rewrite <- Hst. }
    destruct (save_readers_spec fl ctx buf' cs' ck' w1 Hnz Hwf1)
      as (w2 & Hsave2 & Hwf2 & Hlen2 & Hr2 & _).
    destruct (save_readers_nothing_to_save fl ctx buf' cs' ck' w1 Hwf1 Hnone)
      as (w2' & Hsave2' & Hdbs).
    assert (w2' = w2) as -> by congruence.
    exists w1, w2. split; [done|]. split; [done|]. split; [done|].
    split; [|done]. intros _. split; [|split; [done|]].
    + intros x rm Hrm Hs. destruct (Hr1 x rm Hrm) as (rm' & -> & Hyes & _).
      by rewrite (Hyes Hs).
    + intros x rm2 Hx Hs.
      destruct (lookup_lt_is_Some_2 (w_readers w1) x) as [rm1 Hrm1].
      { destruct Hwf1 as (-> & _), Hwf2 as (Hl2 & _).
        rewrite <- Hlen2, <- Hl2. by eapply lookup_lt_Some. }
      destruct (Hr2 x rm1 Hrm1) as (rm' & Hx' & _ & Hno). simplify_eq.
      destruct (Hno (Hnone x rm1 Hrm1)) as [Hst _].
      apply (Hnone x rm1 Hrm1). unfold to_be_saved in *. by rewrite <- Hst.
Qed.

(** ** Stopping, and the outcome of [do_query] *)

(** C8, as the code has it.  Whatever the chain of [do_query] did (its
    failure is a value of [as_future]), [stop] runs next.  When no step of
    [stop] throws, [stop] returns, every shard's remote parts have left the
    reader vector, every handle they held is unregistered and the reader
    behind it closed, and [do_query] ends as the chain did: with its result
    or with its exception.  [stop] catches nothing: when a step of it
    throws, that exception is the outcome of [do_query]. *)
Theorem do_query_stops_on_every_path fl env local s cmd ranges w ctx w0 f w1 :
  make_read_context local s cmd ranges w = Done ctx w0 →
  as_future (do_query_chain fl env ctx) w0 = Done f w1 →
  length (w_readers w1) = length (w_dbs w1) →
  ((∀ x, fl in_stop_invoke_on x = false ∧ fl in_stop_unregister x = false) →
   ∃ w2, stop fl w1 = Done tt w2 ∧
     do_query fl env local s cmd ranges w
     = match f with inl e => Throw e w2 | inr result => Done result w2 end ∧
     ∀ x rm db, w_readers w1 !! x = Some rm → w_dbs w1 !! x = Some db →
       ∃ rm' db', w_readers w2 !! x = Some rm' ∧ w_dbs w2 !! x = Some db' ∧
         stopped rm db rm' db') ∧
  (∀ e w2, stop fl w1 = Throw e w2 →
     do_query fl env local s cmd ranges w = Throw e w2).
Proof.
  intros Hctx Hchain Hlen. split.
  - intros Hfl. destruct (stop_spec fl w1 Hlen Hfl) as (w2 & Hstop & Hall).
    exists w2. split; [done|]. split; [|done].
    unfold do_query. unfold bind at 1. rewrite Hctx.
    unfold bind at 1. rewrite Hchain. unfold bind at 1. rewrite Hstop.
    by destruct f.
  - intros e w2 Hstop. unfold do_query. unfold bind at 1. rewrite Hctx.
    unfold bind at 1. rewrite Hchain. unfold bind at 1. by rewrite Hstop.
Qed.

(** ** The multi-range reader *)

Lemma app_eq_self_nil {A} (l x : list A) : l = l ++ x → x = [].
Proof.
  intros H. apply (f_equal length) in H. rewrite length_app in H.
  destruct x; [done|]. simpl in H. lia.
Qed.

Section multi_range_reader_facts.
Variable ranges : list (list mutation_fragment_v2).
Variable chunk : underlying_reader → nat.

Local Open Scope nat_scope.

Lemma fill_loop_nonempty fuel m f b :
  mrr_buffer m = f :: b → fill_loop ranges chunk (S fuel) m = Filled m.
Proof. intros Hb. simpl. by rewrite Hb. Qed.

(** One run of the loop: it ends, the wrapped reader's buffer is empty
    afterwards, and what it put in the wrapper's buffer was read from one
    range. *)
Lemma fill_loop_spec fuel : ∀ m,
  mrr_inv ranges m → mrr_end_of_stream m = false →
  mrr_need ranges m < fuel →
  ∃ m' added i,
    fill_loop ranges chunk fuel m = Filled m' ∧
    mrr_inv ranges m' ∧
    mrr_buffer m' = mrr_buffer m ++ added ∧
    i < length ranges ∧
    Forall (λ f, fst f = i) added.
Proof.
  induction fuel as [|fuel IH]; intros m (Hub & Hur & Hit) Heos Hneed; [lia|].
  specialize (Hit Heos). unfold mrr_need in Hneed. simpl fill_loop.
  destruct (mrr_buffer m) as [|f b] eqn:Hb; simpl is_empty in *.
  2:{ exists m, [], (u_range (mrr_reader m)). rewrite Hb, app_nil_r.
      repeat split; done. }
  rewrite Hub. simpl is_empty. simpl andb.
  destruct (u_end_of_stream (mrr_reader m)) eqn:Hueos.
  - (* the wrapped reader is exhausted: next range, or the end *)
    destruct (decide (S (mrr_it m) = length ranges)) as [Hend|Hmore].
    { eexists _, [], (u_range (mrr_reader m)). split; [done|]. simpl.
      repeat split; done. }
    destruct (lookup_lt_is_Some_2 ranges (S (mrr_it m)) ltac:(lia))
      as [content Hcontent].
    rewrite Hcontent.
    set (m1 := fill_and_move chunk _).
    assert (Hinv1 : mrr_inv ranges m1).
    { split; [done|]. split; [|intros _]; simpl; lia. }
    destruct content as [|mf content].
    + (* an empty range: the loop goes on with the next one *)
      destruct (IH m1 Hinv1 Heos) as (m' & added & i & Heq & Hinv & Hbuf & Hi & Htag).
      { unfold mrr_need. simpl. lia. }
      exists m', added, i. split; [done|]. split; [done|]. split; [|done].
      by rewrite Hbuf.
    + (* fragments of that one range *)
      destruct (IH m1 Hinv1 Heos) as (m' & added & i & Heq & Hinv & Hbuf & Hi & Htag).
      { unfold mrr_need. simpl. lia. }
      assert (added = []) as ->.
      { destruct fuel; [lia|].
        erewrite fill_loop_nonempty in Heq by reflexivity.
        injection Heq as <-. exact (app_eq_self_nil _ _ Hbuf). }
      rewrite app_nil_r in Hbuf.
      exists m', (mrr_buffer m1), (S (mrr_it m)).
      split; [done|]. split; [done|]. split; [done|]. split; [lia|].
      subst m1. simpl. constructor; [done|].
      apply Forall_fmap. by apply Forall_true.
  - (* the wrapped reader has more of the current range *)
    set (m1 := fill_and_move chunk m).
    assert (Hm1 : mrr_buffer m1
                  = (λ mf, (u_range (mrr_reader m), mf))
                      <$> take (S (chunk (mrr_reader m))) (u_pending (mrr_reader m))).
    { unfold m1, fill_and_move, u_fill_buffer. rewrite Hub, Hb, Hueos. simpl.
      by rewrite ?Hub. }
    assert (Hinv1 : mrr_inv ranges m1).
    { split; [done|]. split; [|intros _; simpl; lia].
      unfold m1, fill_and_move, u_fill_buffer. rewrite Hub, Hueos. simpl. lia. }
    destruct (u_pending (mrr_reader m)) as [|mf pending] eqn:Hpend.
    + destruct (IH m1 Hinv1 Heos) as (m' & added & i & Heq & Hinv & Hbuf & Hi & Htag).
      { unfold mrr_need. rewrite Hm1. simpl.
        unfold u_fill_buffer. rewrite Hub, Hueos, Hpend. simpl. lia. }
      exists m', added, i. split; [done|]. split; [done|]. split; [|done].
      by rewrite Hbuf, Hm1.
    + destruct (IH m1 Hinv1 Heos) as (m' & added & i & Heq & Hinv & Hbuf & Hi & Htag).
      { unfold mrr_need. rewrite Hm1. simpl. lia. }
      assert (added = []) as ->.
      { destruct fuel; [lia|].
        erewrite fill_loop_nonempty in Heq by (rewrite Hm1; reflexivity).
        injection Heq as <-. exact (app_eq_self_nil _ _ Hbuf). }
      rewrite app_nil_r in Hbuf.
      exists m', (mrr_buffer m1), (u_range (mrr_reader m)).
      split; [done|]. split; [done|]. split; [done|]. split; [done|].
      rewrite Hm1. apply Forall_fmap. by apply Forall_true.
Qed.

Lemma is_empty_nil {A} (l : list A) : is_empty l = true → l = [].
Proof. by destruct l. Qed.

Lemma tag_ranges_drop i content :
  ranges !! i = Some content →
  tag_ranges i (drop i ranges)
  = ((λ mf, (i, mf)) <$> content) ++ tag_ranges (S i) (drop (S i) ranges).
Proof. intros H. by rewrite (drop_S _ _ _ H). Qed.

(** One run of the loop neither loses nor reorders a fragment: what the
    wrapper holds and has still to deliver is the same before and after. *)
Lemma fill_loop_stream fuel : ∀ m,
  mrr_reading ranges m → mrr_end_of_stream m = false →
  mrr_need ranges m < fuel →
  ∃ m',
    fill_loop ranges chunk fuel m = Filled m' ∧
    mrr_reading ranges m' ∧
    mrr_buffer m' ++ mrr_future ranges m' = mrr_buffer m ++ mrr_future ranges m ∧
    (mrr_buffer m' = [] → mrr_end_of_stream m' = true).
Proof.
  induction fuel as [|fuel IH]; intros m [Hub Hrest] Heos Hneed; [lia|].
  destruct (Hrest Heos) as (Hit & Hur & Hpend).
  unfold mrr_need in Hneed. simpl fill_loop.
  destruct (mrr_buffer m) as [|f b] eqn:Hb; simpl is_empty in *.
  2:{ exists m. rewrite Hb. by repeat split. }
  rewrite Hub. simpl is_empty. simpl andb.
  destruct (u_end_of_stream (mrr_reader m)) eqn:Hueos.
  - (* the wrapped reader is exhausted: next range, or the end *)
    rewrite (Hpend eq_refl) in *.
    destruct (decide (S (mrr_it m) = length ranges)) as [Hend|Hmore].
    { eexists. split; [done|]. simpl. split; [by split|]. split; [|done].
      unfold mrr_future. simpl. rewrite Heos, (Hpend eq_refl). simpl.
      by rewrite Hend, drop_all. }
    destruct (lookup_lt_is_Some_2 ranges (S (mrr_it m)) ltac:(lia))
      as [content Hcontent].
    rewrite Hcontent.
    set (m1 := fill_and_move chunk _).
    assert (Hm1 : mrr_reading ranges m1).
    { split; [done|]. intros _. simpl. split; [lia|]. split; [done|].
      apply is_empty_nil. }
    assert (Hsame : mrr_buffer m1 ++ mrr_future ranges m1 = mrr_future ranges m).
    { unfold mrr_future. simpl. rewrite ?Heos, ?Hb, ?(Hpend eq_refl). simpl.
      rewrite (tag_ranges_drop (S (mrr_it m)) content Hcontent).
      rewrite app_assoc, <- fmap_app. by rewrite take_drop. }
    destruct (IH m1 Hm1 Heos) as (m' & Heq & Hr' & Hbuf & Hempty).
    { unfold mrr_need. simpl. destruct content; simpl; lia. }
    exists m'. split; [done|]. split; [done|]. split; [|done].
    by rewrite Hbuf, Hsame, ?Hb.
  - (* the wrapped reader has more of the current range *)
    set (m1 := fill_and_move chunk m).
    assert (Hfill : u_fill_buffer chunk (mrr_reader m)
                    = {| u_buffer := (λ mf, (mrr_it m, mf))
                                       <$> take (S (chunk (mrr_reader m)))
                                             (u_pending (mrr_reader m));
                         u_end_of_stream :=
                           is_empty (drop (S (chunk (mrr_reader m)))
                                       (u_pending (mrr_reader m)));
                         u_range := mrr_it m;
                         u_pending := drop (S (chunk (mrr_reader m)))
                                        (u_pending (mrr_reader m)) |}).
    { unfold u_fill_buffer. by rewrite Hueos, Hub, Hur. }
    assert (Hm1 : mrr_reading ranges m1).
    { unfold m1, fill_and_move. rewrite Hub. simpl is_empty. cbv iota. rewrite Hfill.
      split; [done|]. intros _. simpl. split; [done|]. split; [done|].
      apply is_empty_nil. }
    assert (Hsame : mrr_buffer m1 ++ mrr_future ranges m1 = mrr_future ranges m).
    { unfold m1, fill_and_move. rewrite Hub. simpl is_empty. cbv iota. rewrite Hfill.
      unfold mrr_future. simpl. rewrite Heos, Hb. simpl.
      rewrite app_assoc, <- fmap_app. by rewrite take_drop. }
    destruct (IH m1 Hm1 Heos) as (m' & Heq & Hr' & Hbuf & Hempty).
    { unfold mrr_need, m1, fill_and_move. rewrite Hub. simpl is_empty. cbv iota.
      rewrite Hfill. simpl. rewrite Hb. simpl.
      destruct (u_pending (mrr_reader m)) as [|mf pending]; simpl; [lia|lia]. }
    exists m'. split; [done|]. split; [done|]. split; [|done].
    by rewrite Hbuf, Hsame, ?Hb.
Qed.

Lemma mrr_need_bound m : mrr_need ranges m ≤ 2 * length ranges + 1.
Proof.
  unfold mrr_need.
  destruct (is_empty (mrr_buffer m)), (u_end_of_stream (mrr_reader m)); lia.
Qed.

Lemma fill_buffer_spec fuel m :
  mrr_inv ranges m → 2 * length ranges + 2 ≤ fuel →
  ∃ m' added i,
    fill_buffer ranges chunk fuel m = Filled m' ∧
    mrr_inv ranges m' ∧
    mrr_buffer m' = mrr_buffer m ++ added ∧
    i < length ranges ∧
    Forall (λ f, fst f = i) added.
Proof.
  intros Hinv Hfuel. unfold fill_buffer.
  destruct (mrr_end_of_stream m) eqn:Heos.
  - exists m, [], (u_range (mrr_reader m)). rewrite app_nil_r.
    destruct Hinv as (? & ? & ?). repeat split; done.
  - apply fill_loop_spec; [done..|]. pose proof (mrr_need_bound m). lia.
Qed.

Lemma run_calls_spec fuel calls : ∀ m,
  mrr_inv ranges m → 2 * length ranges + 2 ≤ fuel →
  ∃ m', run_calls ranges chunk fuel calls m = Filled m' ∧ mrr_inv ranges m'.
Proof.
  induction calls as [|c calls IH]; intros m Hinv Hfuel; simpl; [eauto|].
  assert (∃ m1, run_call ranges chunk fuel c m = Filled m1 ∧ mrr_inv ranges m1)
    as (m1 & -> & Hinv1); [|by apply IH].
  destruct Hinv as (Hub & Hur & Hit). destruct c; simpl.
  - destruct (fill_buffer_spec fuel m) as (m' & _ & _ & ? & ? & _); [done..|eauto].
  - eexists; split; [done|]. done.
  - eexists; split; [done|]. done.
  - eexists; split; [done|]. unfold mrr_inv. simpl.
    destruct (is_empty _ && _); [|done].
    unfold u_next_partition. by rewrite Hub.
Qed.

(** A fill neither loses nor reorders a fragment, and it returns with
    fragments in the buffer unless the stream is at its end. *)
Lemma fill_buffer_stream fuel m :
  mrr_reading ranges m → 2 * length ranges + 2 ≤ fuel →
  ∃ m',
    fill_buffer ranges chunk fuel m = Filled m' ∧
    mrr_reading ranges m' ∧
    mrr_buffer m' ++ mrr_future ranges m' = mrr_buffer m ++ mrr_future ranges m ∧
    (mrr_buffer m' = [] → mrr_end_of_stream m' = true).
Proof.
  intros Hr Hfuel. unfold fill_buffer. destruct (mrr_end_of_stream m) eqn:Heos.
  - exists m. split; [done|]. split; [done|]. split; [done|]. by rewrite Heos.
  - apply fill_loop_stream; [done..|]. pose proof (mrr_need_bound m). lia.
Qed.

Lemma run_calls_reading fuel calls : ∀ m m',
  mrr_reading ranges m → 2 * length ranges + 2 ≤ fuel →
  run_calls ranges chunk fuel calls m = Filled m' → mrr_reading ranges m'.
Proof.
  induction calls as [|c calls IH]; intros m m' Hr Hfuel; simpl.
  - by intros [= <-].
  - destruct (run_call ranges chunk fuel c m) as [m1| |] eqn:Hc; [|done..].
    apply IH; [|done]. destruct c; simpl in Hc.
    + destruct (fill_buffer_stream fuel m Hr Hfuel) as (m2 & Heq & Hr2 & _).
      congruence.
    + by injection Hc as <-.
    + by injection Hc as <-.
    + injection Hc as <-. destruct Hr as [Hub Hrest]. split; simpl.
      * destruct (is_empty _ && _); [|done]. unfold u_next_partition. by rewrite Hub.
      * intros Heos. destruct (Hrest Heos) as (Hit & Hur & Hp).
        destruct (is_empty _ && negb _); [|done].
        unfold u_next_partition. rewrite Hub. simpl.
        split; [done|]. split; [done|]. intros He. by rewrite (Hp He).
Qed.

(** C7.  Take the wrapper as [read_page] builds it and let a consumer
    call it in any way.  With enough fuel for the loops, every call
    returns, and a [fill_buffer] after them returns too; then (a) what
    this fill added to the wrapper's buffer was read from one range of the
    vector (all of it carries the index [i] of that range), and (b) the
    wrapped reader's buffer is empty and its entire content has been moved
    into the wrapper's buffer: what the wrapped reader had still to fetch
    before the fill is what the fill added to the wrapper's buffer,
    followed by what the wrapped reader has still to fetch after it, so
    that every fragment it fetched during the fill is in the wrapper's
    buffer, in order and nowhere else.  The fill leaves the wrapper's
    buffer empty only at the end of the stream. *)
Theorem fill_buffer_one_range_and_drained m0 calls fuel :
  mrr_initial ranges = Some m0 →
  2 * length ranges + 2 ≤ fuel →
  ∃ m m' added i,
    run_calls ranges chunk fuel calls m0 = Filled m ∧
    fill_buffer ranges chunk fuel m = Filled m' ∧
    mrr_buffer m' = mrr_buffer m ++ added ∧
    i < length ranges ∧
    Forall (λ f, fst f = i) added ∧
    u_buffer (mrr_reader m') = [] ∧
    added ++ mrr_future ranges m' = mrr_future ranges m ∧
    (mrr_buffer m' = [] → mrr_end_of_stream m' = true).
Proof.
  intros Hinit Hfuel.
  assert (mrr_inv ranges m0 ∧ mrr_reading ranges m0) as [Hinv0 Hr0].
  { unfold mrr_initial in Hinit. destruct ranges as [|first rest]; [done|].
    simpl in Hinit. injection Hinit as <-. repeat split; simpl; try done; lia. }
  destruct (run_calls_spec fuel calls m0 Hinv0 Hfuel) as (m & Hrun & Hinv).
  pose proof (run_calls_reading fuel calls m0 m Hr0 Hfuel Hrun) as Hr.
  destruct (fill_buffer_spec fuel m Hinv Hfuel)
    as (m' & added & i & Hfill & [Hub _] & Hbuf & Hi & Htag).
  destruct (fill_buffer_stream fuel m Hr Hfuel) as (m2 & Hfill2 & _ & Hsame & Hend).
  assert (m2 = m') as -> by congruence.
  exists m, m', added, i. repeat split; try done.
  rewrite Hbuf, <- app_assoc in Hsame. by apply app_inv_head in Hsame.
Qed.
End multi_range_reader_facts.

(** ** The examples, run *)

Lemma ex_schema_in_range t : (shard_of ex_schema t < 2)%nat.
Proof. simpl. pose proof (Z.mod_pos_bound t 2). lia. Qed.

Example ex_dismantle_combined_buffer :
  dismantle_combined_buffer ex_schema ex_readers ex_buffer (ps_key (ex_ps 4))
  = Some
      ({| dbs_partitions := 1; dbs_fragments := 5; dbs_bytes := 50;
          dbs_discarded_partitions := 1; dbs_discarded_fragments := 2;
          dbs_discarded_bytes := 20 |},
       [ {| rm_state := saving; rm_rparts := Some (ex_rparts 0);
            rm_dismantled_buffer :=
              Some [ ex_row 1; mf_partition_end;
                     mf_partition_start (ex_ps 2); ex_row 2; mf_partition_end ] |};
         {| rm_state := used; rm_rparts := Some (ex_rparts 1);
            rm_dismantled_buffer := None |} ]).
Proof. reflexivity. Qed.

Example ex_make_read_context :
  make_read_context 0 ex_schema ex_cmd ex_ranges ex_node = Done ex_ctx ex_w0.
Proof. reflexivity. Qed.

Example ex_read_page fl limits :
  fl in_obtain_permit 1%nat = false →
  (do_ lookup_readers fl ex_ctx; read_page (ex_env fl limits) ex_ctx) ex_w0
  = Done (ex_page_result limits) (ex_w1 fl limits).
Proof. intros Hfl. unfold ex_w1. vm_compute. rewrite Hfl. reflexivity. Qed.

Example ex_fill_buffer_walks_the_ranges :
  run_calls ex_range_contents ex_chunk 8
    [call_fill_buffer; call_detach_buffer; call_fill_buffer; call_detach_buffer;
     call_fill_buffer; call_detach_buffer; call_fill_buffer] ex_mrr
  = Filled {| mrr_buffer := [];
              mrr_end_of_stream := true;
              mrr_reader := {| u_buffer := []; u_end_of_stream := true;
                               u_range := 2; u_pending := [] |};
              mrr_it := 3 |}.
Proof. reflexivity. Qed.

Example ex_third_fill_skips_the_empty_range :
  run_calls ex_range_contents ex_chunk 8
    [call_fill_buffer; call_detach_buffer; call_fill_buffer; call_detach_buffer;
     call_fill_buffer] ex_mrr
  = Filled {| mrr_buffer := [(2%nat, mf_partition_start (ex_ps 4))];
              mrr_end_of_stream := false;
              mrr_reader := {| u_buffer := []; u_end_of_stream := true;
                               u_range := 2; u_pending := [] |};
              mrr_it := 2 |}.
Proof. reflexivity. Qed.

(** A page that ends on a limit: the reader of shard 1 is saved, and the next
    page will see the compaction state's pieces, then what the page left
    unconsumed, then what the shard reader had handed back, then the
    reader's own buffer. *)
Example ex_query_saves_the_reader :
  let o := do_query no_faults (ex_env no_faults true) 0 ex_schema ex_cmd ex_ranges
             ex_node in
  result_of o = Some (inr ex_result) ∧
  saved_reader_buffer (state_of ex_node o) 1 7
  = Some [ mf_partition_start (ex_ps 3); mf_static_row {| sr_cells := [1%Z] |};
           ex_row 3; ex_row 4; ex_row 5 ] ∧
  w_readers (state_of ex_node o) = [reader_meta_default; reader_meta_default].
Proof. vm_compute. repeat split; reflexivity. Qed.

(** The same page when unregistering the saved reader throws on shard 1: the
    client gets the page, nothing is saved, shard 1 counts the failure. *)
Example ex_query_with_failed_save :
  let o := do_query ex_save_fault (ex_env ex_save_fault true) 0 ex_schema ex_cmd
             ex_ranges ex_node in
  result_of o = Some (inr ex_result) ∧
  saved_reader_buffer (state_of ex_node o) 1 7 = None ∧
  failed_reader_saves <$> w_dbs (state_of ex_node o) = [0; 1] ∧
  db_log <$> w_dbs (state_of ex_node o)
  = [[]; [debug_failed_to_save (external_failure in_save_unregister 1)]].
Proof. vm_compute. repeat split; reflexivity. Qed.

(** A page that ends the query: nothing is saved, [stop] unregisters the
    reader of shard 1 and closes it. *)
Example ex_query_without_save :
  let o := do_query no_faults (ex_env no_faults false) 0 ex_schema ex_cmd ex_ranges
             ex_node in
  result_of o = Some (inr ex_result) ∧
  saved_reader_buffer (state_of ex_node o) 1 7 = None ∧
  db_closed <$> w_dbs (state_of ex_node o) = [[]; [ex_shard_reader]].
Proof. vm_compute. repeat split; reflexivity. Qed.

(** A page that fails half-way (a timeout, say) after the reader of shard 1
    was created: [do_query] fails with that exception, and [stop] has
    nevertheless unregistered and closed the reader. *)
Example ex_query_with_failed_page :
  let o := do_query no_faults ex_env_timeout 0 ex_schema ex_cmd ex_ranges ex_node in
  result_of o = Some (inl (page_failure 1)) ∧
  db_closed <$> w_dbs (state_of ex_node o) = [[]; [ex_shard_reader]] ∧
  rm_rparts <$> w_readers (state_of ex_node o) = [None; None].
Proof. vm_compute. repeat split; reflexivity. Qed.

(** ** The theorems at the examples *)

Lemma dismantle_combined_buffer_routes_witness :
  (∀ t, (shard_of ex_schema t < length ex_readers)%nat) ∧
  ∃ stats readers',
    dismantle_combined_buffer ex_schema ex_readers ex_buffer (ps_key (ex_ps 4))
    = Some (stats, readers') ∧
    dismantled_onto
      (λ shard, select ex_schema
                  (λ x, bool_decide (x = shard) && is_saving ex_readers x)
                  (bool_decide (shard_of ex_schema (dk_token (ps_key (ex_ps 4))) = shard))
                  ex_buffer)
      ex_readers readers' ∧
    stats = dbs_mk (tally_of ex_schema (select ex_schema (is_saving ex_readers) true ex_buffer))
                   (tally_of ex_schema
                      (select ex_schema (λ x, negb (is_saving ex_readers x)) false ex_buffer)).
Proof.
  split; [exact ex_schema_in_range|].
  apply (dismantle_combined_buffer_routes ex_schema ex_readers ex_buffer (ps_key (ex_ps 4))).
  exact ex_schema_in_range.
Defined.

Lemma dismantle_compaction_state_routes_witness :
  (ex_readers !! 0%nat
   = Some {| rm_state := saving; rm_rparts := Some (ex_rparts 0);
             rm_dismantled_buffer := None |} ∧
   dismantle_compaction_state ex_schema ex_readers (ex_compaction_state 2)
   = Some ({| dbs_partitions := 1; dbs_fragments := 2; dbs_bytes := 14;
              dbs_discarded_partitions := 0; dbs_discarded_fragments := 0;
              dbs_discarded_bytes := 0 |},
           [ {| rm_state := saving; rm_rparts := Some (ex_rparts 0);
                rm_dismantled_buffer :=
                  Some [ mf_partition_start (ex_ps 2);
                         mf_static_row {| sr_cells := [1%Z] |} ] |};
             {| rm_state := used; rm_rparts := Some (ex_rparts 1);
                rm_dismantled_buffer := None |} ])) ∧
  (ex_readers !! 1%nat
   = Some {| rm_state := used; rm_rparts := Some (ex_rparts 1);
             rm_dismantled_buffer := None |} ∧
   dismantle_compaction_state ex_schema ex_readers (ex_compaction_state 3)
   = Some ({| dbs_partitions := 0; dbs_fragments := 0; dbs_bytes := 0;
              dbs_discarded_partitions := 1; dbs_discarded_fragments := 2;
              dbs_discarded_bytes := 14 |},
           ex_readers)).
Proof.
  split; (split; [reflexivity|]).
  - exact (proj1 (dismantle_compaction_state_routes ex_schema ex_readers
                    (ex_compaction_state 2) _ eq_refl) eq_refl).
  - refine (proj2 (dismantle_compaction_state_routes ex_schema ex_readers
                     (ex_compaction_state 3) _ eq_refl) _).
    simpl. discriminate.
Defined.

Lemma destroy_reader_transition_witness :
  (w_readers ex_world !! 1%nat
   = Some {| rm_state := used; rm_rparts := Some (ex_rparts 1);
             rm_dismantled_buffer := None |} ∧
   destroy_reader 1 ex_stopped_reader ex_world
   = Done tt
       {| w_readers :=
            [ {| rm_state := saving; rm_rparts := Some (ex_rparts 0);
                 rm_dismantled_buffer := None |};
              {| rm_state := saving;
                 rm_rparts :=
                   Some {| rp_permit := {| permit_id := 1; permit_sem := 0 |};
                           rp_range := Some (0, 100)%Z; rp_slice := Some ex_slice;
                           rp_read_operation := true; rp_handle := Some 3%nat;
                           rp_buffer := Some [ex_row 4] |};
                 rm_dismantled_buffer := None |} ];
          w_dbs := [ex_db; ex_db]; w_trace := [] |}) ∧
  (w_readers ex_world !! 0%nat
   = Some {| rm_state := saving; rm_rparts := Some (ex_rparts 0);
             rm_dismantled_buffer := None |} ∧
   w_dbs ex_world !! 0%nat = Some ex_db ∧
   ∃ w', destroy_reader 0 ex_stopped_reader ex_world = Done tt w' ∧
         w_readers w' = w_readers ex_world ∧
         w_dbs w'
         = [db_with_log [warn_unexpected_dismantle saving] ex_db; ex_db]).
Proof.
  split.
  - split; [reflexivity|].
    exact (proj1 (destroy_reader_transition 1 ex_stopped_reader ex_world _ eq_refl)
             eq_refl (ex_rparts 1) eq_refl).
  - split; [reflexivity|]. split; [reflexivity|].
    refine (proj2 (destroy_reader_transition 0 ex_stopped_reader ex_world _ eq_refl)
              _ ex_db eq_refl).
    simpl. discriminate.
Defined.

Lemma create_reader_permit_identity_witness :
  (w_readers ex_lookup_world !! 0%nat
   = Some {| rm_state := successful_lookup; rm_rparts := Some (ex_rparts 0);
             rm_dismantled_buffer := None |} ∧
   w_dbs ex_lookup_world !! 0%nat = Some ex_lookup_db ∧
   no_faults in_create_unregister 0%nat = false ∧
   sem_inactive (db_semaphores ex_lookup_db (db_semaphore_id ex_lookup_db)) !! 0%nat
   = Some ex_reader) ∧
  (∃ w', obtain_reader_permit no_faults ex_ctx 0 ex_lookup_world
         = Done {| permit_id := 1; permit_sem := 0 |} w' ∧
         w_readers w' = w_readers ex_lookup_world) ∧
  (∃ w', create_reader no_faults 0 {| permit_id := 1; permit_sem := 0 |}
           (0, 100)%Z ex_slice ex_lookup_world
         = Done ex_reader w' ∧
         w_readers w'
         = [ {| rm_state := used; rm_rparts := Some (ex_rparts 0);
                rm_dismantled_buffer := None |};
             reader_meta_default ]) ∧
  (∃ w', create_reader no_faults 0 {| permit_id := 2; permit_sem := 0 |}
           (0, 100)%Z ex_slice ex_lookup_world
         = Throw internal_error w').
Proof.
  split; [repeat split; reflexivity|].
  pose proof (λ permit,
    create_reader_permit_identity no_faults ex_ctx 0 permit (0, 100)%Z ex_slice
      ex_lookup_world _ (ex_rparts 0) 0%nat ex_lookup_db ex_reader
      eq_refl eq_refl eq_refl eq_refl eq_refl eq_refl eq_refl) as H.
  split; [exact (proj1 (H {| permit_id := 1; permit_sem := 0 |}))|]. split.
  - exact (proj1 (proj2 (H {| permit_id := 1; permit_sem := 0 |})) eq_refl).
  - refine (proj2 (proj2 (H {| permit_id := 2; permit_sem := 0 |})) _).
    simpl. discriminate.
Defined.

Lemma zero_limit_returns_empty_witness :
  (cmd_row_limit ex_cmd_zero_limit = 0
   ∨ slice_partition_row_limit (cmd_slice ex_cmd_zero_limit) = 0
   ∨ cmd_partition_limit ex_cmd_zero_limit = 0) ∧
  w_dbs ex_node !! 0%nat = Some ex_db ∧
  query_mutations_on_all_shards no_faults (ex_env no_faults true) 0 ex_schema
    ex_cmd_zero_limit ex_ranges ex_node
  = Done (query_result_default, 42%nat) ex_node ∧
  query_data_on_all_shards no_faults (ex_env no_faults true) 0 ex_schema
    ex_cmd_zero_limit ex_ranges ex_node
  = Done (query_result_default, 42%nat) ex_node.
Proof.
  split; [left; reflexivity|]. split; [reflexivity|].
  apply (zero_limit_returns_empty no_faults (ex_env no_faults true) 0 ex_schema
           ex_cmd_zero_limit ex_ranges ex_node ex_db).
  - left. reflexivity.
  - reflexivity.
Defined.

Lemma max_result_size_is_dereferenced_witness :
  (cmd_row_limit ex_cmd_no_max_size ≠ 0 ∧
   slice_partition_row_limit (cmd_slice ex_cmd_no_max_size) ≠ 0 ∧
   cmd_partition_limit ex_cmd_no_max_size ≠ 0 ∧
   cmd_max_result_size ex_cmd_no_max_size = None) ∧
  do_query_on_all_shards no_faults (ex_env no_faults true) 0 ex_schema
    ex_cmd_no_max_size ex_ranges ex_node = Undefined ∧
  query_mutations_on_all_shards no_faults (ex_env no_faults true) 0 ex_schema
    ex_cmd_no_max_size ex_ranges ex_node = Undefined ∧
  query_data_on_all_shards no_faults (ex_env no_faults true) 0 ex_schema
    ex_cmd_no_max_size ex_ranges ex_node = Undefined ∧
  ∀ ctx db, ctx_cmd ctx = ex_cmd_no_max_size →
    get_max_result_size ctx db = db_unlimited_query_max_result_size db.
Proof.
  assert (H10 : (10 : N) ≠ 0) by discriminate.
  assert (H100 : (100 : N) ≠ 0) by discriminate.
  split; [repeat split; assumption || reflexivity|].
  apply (max_result_size_is_dereferenced no_faults (ex_env no_faults true) 0
           ex_schema ex_cmd_no_max_size ex_ranges ex_node);
    assumption || reflexivity.
Defined.

Lemma fill_buffer_one_range_and_drained_witness :
  mrr_initial ex_range_contents = Some ex_mrr ∧
  (2 * length ex_range_contents + 2 ≤ 8)%nat ∧
  ∃ m m' added i,
    run_calls ex_range_contents ex_chunk 8
      [call_fill_buffer; call_pop_mutation_fragment; call_next_partition] ex_mrr
    = Filled m ∧
    fill_buffer ex_range_contents ex_chunk 8 m = Filled m' ∧
    mrr_buffer m' = mrr_buffer m ++ added ∧
    (i < length ex_range_contents)%nat ∧
    Forall (λ f, fst f = i) added ∧
    u_buffer (mrr_reader m') = [] ∧
    added ++ mrr_future ex_range_contents m' = mrr_future ex_range_contents m ∧
    (mrr_buffer m' = [] → mrr_end_of_stream m' = true).
Proof.
  assert (Hfuel : (2 * length ex_range_contents + 2 ≤ 8)%nat) by (simpl; lia).
  split; [reflexivity|]. split; [exact Hfuel|].
  exact (fill_buffer_one_range_and_drained ex_range_contents ex_chunk ex_mrr
           [call_fill_buffer; call_pop_mutation_fragment; call_next_partition] 8
           eq_refl Hfuel).
Defined.

Lemma ex_w1_wf : wf_save ex_ctx (ex_w1 ex_save_fault true).
Proof.
  split; [reflexivity|]. split; [vm_compute; lia|]. split.
  - exact ex_schema_in_range.
  - intros [|[|x]] rm Hx Hsave; vm_compute in Hx; simplify_eq.
    + by destruct Hsave.
    + do 2 eexists. split; reflexivity.
Qed.

Lemma save_readers_twice_witness :
  wf_save ex_ctx (ex_w1 ex_save_fault true) ∧
  ∃ w1 w2,
    save_readers ex_save_fault ex_ctx [ex_row 3] (ex_compaction_state 3) (Some 5%nat)
      (ex_w1 ex_save_fault true) = Done tt w1 ∧
    save_readers ex_save_fault ex_ctx [ex_row 3] (ex_compaction_state 3) (Some 5%nat)
      w1 = Done tt w2 ∧
    w_dbs w2 = w_dbs w1 ∧
    (cmd_query_uuid (ctx_cmd ex_ctx) ≠ 0 →
     (∀ x rm, w_readers (ex_w1 ex_save_fault true) !! x = Some rm → to_be_saved rm →
        w_readers w1 !! x = Some reader_meta_default) ∧
     (∀ x rm1, w_readers w1 !! x = Some rm1 → ¬ to_be_saved rm1) ∧
     (∀ x rm2, w_readers w2 !! x = Some rm2 → ¬ to_be_saved rm2)) ∧
    (cmd_query_uuid (ctx_cmd ex_ctx) = 0 →
     w1 = ex_w1 ex_save_fault true ∧ w2 = ex_w1 ex_save_fault true).
Proof.
  split; [exact ex_w1_wf|].
  exact (save_readers_twice ex_save_fault ex_ctx [ex_row 3] (ex_compaction_state 3)
           (Some 5%nat) [ex_row 3] (ex_compaction_state 3) (Some 5%nat)
           (ex_w1 ex_save_fault true) ex_w1_wf).
Defined.

(** At this input the claim C4 fails: the query is stateless, so
    [save_readers] returns at once, and shard 0, which was in state [saving]
    before the first invocation, is still in state [saving] at the second
    one. *)
Lemma stateless_save_leaves_the_states :
  cmd_query_uuid (ctx_cmd ex_ctx_stateless) = 0 ∧
  save_readers no_faults ex_ctx_stateless [ex_row 3] (ex_compaction_state 2)
    (Some 5%nat) ex_world = Done tt ex_world ∧
  rm_state <$> w_readers ex_world !! 0%nat = Some saving.
Proof. repeat split; reflexivity. Qed.


Lemma do_query_stops_on_every_path_witness :
  (make_read_context 0 ex_schema ex_cmd ex_ranges ex_node = Done ex_ctx ex_w0 ∧
   as_future (do_query_chain no_faults (ex_env no_faults false) ex_ctx) ex_w0
   = Done (inr ex_result) (ex_w_chain no_faults false) ∧
   length (w_readers (ex_w_chain no_faults false))
   = length (w_dbs (ex_w_chain no_faults false)) ∧
   (∀ x, no_faults in_stop_invoke_on x = false ∧ no_faults in_stop_unregister x = false) ∧
   ∃ w2, stop no_faults (ex_w_chain no_faults false) = Done tt w2 ∧
     do_query no_faults (ex_env no_faults false) 0 ex_schema ex_cmd ex_ranges ex_node
     = Done ex_result w2 ∧
     ∀ x rm db, w_readers (ex_w_chain no_faults false) !! x = Some rm →
       w_dbs (ex_w_chain no_faults false) !! x = Some db →
       ∃ rm' db', w_readers w2 !! x = Some rm' ∧ w_dbs w2 !! x = Some db' ∧
         stopped rm db rm' db') ∧
  (as_future (do_query_chain ex_stop_fault (ex_env ex_stop_fault false) ex_ctx) ex_w0
   = Done (inr ex_result) (ex_w_chain ex_stop_fault false) ∧
   stop ex_stop_fault (ex_w_chain ex_stop_fault false)
   = Throw (external_failure in_stop_invoke_on 1)
       (state_of ex_node (stop ex_stop_fault (ex_w_chain ex_stop_fault false))) ∧
   do_query ex_stop_fault (ex_env ex_stop_fault false) 0 ex_schema ex_cmd ex_ranges ex_node
   = Throw (external_failure in_stop_invoke_on 1)
       (state_of ex_node (stop ex_stop_fault (ex_w_chain ex_stop_fault false)))).
Proof.
  assert (Hchain : ∀ fl, fl in_obtain_permit 1%nat = false →
            as_future (do_query_chain fl (ex_env fl false) ex_ctx) ex_w0
            = Done (inr ex_result) (ex_w_chain fl false)).
  { intros fl Hfl. unfold ex_w_chain. vm_compute. rewrite Hfl. reflexivity. }
  assert (Hnone : ∀ x, no_faults in_stop_invoke_on x = false
                       ∧ no_faults in_stop_unregister x = false) by (by split).
  assert (Hstop : stop ex_stop_fault (ex_w_chain ex_stop_fault false)
     = Throw (external_failure in_stop_invoke_on 1)
         (state_of ex_node (stop ex_stop_fault (ex_w_chain ex_stop_fault false))))
    by (vm_compute; reflexivity).
  split.
  - split; [reflexivity|]. split; [exact (Hchain no_faults eq_refl)|].
    split; [reflexivity|]. split; [exact Hnone|].
    exact (proj1 (do_query_stops_on_every_path no_faults (ex_env no_faults false) 0
                    ex_schema ex_cmd ex_ranges ex_node ex_ctx ex_w0 (inr ex_result)
                    (ex_w_chain no_faults false) eq_refl (Hchain no_faults eq_refl)
                    eq_refl) Hnone).
  - split; [exact (Hchain ex_stop_fault eq_refl)|]. split; [exact Hstop|].
    exact (proj2 (do_query_stops_on_every_path ex_stop_fault (ex_env ex_stop_fault false)
                    0 ex_schema ex_cmd ex_ranges ex_node ex_ctx ex_w0 (inr ex_result)
                    (ex_w_chain ex_stop_fault false) eq_refl
                    (Hchain ex_stop_fault eq_refl) eq_refl) _ _ Hstop).
Defined.

(** At this input the claim C8 fails: the page was read and the chain of
    [do_query] completed with its result, no reader had to be saved, but
    the cross-shard call of [stop] to shard 1 fails and its failure is what
    [do_query] returns; nothing in [stop] or around it catches it. *)
Lemma stop_failure_replaces_the_result :
  do_query_chain ex_stop_fault (ex_env ex_stop_fault false) ex_ctx ex_w0
  = Done ex_result (ex_w_chain ex_stop_fault false) ∧
  ∃ w2,
    do_query ex_stop_fault (ex_env ex_stop_fault false) 0 ex_schema ex_cmd
      ex_ranges ex_node
    = Throw (external_failure in_stop_invoke_on 1) w2.
Proof.
  split; [vm_compute; reflexivity|].
  eexists. vm_compute. reflexivity.
Qed.

(** * Further properties of the code *)

(** ** The dismantlers: definedness and conservation *)

Lemma select_complement s p buf : ∀ lead,
  tadd (tally_of s (select s p lead buf))
       (tally_of s (select s (λ x, negb (p x)) (negb lead) buf))
  = tally_of s buf.
Proof.
  induction buf as [|mf buf IH]; intros lead; [done|].
  set (keep := match mf with
               | mf_partition_start ps => p (shard_of s (dk_token (ps_key ps)))
               | _ => lead
               end).
  assert (H1 : select s p lead (mf :: buf)
               = (if keep then [mf] else []) ++ select s p keep buf) by reflexivity.
  assert (H2 : select s (λ x, negb (p x)) (negb lead) (mf :: buf)
               = (if negb keep then [mf] else [])
                 ++ select s (λ x, negb (p x)) (negb keep) buf).
  { simpl. by destruct mf. }
  rewrite H1, H2. change (mf :: buf) with ([mf] ++ buf).
  rewrite !tally_of_app, <- (IH keep).
  destruct keep; cbn [negb]; tally_solve.
Qed.

(** A walk that returns has met no shard outside the vector, keeps the
    vector's length, and has counted every fragment it has seen, except
    those still in the scratch list, exactly once. *)
Lemma dismantle_walk_Some s rits : ∀ tmp k d readers tmp' st' readers',
  dismantle_walk s rits tmp (dbs_mk k d) readers = Some (tmp', st', readers') →
  Forall (shard_in_range s (length readers)) rits ∧
  length readers' = length readers ∧
  ∃ k' d', st' = dbs_mk k' d' ∧
    tadd (tadd k' d') (tally_of s tmp')
    = tadd (tadd k d) (tadd (tally_of s tmp) (tally_of s rits)).
Proof.
  induction rits as [|mf rest IH]; intros tmp k d readers tmp' st' readers' Hwalk.
  - simpl in Hwalk. simplify_eq. split; [done|]. split; [done|].
    exists k, d. split; [done|]. tally_solve.
  - assert (Hother : is_partition_start mf = false →
      dismantle_walk s rest (tmp ++ [mf]) (dbs_mk k d) readers = Some (tmp', st', readers') →
      Forall (shard_in_range s (length readers)) (mf :: rest) ∧
      length readers' = length readers ∧
      ∃ k' d', st' = dbs_mk k' d' ∧
        tadd (tadd k' d') (tally_of s tmp')
        = tadd (tadd k d) (tadd (tally_of s tmp) (tally_of s (mf :: rest)))).
    { intros Hmf Hw. destruct (IH _ _ _ _ _ _ _ Hw) as (Hin & Hlen & k' & d' & -> & Heq).
      split; [constructor; [by destruct mf|done]|]. split; [done|].
      exists k', d'. split; [done|]. rewrite Heq.
      change (mf :: rest) with ([mf] ++ rest). tally_solve. }
    destruct mf as [ps| | | |]; try (by apply Hother).
    clear Hother. simpl in Hwalk.
    destruct (readers !! shard_of s (dk_token (ps_key ps))) as [rm|] eqn:Hrm; [|done].
    assert (Hlt := lookup_lt_Some _ _ _ Hrm).
    destruct (decide (rm_state rm ≠ saving)).
    + rewrite foldl_add_discarded_mk, dbs_add_discarded_mk in Hwalk.
      destruct (IH _ _ _ _ _ _ _ Hwalk) as (Hin & Hlen & k' & d' & -> & Heq).
      split; [by constructor|]. split; [done|].
      exists k', d'. split; [done|]. rewrite Heq.
      change (mf_partition_start ps :: rest) with ([mf_partition_start ps] ++ rest).
      tally_solve.
    + rewrite move_to_front_mk, dbs_add_mk in Hwalk.
      destruct (IH _ _ _ _ _ _ _ Hwalk) as (Hin & Hlen & k' & d' & -> & Heq).
      rewrite length_insert in Hin, Hlen.
      split; [by constructor|]. split; [done|].
      exists k', d'. split; [done|]. rewrite Heq.
      change (mf_partition_start ps :: rest) with ([mf_partition_start ps] ++ rest).
      tally_solve.
Qed.

(** A walk over fragments whose shards are all in the vector returns. *)
Lemma dismantle_walk_in_range s rits : ∀ tmp st readers,
  Forall (shard_in_range s (length readers)) rits →
  ∃ tmp' st' readers',
    dismantle_walk s rits tmp st readers = Some (tmp', st', readers') ∧
    length readers' = length readers.
Proof.
  induction rits as [|mf rest IH]; intros tmp st readers Hin; [simpl; eauto|].
  apply Forall_cons_1 in Hin as [Hmf Hin].
  destruct mf as [ps| | | |]; try (simpl; by apply IH).
  simpl in Hmf. simpl dismantle_walk.
  destruct (lookup_lt_is_Some_2 readers _ Hmf) as [rm ->].
  destruct (decide (rm_state rm ≠ saving)); [by apply IH|].
  destruct (move_to_front s tmp st (get_dismantled_buffer rm)) as [st1 b].
  destruct (IH [] (dbs_add s st1 (mf_partition_start ps))
              (<[shard_of s (dk_token (ps_key ps))
                 := set_dismantled_buffer (mf_partition_start ps :: b) rm]> readers))
    as (tmp' & st' & readers' & Heq & Hlen).
  { by rewrite length_insert. }
  rewrite length_insert in Hlen. eauto.
Qed.

(** X1.  [dismantle_combined_buffer] is defined exactly when every shard it
    computes, for a [partition_start] of the buffer or for [pkey], is an
    index of the reader vector; otherwise [_readers[shard]] reads past the
    vector. *)
Theorem dismantle_combined_buffer_defined s readers buf pkey :
  is_Some (dismantle_combined_buffer s readers buf pkey)
  ↔ shards_in_range s (length readers) buf pkey.
Proof.
  unfold dismantle_combined_buffer, shards_in_range. rewrite dbs_zero_mk. split.
  - intros [[stats readers'] Heq].
    destruct (dismantle_walk s (reverse buf) [] (dbs_mk (0, 0, 0) (0, 0, 0)) readers)
      as [[[tmp' st'] readers1]|] eqn:Hwalk; [|done].
    apply dismantle_walk_Some in Hwalk as (Hin & Hlen & _).
    simpl in Heq.
    destruct (readers1 !! shard_of s (dk_token pkey)) as [rm|] eqn:Hrm; [|done].
    apply lookup_lt_Some in Hrm. rewrite Hlen in Hrm. split; [done|].
    apply Forall_reverse in Hin. by rewrite reverse_involutive in Hin.
  - intros [Hpkey Hin].
    destruct (dismantle_walk_in_range s (reverse buf) [] (dbs_mk (0, 0, 0) (0, 0, 0))
                readers) as (tmp' & st' & readers1 & -> & Hlen).
    { by apply Forall_reverse. }
    simpl. rewrite <- Hlen in Hpkey.
    destruct (lookup_lt_is_Some_2 readers1 _ Hpkey) as [rm ->].
    destruct (move_to_front s tmp' st' (get_dismantled_buffer rm)). eauto.
Qed.

(** X2.  Whenever [dismantle_combined_buffer] returns, its statistics account
    for every fragment of the buffer exactly once, as kept or as
    discarded: the two partition counters add up to the number of
    [partition_start]s of the buffer, the two fragment counters to its
    length, the two byte counters to its memory usage (all modulo
    [2^64]). *)
Theorem dismantle_combined_buffer_counts_every_fragment s readers buf pkey stats readers' :
  dismantle_combined_buffer s readers buf pkey = Some (stats, readers') →
  wadd (dbs_partitions stats) (dbs_discarded_partitions stats)
  = count_partitions buf mod size_t_modulus ∧
  wadd (dbs_fragments stats) (dbs_discarded_fragments stats)
  = count_fragments buf mod size_t_modulus ∧
  wadd (dbs_bytes stats) (dbs_discarded_bytes stats)
  = count_bytes s buf mod size_t_modulus.
Proof.
  unfold dismantle_combined_buffer. rewrite dbs_zero_mk. intros Heq.
  destruct (dismantle_walk s (reverse buf) [] (dbs_mk (0, 0, 0) (0, 0, 0)) readers)
    as [[[tmp' st'] readers1]|] eqn:Hwalk; [|done].
  apply dismantle_walk_Some in Hwalk as (_ & _ & k' & d' & -> & Hsum).
  simpl in Heq.
  destruct (readers1 !! shard_of s (dk_token pkey)) as [rm|]; [|done].
  rewrite move_to_front_mk in Heq. simplify_eq.
  rewrite tally_of_reverse, tally_of_nil, !tadd_0_l in Hsum.
  unfold tally_of in *.
  destruct k' as [[p f] y], d' as [[dp df] dy].
  unfold tadd in Hsum. simpl. unfold wadd.
  rewrite <- !N.Div0.add_mod. simplify_eq. repeat split; f_equal; lia.
Qed.

(** ** What [save_reader] stores *)

Lemma wsub_after a b bytes :
  a mod size_t_modulus = (b + bytes) mod size_t_modulus →
  wsub a b = bytes mod size_t_modulus.
Proof.
  intros Ha. unfold wsub.
  assert (HM : size_t_modulus ≠ 0) by done.
  pose proof (N.mod_upper_bound b size_t_modulus HM) as Hr.
  pose proof (N.div_mod b size_t_modulus HM) as Hb.
  replace (a + size_t_modulus - b mod size_t_modulus)
    with (a + (size_t_modulus - b mod size_t_modulus)) by lia.
  rewrite <- N.Div0.add_mod_idemp_l, Ha, N.Div0.add_mod_idemp_l.
  replace (b + bytes + (size_t_modulus - b mod size_t_modulus))
    with (bytes + (1 + b / size_t_modulus) * size_t_modulus) by lia.
  apply N.Div0.mod_add.
Qed.

(** Pushing a buffer back from its tail puts it, in its order, in front of
    what the reader had buffered. *)
Lemma unpop_all s b : ∀ rd,
  let rd' := foldl (unpop_mutation_fragment s) rd (reverse b) in
  rd_permit rd' = rd_permit rd ∧
  rd_buffer rd' = b ++ rd_buffer rd ∧
  rd_buffer_size rd' mod size_t_modulus
  = (rd_buffer_size rd + count_bytes s b) mod size_t_modulus.
Proof.
  induction b as [|mf b IH]; intros rd; simpl; [by rewrite N.add_0_r|].
  rewrite reverse_cons, foldl_app. simpl.
  destruct (IH rd) as (Hp & Hb & Hs). split; [done|]. split; [by rewrite Hb|].
  unfold wadd. rewrite N.Div0.mod_mod, <- N.Div0.add_mod_idemp_l, Hs.
  rewrite N.Div0.add_mod_idemp_l. f_equal. lia.
Qed.

Lemma unpop_buffer_spec s ob n rd :
  let r := unpop_buffer s ob (n, rd) in
  fst r mod size_t_modulus = (n + N.of_nat (length (default [] ob))) mod size_t_modulus ∧
  rd_permit (snd r) = rd_permit rd ∧
  rd_buffer (snd r) = default [] ob ++ rd_buffer rd ∧
  rd_buffer_size (snd r) mod size_t_modulus
  = (rd_buffer_size rd + count_bytes s (default [] ob)) mod size_t_modulus.
Proof.
  destruct ob as [b|]; simpl.
  - split; [unfold wadd; by rewrite N.Div0.mod_mod|]. apply unpop_all.
  - by rewrite !N.add_0_r.
Qed.

(** The [try] block of [save_reader] when the reader is still registered and
    nothing throws: pushing back cannot throw where there is nothing to
    push back. *)
Lemma save_step_done fl ctx x pk ck rm rparts handle reader db :
  rm_rparts rm = Some rparts → rp_handle rparts = Some handle →
  sem_inactive (db_semaphores db (permit_sem (rp_permit rparts))) !! handle = Some reader →
  fl in_save_unregister x = false →
  fl in_save_unpop x && negb (is_empty (pushed_back rm)) = false →
  fl in_save_insert x = false →
  let pushed := get_dismantled_buffer rm ++ default [] (rp_buffer rparts) in
  ∃ db' q,
    save_step fl ctx x pk ck rm db = Done tt db' ∧
    db_querier_cache db' !! cmd_query_uuid (ctx_cmd ctx) = Some q ∧
    rd_buffer (q_reader q) = pushed ++ rd_buffer reader ∧
    rd_permit (q_reader q) = rd_permit reader ∧
    q_ranges q = ctx_ranges ctx ∧ q_reader_range q = rp_range rparts ∧
    q_reader_slice q = rp_slice rparts ∧ q_permit q = rp_permit rparts ∧
    q_last_pkey q = pk ∧ q_last_ckey q = ck ∧
    sem_inactive (db_semaphores db' (permit_sem (rp_permit rparts))) !! handle = None ∧
    unpopped_fragments db'
    = (unpopped_fragments db + N.of_nat (length pushed)) mod size_t_modulus ∧
    unpopped_bytes db'
    = (unpopped_bytes db + count_bytes (ctx_schema ctx) pushed) mod size_t_modulus ∧
    failed_reader_saves db' = failed_reader_saves db.
Proof.
  intros Hrp Hh Hreg Hf1 Hf2 Hf3 pushed.
  assert (fl in_save_unpop x && negb (is_empty (default [] (rp_buffer rparts))) = false
          ∧ fl in_save_unpop x && negb (is_empty (default [] (rm_dismantled_buffer rm)))
            = false) as [Hu1 Hu2].
  { unfold pushed_back in Hf2. rewrite Hrp, is_empty_app in Hf2. simpl in Hf2.
    destruct (fl in_save_unpop x); [|done].
    by destruct (is_empty (default [] (rp_buffer rparts))),
         (is_empty (default [] (rm_dismantled_buffer rm))). }
  unfold save_step, bind, deref, ret, may_throw. rewrite Hrp. simpl. rewrite Hh. simpl.
  rewrite Hf1. simpl. unfold db_unregister_inactive_read. simpl. rewrite Hreg. simpl.
  rewrite unpop_saved_buffer_outcome, Hu1.
  rewrite unpop_saved_buffer_outcome, Hu2.
  pose proof (unpop_buffer_spec (ctx_schema ctx) (rp_buffer rparts) 0 reader) as H1.
  destruct (unpop_buffer (ctx_schema ctx) (rp_buffer rparts) (0, reader)) as [n1 rd1].
  pose proof (unpop_buffer_spec (ctx_schema ctx) (rm_dismantled_buffer rm) n1 rd1) as H2.
  destruct (unpop_buffer (ctx_schema ctx) (rm_dismantled_buffer rm) (n1, rd1)) as [n2 rd2].
  simpl in H1, H2. destruct H1 as (Hn1 & Hp1 & Hb1 & Hs1), H2 as (Hn2 & Hp2 & Hb2 & Hs2).
  fold (get_dismantled_buffer rm) in Hn2, Hb2, Hs2.
  rewrite Hf3. simpl.
  assert (Hn : n2 mod size_t_modulus = N.of_nat (length pushed) mod size_t_modulus).
  { rewrite Hn2, <- N.Div0.add_mod_idemp_l, Hn1, N.Div0.add_mod_idemp_l.
    unfold pushed. rewrite length_app. f_equal. lia. }
  assert (Hs : rd_buffer_size rd2 mod size_t_modulus
               = (rd_buffer_size reader + count_bytes (ctx_schema ctx) pushed)
                 mod size_t_modulus).
  { rewrite Hs2, <- N.Div0.add_mod_idemp_l, Hs1, N.Div0.add_mod_idemp_l.
    unfold pushed. rewrite count_bytes_app. f_equal. lia. }
  apply wsub_after in Hs.
  set (q := {| q_ranges := ctx_ranges ctx; q_reader_range := rp_range rparts;
               q_reader_slice := rp_slice rparts; q_reader := rd2;
               q_permit := rp_permit rparts; q_last_pkey := pk; q_last_ckey := ck |}).
  assert (Hbuf : rd_buffer rd2 = pushed ++ rd_buffer reader).
  { rewrite Hb2, Hb1. unfold pushed. by rewrite app_assoc. }
  unfold db_querier_cache_insert. simpl.
  destruct (db_querier_cache db !! cmd_query_uuid (ctx_cmd ctx)); simpl;
    (eexists _, q; split; [reflexivity|]; simpl;
     rewrite lookup_insert_eq, fn_lookup_insert; simpl;
     repeat split; try done; try congruence;
     [apply lookup_delete_eq
     |unfold unpopped_fragments, wadd; simpl;
      by rewrite <- N.Div0.add_mod_idemp_r, Hn, N.Div0.add_mod_idemp_r
     |unfold unpopped_bytes, wadd; simpl; rewrite Hs;
      by rewrite N.Div0.add_mod_idemp_r]).
Qed.

Lemma save_step_spec fl ctx x pk ck rm rparts handle reader db :
  rm_rparts rm = Some rparts → rp_handle rparts = Some handle →
  sem_inactive (db_semaphores db (permit_sem (rp_permit rparts))) !! handle = Some reader →
  fl in_save_unregister x = false → fl in_save_unpop x = false →
  fl in_save_insert x = false →
  let pushed := get_dismantled_buffer rm ++ default [] (rp_buffer rparts) in
  ∃ db' q,
    save_step fl ctx x pk ck rm db = Done tt db' ∧
    db_querier_cache db' !! cmd_query_uuid (ctx_cmd ctx) = Some q ∧
    rd_buffer (q_reader q) = pushed ++ rd_buffer reader ∧
    rd_permit (q_reader q) = rd_permit reader ∧
    q_ranges q = ctx_ranges ctx ∧ q_reader_range q = rp_range rparts ∧
    q_reader_slice q = rp_slice rparts ∧ q_permit q = rp_permit rparts ∧
    q_last_pkey q = pk ∧ q_last_ckey q = ck ∧
    sem_inactive (db_semaphores db' (permit_sem (rp_permit rparts))) !! handle = None ∧
    unpopped_fragments db'
    = (unpopped_fragments db + N.of_nat (length pushed)) mod size_t_modulus ∧
    unpopped_bytes db'
    = (unpopped_bytes db + count_bytes (ctx_schema ctx) pushed) mod size_t_modulus ∧
    failed_reader_saves db' = failed_reader_saves db.
Proof.
  intros Hrp Hh Hreg Hf1 Hf2 Hf3. apply save_step_done; try done. by rewrite Hf2.
Qed.

(** X3.  When the reader of a shard is still registered and nothing throws, the
    [try] block of [save_reader] unregisters it, pushes back first the
    fragments the shard reader handed over when it was stopped and then the
    dismantled ones, and stores it in the querier cache under the query's
    id.  The stored reader starts with the dismantled fragments, goes on
    with the handed-over ones and then with what it had buffered itself;
    the querier carries the range vector of the query, the range and slice
    of the remote parts, their permit and the last keys.  The two
    [unpopped] counters grow by the number and the memory usage of the
    fragments pushed back (modulo [2^64]); no failure is counted. *)
Theorem save_step_stores_the_stream fl ctx x pk ck rm rparts handle reader db :
  rm_rparts rm = Some rparts → rp_handle rparts = Some handle →
  sem_inactive (db_semaphores db (permit_sem (rp_permit rparts))) !! handle = Some reader →
  fl in_save_unregister x = false → fl in_save_unpop x = false →
  fl in_save_insert x = false →
  let pushed := get_dismantled_buffer rm ++ default [] (rp_buffer rparts) in
  ∃ db' q,
    save_step fl ctx x pk ck rm db = Done tt db' ∧
    db_querier_cache db' !! cmd_query_uuid (ctx_cmd ctx) = Some q ∧
    rd_buffer (q_reader q) = pushed ++ rd_buffer reader ∧
    rd_permit (q_reader q) = rd_permit reader ∧
    q_ranges q = ctx_ranges ctx ∧ q_reader_range q = rp_range rparts ∧
    q_reader_slice q = rp_slice rparts ∧ q_permit q = rp_permit rparts ∧
    q_last_pkey q = pk ∧ q_last_ckey q = ck ∧
    sem_inactive (db_semaphores db' (permit_sem (rp_permit rparts))) !! handle = None ∧
    unpopped_fragments db'
    = (unpopped_fragments db + N.of_nat (length pushed)) mod size_t_modulus ∧
    unpopped_bytes db'
    = (unpopped_bytes db + count_bytes (ctx_schema ctx) pushed) mod size_t_modulus ∧
    failed_reader_saves db' = failed_reader_saves db.
Proof. apply save_step_spec. Qed.

(** X4.  A reader that was evicted while it was inactive is not saved, and this
    is no failure: when the handle of the remote parts is no longer
    registered, the lambda of [save_reader] returns without storing a
    querier, without touching a counter and without logging. *)
Theorem evicted_reader_is_not_saved fl ctx x pk ck rm rparts handle db :
  rm_rparts rm = Some rparts → rp_handle rparts = Some handle →
  sem_inactive (db_semaphores db (permit_sem (rp_permit rparts))) !! handle = None →
  fl in_save_unregister x = false →
  ∃ db', save_on_shard fl ctx x pk ck rm db = Done tt db' ∧
    db_querier_cache db' = db_querier_cache db ∧
    db_stats_of db' = db_stats_of db ∧
    db_log db' = db_log db ∧
    db_closed db' = db_closed db.
Proof.
  intros Hrp Hh Hreg Hfl.
  unfold save_on_shard, try_catch, save_step, bind, deref, ret, may_throw.
  rewrite Hrp. simpl. rewrite Hh. simpl. rewrite Hfl. simpl.
  unfold db_unregister_inactive_read. simpl. rewrite Hreg. simpl.
  eexists. split; [reflexivity|]. done.
Qed.

(** ** What [save_readers] stores for the next page *)

Lemma is_saving_onto extra readers readers' x :
  dismantled_onto extra readers readers' → is_saving readers' x = is_saving readers x.
Proof.
  intros [Hl Honto]. unfold is_saving.
  destruct (readers !! x) as [rm|] eqn:Hrm.
  - destruct (Honto x rm Hrm) as (rm' & Hrm' & Hst & _). by rewrite Hrm', Hst.
  - rewrite (lookup_ge_None_2 readers'); [done|]. rewrite Hl. by apply lookup_ge_None_1.
Qed.

Lemma dismantle_compaction_state_hands_back s readers cs :
  (∀ t, (shard_of s t < length readers)%nat) →
  ∃ stats readers',
    dismantle_compaction_state s readers cs = Some (stats, readers') ∧
    dismantled_onto
      (λ x, if bool_decide (x = shard_of s (dk_token (ps_key (cs_partition_start cs))))
               && is_saving readers x
            then compaction_state_fragments cs else [])
      readers readers'.
Proof.
  intros Hrange. unfold dismantle_compaction_state.
  set (shard := shard_of s _).
  destruct (lookup_lt_is_Some_2 readers shard (Hrange _)) as [rm Hrm].
  rewrite Hrm.
  assert (Hsv : is_saving readers shard = bool_decide (rm_state rm = saving))
    by (unfold is_saving; by rewrite Hrm).
  destruct (decide (rm_state rm ≠ saving)) as [Hns|Hs].
  - do 2 eexists. split; [done|].
    eapply dismantled_onto_ext; [|apply dismantled_onto_refl].
    intros x; simpl. destruct (decide (x = shard)) as [->|Hne].
    + rewrite Hsv, (bool_decide_eq_false_2 (rm_state rm = saving)) by done.
      by rewrite andb_false_r.
    + by rewrite (bool_decide_eq_false_2 (x = shard)).
  - assert (Hst : rm_state rm = saving) by (by destruct (decide (rm_state rm = saving))).
    rewrite bool_decide_eq_true_2 in Hsv by done.
    destruct cs as [ps [sr|] [rtc|]]; unfold compaction_state_fragments; simpl in *;
      do 2 eexists; (split; [done|]);
      match goal with
      | |- dismantled_onto (λ x, if _ then ?l else []) _ _ =>
          eapply dismantled_onto_ext;
            [|apply (dismantled_onto_insert readers shard rm l Hrm)]
      end;
      intros x; simpl; destruct (decide (x = shard)) as [->|Hne];
      rewrite ?Hsv, ?(bool_decide_eq_true_2 (shard = shard)),
        ?(bool_decide_eq_false_2 (x = shard)) by done; done.
Qed.

(** The two dismantlers in the order of [save_readers]. *)
Lemma dismantlers_hand_back s readers buf cs :
  (∀ t, (shard_of s t < length readers)%nat) →
  ∃ st1 r1 st2 r2,
    dismantle_combined_buffer s readers buf (ps_key (cs_partition_start cs))
    = Some (st1, r1) ∧
    dismantle_compaction_state s r1 cs = Some (st2, r2) ∧
    dismantled_onto (handed_back s readers buf cs) readers r2.
Proof.
  intros Hrange. unfold dismantle_combined_buffer. rewrite dbs_zero_mk.
  destruct (dismantle_walk_tail s (ps_key (cs_partition_start cs)) (is_saving readers)
              (reverse buf) [] (0, 0, 0) (0, 0, 0) readers) as (r1 & Heq1 & Honto1);
    [done..|].
  rewrite reverse_nil, app_nil_r, reverse_involutive in Honto1.
  assert (Hrange1 : ∀ t, (shard_of s t < length r1)%nat).
  { intros t. destruct Honto1 as [-> _]. apply Hrange. }
  destruct (dismantle_compaction_state_hands_back s r1 cs Hrange1)
    as (st2 & r2 & Heq2 & Honto2).
  do 4 eexists. split; [exact Heq1|]. split; [exact Heq2|].
  eapply dismantled_onto_ext; [|exact (dismantled_onto_trans _ _ _ _ _ Honto1 Honto2)].
  intros x. simpl. unfold handed_back. by rewrite (is_saving_onto _ _ _ _ Honto1).
Qed.

Lemma shard_store_kept_refl x w : shard_store_kept x w w.
Proof. split; [done|]. intros db Hdb. by exists db. Qed.

Lemma shard_store_kept_trans x w1 w2 w3 :
  shard_store_kept x w1 w2 → shard_store_kept x w2 w3 → shard_store_kept x w1 w3.
Proof.
  intros [Hr1 Hd1] [Hr2 Hd2]. split; [congruence|].
  intros db Hdb. destruct (Hd1 db Hdb) as (db2 & Hdb2 & ? & ? & ?).
  destruct (Hd2 db2 Hdb2) as (db3 & Hdb3 & ? & ? & ?).
  exists db3. repeat split; congruence.
Qed.

(** Saving shard [y] leaves the store of every other shard alone: of the
    coordinator's shard it changes the log and the failure counter at
    most. *)
Lemma save_readers_shard_frame fl ctx pk ck y x w w' :
  x ≠ y → save_readers_shard fl ctx pk ck y w = Done tt w' → shard_store_kept x w w'.
Proof.
  intros Hne. unfold save_readers_shard. unfold bind at 1. unfold reader_at.
  destruct (w_readers w !! y) as [rm|] eqn:Hrm; [|done].
  case_bool_decide; [|intros [= <-]; apply shard_store_kept_refl].
  unfold save_reader. unfold bind at 1. unfold reader_at. rewrite Hrm.
  unfold bind at 1. unfold set_reader.
  destruct (decide (y < length (w_readers w))%nat); [|done].
  unfold try_catch, may_throw.
  assert (Hhandler : ∀ w1 e w2,
    shard_store_kept x w w1 →
    on_db (ctx_shard ctx)
      (do_ db_log_line (debug_failed_to_save_on_shard y e);
       db_bump_failed_reader_saves) w1 = Done tt w2 →
    shard_store_kept x w w2).
  { intros w1 e w2 Hk. unfold on_db.
    destruct (w_dbs w1 !! ctx_shard ctx) as [dbl|] eqn:Hl; [|done]. simpl.
    intros [= <-]. eapply shard_store_kept_trans; [exact Hk|].
    split; [done|]. simpl. intros db Hdb.
    destruct (decide (ctx_shard ctx = x)) as [Heq|Hneq].
    - rewrite Heq in *. rewrite list_lookup_insert_eq by (by eapply lookup_lt_Some).
      eexists; split; [done|]. by simplify_eq.
    - rewrite list_lookup_insert_ne by done. eauto. }
  assert (Hk1 : shard_store_kept x w
                  (w_with_readers (<[y := reader_meta_default]> (w_readers w)) w)).
  { split; simpl; [by rewrite list_lookup_insert_ne|]. intros db Hdb. eauto. }
  unfold bind at 1. destruct (fl in_save_invoke_on y); simpl.
  - by apply Hhandler.
  - unfold on_db at 1. simpl.
    destruct (w_dbs w !! y) as [dby|] eqn:Hy; [|done].
    destruct (save_on_shard fl ctx y pk ck rm dby) as [[] db'|e db'|]; [| |done].
    + intros [= <-]. split; simpl; [by rewrite list_lookup_insert_ne|].
      intros db Hdb. rewrite list_lookup_insert_ne by done. eauto.
    + apply Hhandler. split; simpl; [by rewrite list_lookup_insert_ne|].
      intros db Hdb. rewrite list_lookup_insert_ne by done. eauto.
Qed.

Lemma parallel_for_each_app_Done {S} (f : nat → M S unit) l1 l2 : ∀ st st',
  parallel_for_each (l1 ++ l2) f st = Done tt st' →
  ∃ st1, parallel_for_each l1 f st = Done tt st1 ∧
         parallel_for_each l2 f st1 = Done tt st'.
Proof.
  induction l1 as [|x l1 IH]; intros st st' H; simpl in *; [eauto|].
  destruct (f x st) as [[] st1|e st1|]; [by apply IH| |done].
  destruct (parallel_for_each (l1 ++ l2) f st1); done.
Qed.

Lemma parallel_for_each_Done_inv {S} (P : S → S → Prop) (f : nat → M S unit) l :
  (∀ st, P st st) → (∀ a b c, P a b → P b c → P a c) →
  (∀ y st st', y ∈ l → f y st = Done tt st' → P st st') →
  ∀ st st', parallel_for_each l f st = Done tt st' → P st st'.
Proof.
  intros Hrefl Htrans. induction l as [|x l IH]; intros Hf st st' H; simpl in H.
  - injection H as <-. apply Hrefl.
  - destruct (f x st) as [[] st1|e st1|] eqn:Hx; [| |done].
    + eapply Htrans; [eapply Hf; [by left|done]|].
      apply IH; [|done]. intros y a b Hy. apply Hf. by right.
    + destruct (parallel_for_each l f st1); done.
Qed.

(** X5.  For a stateful query, take a shard that is to be saved, whose reader is
    still registered and on which no step of the save throws (other shards
    may fail as they like).  After [save_readers] the querier cache of that
    shard holds, under the query's id, a reader that will deliver in this
    order: the pieces of the compaction state if the shard owns the
    partition in delivery, the fragments of the unconsumed buffer that
    belong to the shard in their stream order, what the shard's dismantled
    buffer held before, the fragments the shard reader handed over when it
    was stopped, and the reader's own buffer.  The querier records the last
    partition and clustering keys, and the shard's slot is back to the
    default. *)
Theorem save_readers_stores_the_unread_stream
    fl ctx buf cs ck w x rm rparts handle reader db :
  cmd_query_uuid (ctx_cmd ctx) ≠ 0 →
  wf_save ctx w →
  w_readers w !! x = Some rm → to_be_saved rm →
  rm_rparts rm = Some rparts → rp_handle rparts = Some handle →
  w_dbs w !! x = Some db →
  sem_inactive (db_semaphores db (permit_sem (rp_permit rparts))) !! handle = Some reader →
  fl in_save_invoke_on x = false → fl in_save_unregister x = false →
  fl in_save_unpop x = false → fl in_save_insert x = false →
  ∃ w' db' q,
    save_readers fl ctx buf cs ck w = Done tt w' ∧
    w_readers w' !! x = Some reader_meta_default ∧
    w_dbs w' !! x = Some db' ∧
    db_querier_cache db' !! cmd_query_uuid (ctx_cmd ctx) = Some q ∧
    rd_buffer (q_reader q)
    = handed_back (ctx_schema ctx) (w_readers w) buf cs x
      ++ get_dismantled_buffer rm ++ default [] (rp_buffer rparts) ++ rd_buffer reader ∧
    rd_permit (q_reader q) = rd_permit reader ∧
    q_ranges q = ctx_ranges ctx ∧ q_reader_range q = rp_range rparts ∧
    q_reader_slice q = rp_slice rparts ∧ q_permit q = rp_permit rparts ∧
    q_last_pkey q = ps_key (cs_partition_start cs) ∧ q_last_ckey q = ck.
Proof.
  intros Huuid Hwf Hrm Hsave Hrp Hh Hdb Hreg Hf0 Hf1 Hf2 Hf3.
  pose proof Hwf as (Hlen & Hlocal & Hrange & Hready).
  destruct (save_readers_spec fl ctx buf cs ck w Huuid Hwf)
    as (w' & Hdone & _ & _ & Hr' & _).
  destruct (Hr' x rm Hrm) as (rm' & Hrm' & Hyes & _). rewrite (Hyes Hsave) in Hrm'.
  cut (∃ db' q,
    w_dbs w' !! x = Some db' ∧
    db_querier_cache db' !! cmd_query_uuid (ctx_cmd ctx) = Some q ∧
    rd_buffer (q_reader q)
    = handed_back (ctx_schema ctx) (w_readers w) buf cs x
      ++ get_dismantled_buffer rm ++ default [] (rp_buffer rparts) ++ rd_buffer reader ∧
    rd_permit (q_reader q) = rd_permit reader ∧
    q_ranges q = ctx_ranges ctx ∧ q_reader_range q = rp_range rparts ∧
    q_reader_slice q = rp_slice rparts ∧ q_permit q = rp_permit rparts ∧
    q_last_pkey q = ps_key (cs_partition_start cs) ∧ q_last_ckey q = ck).
  { intros (db' & q & H). exists w', db', q. by split. }
  revert Hdone. unfold save_readers. rewrite bool_decide_eq_false_2 by done.
  set (pk := ps_key (cs_partition_start cs)).
  destruct (dismantlers_hand_back (ctx_schema ctx) (w_readers w) buf cs Hrange)
    as (st1 & r1 & st2 & r2 & Heq1 & Heq2 & [Hl2 Honto]).
  fold pk in Heq1.
  unfold bind at 1. unfold lift_readers at 1. rewrite Heq1.
  unfold bind at 1. unfold trace at 1, modify at 1.
  unfold bind at 1. unfold lift_readers at 1. simpl w_readers. rewrite Heq2.
  unfold bind at 1. unfold trace at 1, modify at 1.
  unfold bind at 1. unfold get at 1.
  match goal with
  | |- parallel_for_each _ _ ?W = _ → _ => set (w2 := W)
  end.
  assert (Hx : (x < smp_count w2)%nat).
  { unfold smp_count. simpl. by eapply lookup_lt_Some. }
  replace (seq 0 (smp_count w2))
    with (seq 0 x ++ [x] ++ seq (S x) (smp_count w2 - S x)).
  2:{ change ([x] ++ seq (S x) (smp_count w2 - S x)) with (seq x (S (smp_count w2 - S x))).
      rewrite <- seq_app. f_equal. lia. }
  intros Hdone.
  apply parallel_for_each_app_Done in Hdone as (wa & Ha & Hdone).
  apply parallel_for_each_app_Done in Hdone as (wb & Hb & Hc).
  assert (Hframe : ∀ l wi wj, x ∉ l →
    parallel_for_each l (save_readers_shard fl ctx pk ck) wi = Done tt wj →
    shard_store_kept x wi wj).
  { intros l wi wj Hnin.
    apply (parallel_for_each_Done_inv (shard_store_kept x)).
    - apply shard_store_kept_refl.
    - apply shard_store_kept_trans.
    - intros y a b Hy. apply save_readers_shard_frame. intros ->. done. }
  apply Hframe in Ha; [|rewrite elem_of_seq; lia].
  apply Hframe in Hc; [|rewrite elem_of_seq; lia].
  destruct (Honto x rm Hrm) as (rm2 & Hrm2 & Hst2 & Hrp2 & Hbuf2).
  destruct Ha as [Hra Hda]. simpl in Hra. rewrite Hrm2 in Hra.
  destruct (Hda db Hdb) as (dba & Hdba & Hca & Hsa & _).
  (* the save of shard [x] itself *)
  simpl in Hb. destruct (save_readers_shard fl ctx pk ck x wa) as [[] wb'|e wb'|] eqn:Hsx;
    [|done..].
  injection Hb as ->.
  revert Hsx. unfold save_readers_shard. unfold bind at 1. unfold reader_at.
  rewrite Hra. rewrite bool_decide_eq_true_2 by (unfold to_be_saved in *; by rewrite Hst2).
  unfold save_reader. unfold bind at 1. unfold reader_at. rewrite Hra.
  unfold bind at 1. unfold set_reader.
  destruct (decide (x < length (w_readers wa))%nat); [|done].
  unfold try_catch, may_throw. unfold bind at 1. rewrite Hf0. simpl.
  unfold on_db at 1. simpl. rewrite Hdba.
  destruct (save_step_spec fl ctx x pk ck rm2 rparts handle reader dba)
    as (db1 & q & Hstep & Hq & Hqb & Hqp & Hq1 & Hq2 & Hq3 & Hq4 & Hq5 & Hq6 & _);
    [congruence|done|by rewrite Hsa|done..|].
  unfold save_on_shard, try_catch. rewrite Hstep.
  intros [= <-].
  destruct Hc as [_ Hdc]. simpl in Hdc.
  destruct (Hdc db1) as (db' & Hdb' & Hcc & _).
  { apply list_lookup_insert_eq. by eapply lookup_lt_Some. }
  exists db', q. split; [done|].
  split; [by rewrite Hcc|]. split; [|done].
  rewrite Hqb, Hbuf2. by rewrite <- !app_assoc.
Qed.

(** ** Looking the saved readers up again *)

(** A querier stored for the very ranges and slice of the request is
    compatible with it. *)
Lemma compatible_same q ranges slice :
  q_ranges q = ranges → q_reader_slice q = Some slice →
  compatible q ranges slice = true.
Proof.
  intros Hranges Hslice. unfold compatible. rewrite Hranges, Hslice.
  by rewrite !bool_decide_eq_true_2.
Qed.

(** The compatibility check, spelled out. *)
Lemma compatible_spec q ranges slice :
  compatible q ranges slice = true ↔
  ranges `suffix_of` q_ranges q ∧
  ∃ stored, q_reader_slice q = Some stored ∧ slices_match stored slice.
Proof.
  unfold compatible. rewrite andb_true_iff, bool_decide_eq_true. split.
  - intros [Hsuffix Hslice]. split; [done|].
    destruct (q_reader_slice q) as [stored|]; [|done].
    exists stored. split; [done|]. by apply bool_decide_eq_true in Hslice.
  - intros [Hsuffix (stored & -> & Hslice)]. split; [done|].
    by apply bool_decide_eq_true.
Qed.

(** The three steps of the round trip. *)
Lemma lookup_readers_shard_found fl ctx x w db q :
  w_dbs w !! x = Some db → (x < length (w_readers w))%nat →
  db_querier_cache db !! cmd_query_uuid (ctx_cmd ctx) = Some q →
  q_ranges q = ctx_ranges ctx →
  q_reader_slice q = Some (cmd_slice (ctx_cmd ctx)) →
  permit_sem (q_permit q) = db_semaphore_id db →
  fl in_lookup_invoke_on x = false → fl in_lookup_querier x = false →
  let sem := db_semaphores db (db_semaphore_id db) in
  ∃ w1 db1,
    lookup_readers_shard fl ctx x w = Done tt w1 ∧
    w_readers w1
    = <[x := {| rm_state := successful_lookup;
                rm_rparts :=
                  Some {| rp_permit := q_permit q; rp_range := q_reader_range q;
                          rp_slice := q_reader_slice q; rp_read_operation := true;
                          rp_handle := Some (sem_next_handle sem); rp_buffer := None |};
                rm_dismantled_buffer := None |}]> (w_readers w) ∧
    w_dbs w1 !! x = Some db1 ∧
    db_querier_cache db1 = delete (cmd_query_uuid (ctx_cmd ctx)) (db_querier_cache db) ∧
    db_semaphore_id db1 = db_semaphore_id db ∧
    db_semaphores db1 (db_semaphore_id db)
    = {| sem_inactive := <[sem_next_handle sem := q_reader q]> (sem_inactive sem);
         sem_next_handle := S (sem_next_handle sem) |}.
Proof.
  intros Hdb Hx Hq Hranges Hslice Hsem Hf1 Hf2 sem.
  assert (Hxd : (x < length (w_dbs w))%nat) by (by eapply lookup_lt_Some).
  unfold lookup_readers_shard.
  unfold bind, may_throw, ret, on_db, set_reader.
  rewrite Hf1, Hf2, Hdb. simpl.
  unfold db_lookup_shard_mutation_querier. rewrite Hq.
  rewrite (compatible_same q _ _ Hranges Hslice). simpl.
  rewrite list_lookup_insert_eq by done. simpl.
  destruct (decide (permit_sem (q_permit q) ≠ db_semaphore_id db)); [done|].
  simpl. rewrite !list_lookup_insert_eq by (by rewrite ?length_insert). simpl.
  destruct (decide (x < length (w_readers w))%nat); [|done].
  do 2 eexists. split; [reflexivity|]. simpl.
  rewrite !list_lookup_insert_eq by (by rewrite ?length_insert).
  split; [done|]. split; [done|]. split; [done|]. split; [done|].
  simpl. by rewrite fn_lookup_insert.
Qed.

Lemma obtain_reader_permit_of_lookup fl ctx x w rm rparts db :
  w_readers w !! x = Some rm → rm_state rm = successful_lookup →
  rm_rparts rm = Some rparts → w_dbs w !! x = Some db →
  ∃ w' db',
    obtain_reader_permit fl ctx x w = Done (rp_permit rparts) w' ∧
    w_readers w' = w_readers w ∧
    w_dbs w' !! x = Some db' ∧
    db_semaphores db' = db_semaphores db ∧
    db_semaphore_id db' = db_semaphore_id db ∧
    db_querier_cache db' = db_querier_cache db ∧
    db_permit_max_result_size db' !! permit_id (rp_permit rparts)
    = Some (get_max_result_size ctx db).
Proof.
  intros Hrm Hst Hrp Hdb.
  unfold obtain_reader_permit, bind, reader_at. rewrite Hrm.
  destruct (decide (rm_state rm = successful_lookup)); [|done].
  rewrite Hrp. simpl. unfold on_db. rewrite Hdb. simpl.
  do 2 eexists. split; [reflexivity|]. simpl.
  rewrite list_lookup_insert_eq by (by eapply lookup_lt_Some).
  repeat split; try done. simpl. apply lookup_insert_eq.
Qed.

Lemma create_reader_of_lookup fl x permit pr ps w rm rparts handle db reader :
  w_readers w !! x = Some rm → rm_state rm = successful_lookup →
  rm_rparts rm = Some rparts → rp_handle rparts = Some handle →
  w_dbs w !! x = Some db →
  fl in_create_unregister x = false →
  sem_inactive (db_semaphores db (db_semaphore_id db)) !! handle = Some reader →
  rd_permit reader = permit →
  ∃ w' db',
    create_reader fl x permit pr ps w = Done reader w' ∧
    w_readers w' = <[x := rm_with_state used rm]> (w_readers w) ∧
    w_dbs w' !! x = Some db' ∧
    sem_inactive (db_semaphores db' (db_semaphore_id db)) !! handle = None ∧
    db_querier_cache db' = db_querier_cache db.
Proof.
  intros Hrm Hst Hrp Hh Hdb Hfl Hreg Hp.
  assert (Hlt : (x < length (w_readers w))%nat) by (by eapply lookup_lt_Some).
  unfold create_reader, bind, reader_at. rewrite Hrm, Hst.
  rewrite bool_decide_eq_false_2 by (intros (_ & ? & _); done).
  destruct (decide (successful_lookup = successful_lookup)); [|done].
  rewrite Hrp. simpl. rewrite Hh. simpl.
  unfold may_throw. rewrite Hfl. simpl.
  unfold on_db. rewrite Hdb. unfold db_unregister_inactive_read. simpl.
  rewrite Hreg. unfold set_reader. simpl.
  destruct (decide (x < length (w_readers w))%nat); [|done].
  destruct (decide (rd_permit reader ≠ permit)); [done|].
  simpl. do 2 eexists. split; [reflexivity|]. simpl.
  rewrite list_lookup_insert_eq by (by eapply lookup_lt_Some).
  repeat split; try done. simpl. rewrite fn_lookup_insert. apply lookup_delete_eq.
Qed.

(** X6.  The round trip of a saved reader.  When the querier cache of a shard
    holds a querier under the query's id, stored for the same range vector
    and slice, and the querier's permit belongs to the semaphore of this
    query: [lookup_readers] on that shard takes the querier out of the
    cache, registers its reader as inactive and leaves the shard in
    [successful_lookup]; [obtain_reader_permit] then hands out the
    querier's permit; and [create_reader] called with it returns the very
    reader that was saved (whatever range and slice it is called with),
    unregistered again, with the shard in [used] and the range and slice of
    the querier in its remote parts. *)
Theorem lookup_then_create_returns_the_saved_reader fl ctx x w db q pr ps :
  w_dbs w !! x = Some db → (x < length (w_readers w))%nat →
  db_querier_cache db !! cmd_query_uuid (ctx_cmd ctx) = Some q →
  q_ranges q = ctx_ranges ctx →
  q_reader_slice q = Some (cmd_slice (ctx_cmd ctx)) →
  permit_sem (q_permit q) = db_semaphore_id db →
  rd_permit (q_reader q) = q_permit q →
  fl in_lookup_invoke_on x = false → fl in_lookup_querier x = false →
  fl in_create_unregister x = false →
  let handle := sem_next_handle (db_semaphores db (db_semaphore_id db)) in
  let rparts := {| rp_permit := q_permit q; rp_range := q_reader_range q;
                   rp_slice := q_reader_slice q; rp_read_operation := true;
                   rp_handle := Some handle; rp_buffer := None |} in
  ∃ w1 w2 w3 db1 db3,
    lookup_readers_shard fl ctx x w = Done tt w1 ∧
    w_readers w1 !! x
    = Some {| rm_state := successful_lookup; rm_rparts := Some rparts;
              rm_dismantled_buffer := None |} ∧
    w_dbs w1 !! x = Some db1 ∧
    db_querier_cache db1 !! cmd_query_uuid (ctx_cmd ctx) = None ∧
    sem_inactive (db_semaphores db1 (db_semaphore_id db)) !! handle = Some (q_reader q) ∧
    obtain_reader_permit fl ctx x w1 = Done (q_permit q) w2 ∧
    create_reader fl x (q_permit q) pr ps w2 = Done (q_reader q) w3 ∧
    w_readers w3 !! x
    = Some {| rm_state := used; rm_rparts := Some rparts;
              rm_dismantled_buffer := None |} ∧
    w_dbs w3 !! x = Some db3 ∧
    db_querier_cache db3 !! cmd_query_uuid (ctx_cmd ctx) = None ∧
    sem_inactive (db_semaphores db3 (db_semaphore_id db)) !! handle = None.
Proof.
  intros Hdb Hx Hq Hranges Hslice Hsem Hpermit Hf1 Hf2 Hf3 handle rparts.
  destruct (lookup_readers_shard_found fl ctx x w db q)
    as (w1 & db1 & H1 & Hr1 & Hd1 & Hc1 & Hid1 & Hs1); [done..|].
  fold handle in Hr1, Hs1. fold rparts in Hr1.
  set (rm1 := {| rm_state := successful_lookup; rm_rparts := Some rparts;
                 rm_dismantled_buffer := None |}) in *.
  assert (Hrm1 : w_readers w1 !! x = Some rm1).
  { rewrite Hr1. by apply list_lookup_insert_eq. }
  destruct (obtain_reader_permit_of_lookup fl ctx x w1 rm1 rparts db1)
    as (w2 & db2 & H2 & Hr2 & Hd2 & Hs2 & Hid2 & Hc2 & _); [done..|].
  destruct (create_reader_of_lookup fl x (q_permit q) pr ps w2 rm1 rparts handle db2
              (q_reader q))
    as (w3 & db3 & H3 & Hr3 & Hd3 & Hs3 & Hc3); [by rewrite Hr2|done..| | |].
  { rewrite Hs2, Hid2, Hid1, Hs1. simpl. apply lookup_insert_eq. }
  { done. }
  exists w1, w2, w3, db1, db3. split; [done|]. split; [done|]. split; [done|].
  split; [rewrite Hc1; apply lookup_delete_eq|].
  split; [rewrite Hs1; apply lookup_insert_eq|].
  split; [done|]. split; [done|]. split.
  { rewrite Hr3, Hr2. apply list_lookup_insert_eq. by eapply lookup_lt_Some. }
  split; [done|]. split; [rewrite Hc3, Hc2, Hc1; apply lookup_delete_eq|].
  by rewrite <- Hid1, <- Hid2.
Qed.


(** ** [create_reader] and [obtain_reader_permit] *)

Lemma create_reader_Done fl x permit pr ps w reader w' :
  create_reader fl x permit pr ps w = Done reader w' →
  rd_permit reader = permit ∧
  length (w_dbs w') = length (w_dbs w) ∧
  ∃ rm rm',
    w_readers w !! x = Some rm ∧ rm_state rm ≠ saving ∧
    w_readers w' = <[x := rm']> (w_readers w) ∧
    rm_state rm' = used ∧ is_Some (rm_rparts rm') ∧
    rm_dismantled_buffer rm' = rm_dismantled_buffer rm.
Proof.
  unfold create_reader. unfold bind at 1. unfold reader_at.
  destruct (w_readers w !! x) as [rm|] eqn:Hrm; [|done].
  assert (Hfresh : ∀ w1, length (w_dbs w1) = length (w_dbs w) →
    w_readers w1 = w_readers w → rm_state rm ≠ saving →
    (do_ set_reader x
           {| rm_state := used;
              rm_rparts :=
                Some {| rp_permit := permit; rp_range := Some pr; rp_slice := Some ps;
                        rp_read_operation := true; rp_handle := None;
                        rp_buffer := None |};
              rm_dismantled_buffer := rm_dismantled_buffer rm |};
     ret {| rd_permit := permit; rd_buffer := []; rd_buffer_size := 0 |}) w1
    = Done reader w' →
    rd_permit reader = permit ∧
    length (w_dbs w') = length (w_dbs w) ∧
    ∃ rm0 rm',
      Some rm = Some rm0 ∧ rm_state rm0 ≠ saving ∧
      w_readers w' = <[x := rm']> (w_readers w) ∧
      rm_state rm' = used ∧ is_Some (rm_rparts rm') ∧
      rm_dismantled_buffer rm' = rm_dismantled_buffer rm0).
  { intros w1 Hl Hr Hns. unfold bind, set_reader, ret.
    destruct (decide (x < length (w_readers w1))%nat); [|done].
    intros [= <- <-]. simpl. split; [done|]. split; [done|].
    eexists rm, _. split; [done|]. split; [done|]. rewrite Hr. split; [done|].
    simpl. eauto. }
  case_bool_decide as Hstate.
  { unfold bind. by destruct (on_db _ _ _). }
  assert (Hns : rm_state rm ≠ saving).
  { intros Hs. apply Hstate. rewrite Hs. done. }
  destruct (decide (rm_state rm = successful_lookup)); [|by apply Hfresh].
  unfold bind at 1. destruct (rm_rparts rm) as [rparts|] eqn:Hrp; [|done].
  simpl. unfold bind at 1. destruct (rp_handle rparts) as [handle|]; [|done].
  simpl. unfold bind at 1. unfold may_throw.
  destruct (fl in_create_unregister x); [done|]. simpl.
  unfold bind at 1. unfold on_db.
  destruct (w_dbs w !! x) as [db|] eqn:Hdb; [|done].
  unfold db_unregister_inactive_read. simpl.
  destruct (sem_inactive (db_semaphores db (db_semaphore_id db)) !! handle) as [rd|].
  - unfold bind, set_reader. simpl.
    destruct (decide (x < length (w_readers w))%nat); [|done].
    destruct (decide (rd_permit rd ≠ permit)) as [|Heq]; [done|].
    intros [= <- <-]. simpl. split; [by apply dec_stable|].
    split; [by rewrite length_insert|].
    eexists rm, _. split; [done|]. split; [done|]. split; [done|].
    simpl. rewrite Hrp. eauto.
  - apply Hfresh; [by simpl; rewrite length_insert|done..].
Qed.

(** X8.  Whenever [create_reader] returns a reader, on whatever path, the reader
    carries the permit that was passed in, the shard is in state [used]
    with remote parts, its dismantled buffer is as before, and no other
    slot of the reader vector has changed.  The shard was not [saving]. *)
Theorem create_reader_leaves_the_shard_used fl x permit pr ps w reader w' :
  create_reader fl x permit pr ps w = Done reader w' →
  rd_permit reader = permit ∧
  ∃ rm rm',
    w_readers w !! x = Some rm ∧ rm_state rm ≠ saving ∧
    w_readers w' = <[x := rm']> (w_readers w) ∧
    rm_state rm' = used ∧ is_Some (rm_rparts rm') ∧
    rm_dismantled_buffer rm' = rm_dismantled_buffer rm.
Proof.
  intros H. apply create_reader_Done in H as (? & _ & ?). by split.
Qed.

(** X9.  [create_reader] throws [std::logic_error] exactly when the shard is in
    state [saving]; it then logs the warning and leaves the reader vector
    and everything else as it was. *)
Theorem create_reader_rejects_a_saving_shard fl x permit pr ps w rm db :
  w_readers w !! x = Some rm → w_dbs w !! x = Some db →
  (rm_state rm = saving →
   create_reader fl x permit pr ps w
   = Throw std_logic_error
       (w_with_dbs
          (<[x := db_with_log (db_log db ++ [warn_unexpected_create x saving]) db]>
             (w_dbs w)) w)) ∧
  (∀ w', create_reader fl x permit pr ps w = Throw std_logic_error w' →
         rm_state rm = saving).
Proof.
  intros Hrm Hdb.
  split; unfold create_reader; unfold bind at 1; unfold reader_at; rewrite Hrm.
  - intros Hst. rewrite Hst. rewrite bool_decide_eq_true_2 by done.
    unfold bind, on_db. by rewrite Hdb.
  - intros w'. case_bool_decide as Hstate.
    { intros _. destruct Hstate as (H1 & H2 & H3). by destruct (rm_state rm). }
    assert (Hfresh : ∀ w1,
      (do_ set_reader x
             {| rm_state := used;
                rm_rparts :=
                  Some {| rp_permit := permit; rp_range := Some pr; rp_slice := Some ps;
                          rp_read_operation := true; rp_handle := None;
                          rp_buffer := None |};
                rm_dismantled_buffer := rm_dismantled_buffer rm |};
       ret {| rd_permit := permit; rd_buffer := []; rd_buffer_size := 0 |}) w1
      ≠ Throw std_logic_error w').
    { intros w1. unfold bind, set_reader, ret.
      by destruct (decide (x < length (w_readers w1))%nat). }
    destruct (decide (rm_state rm = successful_lookup)); [|intros H; by apply Hfresh in H].
    unfold bind at 1. destruct (rm_rparts rm) as [rparts|]; [|done].
    simpl. unfold bind at 1. destruct (rp_handle rparts) as [handle|]; [|done].
    simpl. unfold bind at 1. unfold may_throw.
    destruct (fl in_create_unregister x); [done|]. simpl.
    unfold bind at 1. unfold on_db. rewrite Hdb.
    unfold db_unregister_inactive_read. simpl.
    destruct (sem_inactive (db_semaphores db (db_semaphore_id db)) !! handle) as [rd|].
    + unfold bind, set_reader. simpl.
      destruct (decide (x < length (w_readers w))%nat); [|done].
      by destruct (decide (rd_permit rd ≠ permit)).
    + intros H. by apply Hfresh in H.
Qed.

(** X10.  [create_reader] builds a new reader when the shard has none to reuse:
    in state [inexistent], in state [used], and in state
    [successful_lookup] when the saved reader was evicted in the meantime
    (its handle is no longer registered).  The shard is then [used], and its
    remote parts are new: the permit, range and slice of this call, no
    handle, no buffer; a stale handle is gone. *)
Theorem create_reader_builds_a_new_reader fl x permit pr ps w rm db :
  w_readers w !! x = Some rm → w_dbs w !! x = Some db →
  rm_state rm = inexistent ∨ rm_state rm = used
  ∨ (rm_state rm = successful_lookup ∧ fl in_create_unregister x = false ∧
     ∃ rparts handle, rm_rparts rm = Some rparts ∧ rp_handle rparts = Some handle ∧
       sem_inactive (db_semaphores db (db_semaphore_id db)) !! handle = None) →
  ∃ w',
    create_reader fl x permit pr ps w
    = Done {| rd_permit := permit; rd_buffer := []; rd_buffer_size := 0 |} w' ∧
    w_readers w'
    = <[x := {| rm_state := used;
                rm_rparts :=
                  Some {| rp_permit := permit; rp_range := Some pr; rp_slice := Some ps;
                          rp_read_operation := true; rp_handle := None;
                          rp_buffer := None |};
                rm_dismantled_buffer := rm_dismantled_buffer rm |}]> (w_readers w) ∧
    db_querier_cache <$> w_dbs w' = db_querier_cache <$> w_dbs w.
Proof.
  intros Hrm Hdb Hcase.
  assert (Hlt : (x < length (w_readers w))%nat) by (by eapply lookup_lt_Some).
  unfold create_reader. unfold bind at 1. unfold reader_at. rewrite Hrm.
  destruct Hcase as [Hst|[Hst|(Hst & Hfl & rparts & handle & Hrp & Hh & Hreg)]];
    rewrite Hst; rewrite bool_decide_eq_false_2 by (by intros (? & ? & ?)).
  - destruct (decide (inexistent = successful_lookup)); [done|].
    unfold bind, set_reader, ret. destruct (decide (x < length (w_readers w))%nat); [|done].
    eexists. split; [reflexivity|]. done.
  - destruct (decide (used = successful_lookup)); [done|].
    unfold bind, set_reader, ret. destruct (decide (x < length (w_readers w))%nat); [|done].
    eexists. split; [reflexivity|]. done.
  - destruct (decide (successful_lookup = successful_lookup)); [|done].
    unfold bind, deref, ret, may_throw, on_db, set_reader.
    rewrite Hrp. simpl. rewrite Hh, Hfl. simpl. rewrite Hdb.
    unfold db_unregister_inactive_read. simpl. rewrite Hreg. simpl.
    destruct (decide (x < length (w_readers w))%nat); [|done].
    eexists. split; [reflexivity|]. simpl. split; [done|].
    rewrite list_fmap_insert. simpl. by rewrite list_insert_id by (by rewrite list_lookup_fmap, Hdb).
Qed.

(** X11.  Whenever [obtain_reader_permit] returns a permit, that permit's
    maximum result size has been set to [get_max_result_size()] on the
    shard, and the reader vector is untouched.  On a shard that is not in
    [successful_lookup] the permit is a new one of the shard's semaphore. *)
Theorem obtain_reader_permit_limits_the_permit fl ctx x w p w' db :
  obtain_reader_permit fl ctx x w = Done p w' → w_dbs w !! x = Some db →
  w_readers w' = w_readers w ∧
  (∃ db', w_dbs w' !! x = Some db' ∧
     db_permit_max_result_size db' !! permit_id p = Some (get_max_result_size ctx db)) ∧
  (∀ rm, w_readers w !! x = Some rm → rm_state rm ≠ successful_lookup →
     p = {| permit_id := db_next_permit db; permit_sem := db_semaphore_id db |}).
Proof.
  intros H Hdb. revert H.
  assert (Hlt : (x < length (w_dbs w))%nat) by (by eapply lookup_lt_Some).
  unfold obtain_reader_permit. unfold bind at 1. unfold reader_at.
  destruct (w_readers w !! x) as [rm|] eqn:Hrm; [|done].
  destruct (decide (rm_state rm = successful_lookup)) as [Hst|Hst].
  - unfold bind, deref, on_db, ret. destruct (rm_rparts rm) as [rparts|]; [|done].
    simpl. rewrite Hdb. simpl. intros [= <- <-]. simpl. split; [done|]. split.
    + rewrite list_lookup_insert_eq by done. eexists; split; [done|].
      simpl. apply lookup_insert_eq.
    + intros rm0 [= <-]. done.
  - unfold bind, may_throw, on_db, ret.
    destruct (fl in_obtain_permit x); [done|]. simpl. rewrite Hdb. simpl.
    rewrite list_lookup_insert_eq by done. simpl.
    intros [= <- <-]. simpl. split; [done|]. split; [|done].
    rewrite list_lookup_insert_eq by (by rewrite length_insert).
    eexists; split; [done|]. simpl. apply lookup_insert_eq.
Qed.

(** ** The lifecycle policy never runs into undefined behaviour *)

Lemma ends_in_mono {S A} (P Q : S → Prop) (o : outcome S A) :
  (∀ st, P st → Q st) → ends_in P o → ends_in Q o.
Proof. intros HPQ. destruct o; simpl; auto. Qed.

Lemma ends_in_bind {S A B} (Q R : S → Prop) (m : M S A) (k : A → M S B) st :
  ends_in Q (m st) → (∀ st', Q st' → R st') →
  (∀ a st', Q st' → ends_in R (k a st')) →
  ends_in R (bind m k st).
Proof.
  unfold bind. destruct (m st) as [a st'|e st'|]; simpl; auto.
Qed.

Lemma ends_in_as_future {S A} (P : S → Prop) (m : M S A) st :
  ends_in P (m st) → ends_in P (as_future m st).
Proof. unfold as_future. by destruct (m st). Qed.

Lemma ends_in_parallel_for_each {S} (P : S → Prop) (f : nat → M S unit) l : ∀ st,
  (∀ x st, x ∈ l → P st → ends_in P (f x st)) → P st →
  ends_in P (parallel_for_each l f st).
Proof.
  induction l as [|x l IH]; intros st Hf HP; simpl; [done|].
  pose proof (Hf x st ltac:(by left) HP) as Hx.
  assert (IH' : ∀ st, P st → ends_in P (parallel_for_each l f st)).
  { intros st1 H1. apply IH; [|done]. intros y st2 Hy. apply Hf. by right. }
  destruct (f x st) as [[] st1|e st1|]; simpl in Hx; [by apply IH'| |done].
  specialize (IH' st1 Hx). by destruct (parallel_for_each l f st1).
Qed.

Lemma keeps_refl w : policy_inv w → keeps w w.
Proof. by split. Qed.

Lemma keeps_trans w1 w2 w3 : keeps w1 w2 → keeps w2 w3 → keeps w1 w3.
Proof.
  intros (_ & Hn1 & Hc1) (Hi & Hn2 & Hc2). split; [done|]. split; [congruence|].
  intros created Hc. by apply Hc2, Hc1.
Qed.

(** The two ways in which the policy changes the world. *)
Lemma keeps_dbs w dbs' :
  policy_inv w → length dbs' = length (w_dbs w) → keeps w (w_with_dbs dbs' w).
Proof.
  intros [Hlen Hslots] Hl. split; [|split; [done|done]].
  split; [simpl; congruence|done].
Qed.

Lemma keeps_slot w x rm rm' dbs' :
  policy_inv w → w_readers w !! x = Some rm → length dbs' = length (w_dbs w) →
  slot_ok rm' → (rm_state rm ≠ inexistent → rm_state rm' ≠ inexistent) →
  keeps w {| w_readers := <[x := rm']> (w_readers w); w_dbs := dbs';
             w_trace := w_trace w |}.
Proof.
  intros [Hlen Hslots] Hrm Hl Hok Hst.
  assert (Hx : (x < length (w_readers w))%nat) by (by eapply lookup_lt_Some).
  split; [|split; [done|]].
  - split; [simpl; rewrite length_insert; congruence|]. simpl.
    intros y rmy Hy. destruct (decide (x = y)) as [<-|Hne].
    + rewrite list_lookup_insert_eq in Hy by done. by simplify_eq.
    + rewrite list_lookup_insert_ne in Hy by done. eauto.
  - intros created Hc y Hy. destruct (Hc y Hy) as (rmy & Hrmy & Hsty). simpl.
    destruct (decide (x = y)) as [<-|Hne].
    + rewrite list_lookup_insert_eq by done. simplify_eq. eauto.
    + rewrite list_lookup_insert_ne by done. eauto.
Qed.

Lemma slot_ok_fresh permit pr ps b :
  slot_ok {| rm_state := used;
             rm_rparts :=
               Some {| rp_permit := permit; rp_range := Some pr; rp_slice := Some ps;
                       rp_read_operation := true; rp_handle := None;
                       rp_buffer := None |};
             rm_dismantled_buffer := b |}.
Proof. split; simpl; [eauto|]. by intros [?|?]. Qed.

Lemma obtain_reader_permit_keeps fl ctx x w :
  policy_inv w → (x < smp_count w)%nat →
  ends_in (keeps w) (obtain_reader_permit fl ctx x w).
Proof.
  intros Hinv Hx. pose proof Hinv as [Hlen Hslots]. unfold smp_count in Hx.
  destruct (lookup_lt_is_Some_2 (w_readers w) x ltac:(lia)) as [rm Hrm].
  destruct (lookup_lt_is_Some_2 (w_dbs w) x Hx) as [db Hdb].
  unfold obtain_reader_permit. unfold bind at 1. unfold reader_at. rewrite Hrm.
  destruct (decide (rm_state rm = successful_lookup)) as [Hst|Hst].
  - destruct (proj1 (Hslots x rm Hrm)) as [rparts Hrp]; [by rewrite Hst|].
    rewrite Hrp. unfold bind, deref, ret, on_db. simpl. rewrite Hdb. simpl.
    apply keeps_dbs; [done|by rewrite length_insert].
  - unfold bind, may_throw, on_db, ret.
    destruct (fl in_obtain_permit x); simpl; [by apply keeps_refl|].
    rewrite Hdb. simpl. rewrite list_lookup_insert_eq by done. simpl.
    apply (keeps_dbs w); [done|by rewrite !length_insert].
Qed.

Lemma create_reader_keeps fl x permit pr ps w :
  policy_inv w → (x < smp_count w)%nat →
  ends_in (keeps w) (create_reader fl x permit pr ps w).
Proof.
  intros Hinv Hx. pose proof Hinv as [Hlen Hslots]. unfold smp_count in Hx.
  destruct (lookup_lt_is_Some_2 (w_readers w) x ltac:(lia)) as [rm Hrm].
  destruct (lookup_lt_is_Some_2 (w_dbs w) x Hx) as [db Hdb].
  assert (Hxr : (x < length (w_readers w))%nat) by lia.
  unfold create_reader. unfold bind at 1. unfold reader_at. rewrite Hrm.
  case_bool_decide as Hstate.
  { unfold bind, on_db, throw. rewrite Hdb. simpl.
    apply keeps_dbs; [done|by rewrite length_insert]. }
  assert (Hfresh : ∀ dbs', length dbs' = length (w_dbs w) →
    ends_in (keeps w)
      ((do_ set_reader x
              {| rm_state := used;
                 rm_rparts :=
                   Some {| rp_permit := permit; rp_range := Some pr; rp_slice := Some ps;
                           rp_read_operation := true; rp_handle := None;
                           rp_buffer := None |};
                 rm_dismantled_buffer := rm_dismantled_buffer rm |};
        ret {| rd_permit := permit; rd_buffer := []; rd_buffer_size := 0 |})
         (w_with_dbs dbs' w))).
  { intros dbs' Hl. unfold bind, set_reader, ret. simpl.
    destruct (decide (x < length (w_readers w))%nat); [|done]. simpl.
    apply (keeps_slot w x rm); [done..|apply slot_ok_fresh|done]. }
  destruct (decide (rm_state rm = successful_lookup)) as [Hst|Hst].
  2:{ specialize (Hfresh (w_dbs w) eq_refl). by rewrite w_with_dbs_id in Hfresh. }
  destruct (proj2 (Hslots x rm Hrm)) as (rparts & handle & Hrp & Hh); [by left|].
  unfold bind at 1. rewrite Hrp. simpl. unfold bind at 1. rewrite Hh. simpl.
  unfold bind at 1. unfold may_throw.
  destruct (fl in_create_unregister x); simpl; [by apply keeps_refl|].
  unfold bind at 1. unfold on_db. rewrite Hdb.
  unfold db_unregister_inactive_read. simpl.
  destruct (sem_inactive (db_semaphores db (db_semaphore_id db)) !! handle) as [rd|].
  - unfold bind, set_reader. simpl.
    destruct (decide (x < length (w_readers w))%nat); [|done].
    assert (keeps w
      {| w_readers := <[x := rm_with_state used rm]> (w_readers w);
         w_dbs := <[x := db_with_semaphores
                            (<[db_semaphore_id db
                               := {| sem_inactive :=
                                       delete handle
                                         (sem_inactive (db_semaphores db (db_semaphore_id db)));
                                     sem_next_handle :=
                                       sem_next_handle (db_semaphores db (db_semaphore_id db)) |}]>
                               (db_semaphores db)) db]> (w_dbs w);
         w_trace := w_trace w |}).
    { apply (keeps_slot w x rm); [done|done|by rewrite length_insert| |done].
      split; simpl; [rewrite Hrp; eauto|]. by intros [?|?]. }
    by destruct (decide (rd_permit rd ≠ permit)).
  - apply Hfresh. by rewrite length_insert.
Qed.

Lemma update_read_range_keeps x range w rm :
  policy_inv w → w_readers w !! x = Some rm → rm_state rm ≠ inexistent →
  ends_in (keeps w) (update_read_range x range w).
Proof.
  intros Hinv Hrm Hst. pose proof Hinv as [Hlen Hslots].
  assert (Hxr : (x < length (w_readers w))%nat) by (by eapply lookup_lt_Some).
  destruct (Hslots x rm Hrm) as [Hparts Hsaved].
  destruct (Hparts Hst) as [rparts Hrp].
  unfold update_read_range, bind, reader_at, deref, set_reader. rewrite Hrm, Hrp. simpl.
  destruct (decide (x < length (w_readers w))%nat); [|done]. simpl.
  apply (keeps_slot w x rm); [done..| |done].
  split; simpl; [eauto|]. intros Hs. destruct (Hsaved Hs) as (rp & h & ? & ?).
  simplify_eq. eauto.
Qed.

Lemma destroy_reader_keeps x reader w :
  policy_inv w → (x < smp_count w)%nat →
  ends_in (keeps w) (destroy_reader x reader w).
Proof.
  intros Hinv Hx. pose proof Hinv as [Hlen Hslots]. unfold smp_count in Hx.
  destruct (lookup_lt_is_Some_2 (w_readers w) x ltac:(lia)) as [rm Hrm].
  destruct (lookup_lt_is_Some_2 (w_dbs w) x Hx) as [db Hdb].
  unfold destroy_reader. unfold bind at 1. unfold reader_at. rewrite Hrm.
  destruct (decide (rm_state rm = used)) as [Hst|Hst].
  - destruct (proj1 (Hslots x rm Hrm)) as [rparts Hrp]; [by rewrite Hst|].
    unfold bind, deref, set_reader. rewrite Hrp. simpl.
    destruct (decide (x < length (w_readers w))%nat); [|lia]. simpl.
    apply (keeps_slot w x rm); [done..| |done].
    split; simpl; eauto.
  - unfold on_db. rewrite Hdb. simpl. apply keeps_dbs; [done|by rewrite length_insert].
Qed.

Lemma run_policy_calls_keep fl ctx calls : ∀ created w,
  policy_inv w →
  Forall (λ c, (call_shard c < smp_count w)%nat) calls →
  updates_after_create created calls = true →
  created_in created w →
  ends_in (λ w', policy_inv w' ∧ smp_count w' = smp_count w)
    (run_policy_calls fl ctx calls w).
Proof.
  induction calls as [|c calls IH]; intros created w Hinv Hshards Hupd Hcreated;
    [done|].
  apply Forall_cons_1 in Hshards as [Hc Hshards].
  simpl run_policy_calls.
  assert (Hnext : ∀ created' w1,
    updates_after_create created' calls = true →
    keeps w w1 → created_in created' w1 →
    ends_in (λ w', policy_inv w' ∧ smp_count w' = smp_count w)
      (run_policy_calls fl ctx calls w1)).
  { intros created' w1 Hupd' (Hinv1 & Hn1 & _) Hc1.
    eapply ends_in_mono; [|apply (IH created' w1); [done| |done|done]].
    - intros w' [? ?]. split; [done|congruence].
    - by rewrite Hn1. }
  assert (Hstop : ∀ w1, keeps w w1 → policy_inv w1 ∧ smp_count w1 = smp_count w).
  { by intros w1 (? & ? & _). }
  destruct c as [x|x permit pr ps|x range|x reader|x f]; simpl in Hc, Hupd.
  - (* obtain_reader_permit *)
    simpl run_policy_call.
    pose proof (obtain_reader_permit_keeps fl ctx x w Hinv Hc) as H.
    unfold bind at 1. unfold bind at 1.
    destruct (obtain_reader_permit fl ctx x w) as [p w1|e w1|]; simpl in H |- *;
      [|by apply Hstop|done].
    apply (Hnext created); [done..|]. by apply H.
  - (* create_reader *)
    simpl run_policy_call.
    pose proof (create_reader_keeps fl x permit pr ps w Hinv Hc) as H.
    unfold bind at 1. unfold bind at 1.
    destruct (create_reader fl x permit pr ps w) as [rd w1|e w1|] eqn:Hcreate;
      simpl in H |- *; [|by apply Hstop|done].
    apply (Hnext (λ y, bool_decide (y = x) || created y)); [done..|].
    intros y Hy. apply orb_true_iff in Hy as [Hy|Hy].
    + apply bool_decide_eq_true_1 in Hy as ->.
      apply create_reader_Done in Hcreate
        as (_ & _ & rm & rm' & Hrm & _ & -> & Hst & _).
      exists rm'. split; [|by rewrite Hst].
      apply list_lookup_insert_eq. by eapply lookup_lt_Some.
    + exact (proj2 (proj2 H) created Hcreated y Hy).
  - (* update_read_range *)
    simpl run_policy_call. apply andb_true_iff in Hupd as [Hx Hupd].
    destruct (Hcreated x Hx) as (rm & Hrm & Hst).
    pose proof (update_read_range_keeps x range w rm Hinv Hrm Hst) as H.
    unfold bind at 1.
    destruct (update_read_range x range w) as [[] w1|e w1|]; simpl in H |- *;
      [|by apply Hstop|done].
    apply (Hnext created); [done..|]. by apply H.
  - (* destroy_reader *)
    simpl run_policy_call.
    pose proof (destroy_reader_keeps x reader w Hinv Hc) as H.
    unfold bind at 1.
    destruct (destroy_reader x reader w) as [[] w1|e w1|]; simpl in H |- *;
      [|by apply Hstop|done].
    apply (Hnext created); [done..|]. by apply H.
  - (* the shard's database changes *)
    simpl run_policy_call. unfold bind at 1. unfold on_db, modify.
    destruct (lookup_lt_is_Some_2 (w_dbs w) x Hc) as [db Hdb]. rewrite Hdb.
    assert (H : keeps w (w_with_dbs (<[x := f db]> (w_dbs w)) w)).
    { apply keeps_dbs; [done|by rewrite length_insert]. }
    apply (Hnext created); [done..|]. by apply H.
Qed.

(** X12.  The policy never runs into undefined behaviour and keeps its invariant
    under any sequence of calls on shards of the node, with the databases
    changing in between as they like, provided [update_read_range] is only
    called for shards whose reader was created: one slot per shard, remote
    parts in every slot that is not [inexistent], and a handle in every
    slot that [save_readers] would save.  In particular the reads through
    [rm.rparts] and [rparts->handle] in [create_reader], [destroy_reader],
    [obtain_reader_permit] and [update_read_range] are safe. *)
Theorem policy_calls_keep_the_invariant fl ctx calls created w :
  policy_inv w →
  Forall (λ c, (call_shard c < smp_count w)%nat) calls →
  updates_after_create created calls = true →
  created_in created w →
  ends_in (λ w', policy_inv w' ∧ smp_count w' = smp_count w)
    (run_policy_calls fl ctx calls w).
Proof. apply run_policy_calls_keep. Qed.

Lemma policy_inv_slot w x rm' dbs' :
  policy_inv w → (x < length (w_readers w))%nat → length dbs' = length (w_dbs w) →
  slot_ok rm' →
  policy_inv {| w_readers := <[x := rm']> (w_readers w); w_dbs := dbs';
                w_trace := w_trace w |}.
Proof.
  intros [Hlen Hslots] Hx Hl Hok.
  split; [simpl; rewrite length_insert; congruence|]. simpl.
  intros y rmy Hy. destruct (decide (x = y)) as [<-|Hne].
  - rewrite list_lookup_insert_eq in Hy by done. by simplify_eq.
  - rewrite list_lookup_insert_ne in Hy by done. eauto.
Qed.

Lemma slot_ok_default : slot_ok reader_meta_default.
Proof. split; simpl; [done|]. by intros [?|?]. Qed.

Lemma make_read_context_spec local s cmd ranges w db :
  w_dbs w !! local = Some db →
  ∃ ctx w0,
    make_read_context local s cmd ranges w = Done ctx w0 ∧
    policy_inv w0 ∧ smp_count w0 = smp_count w ∧
    w_readers w0 = replicate (smp_count w) reader_meta_default ∧
    ctx_shard ctx = local ∧ ctx_schema ctx = s ∧ ctx_cmd ctx = cmd ∧
    ctx_ranges ctx = ranges.
Proof.
  intros Hdb. assert (Hl : (local < length (w_dbs w))%nat) by (by eapply lookup_lt_Some).
  unfold make_read_context, bind, on_db, get, modify, ret. rewrite Hdb. simpl.
  rewrite list_lookup_insert_eq by done. simpl.
  do 2 eexists. split; [reflexivity|]. simpl. unfold smp_count. simpl.
  rewrite !length_insert. split; [|done]. split.
  - simpl. by rewrite length_replicate, !length_insert.
  - simpl. intros x rm [-> _]%lookup_replicate. apply slot_ok_default.
Qed.

Lemma lookup_readers_shard_keeps fl ctx x w :
  policy_inv w → (x < smp_count w)%nat →
  ends_in (λ w', policy_inv w' ∧ smp_count w' = smp_count w)
    (lookup_readers_shard fl ctx x w).
Proof.
  intros Hinv Hx. pose proof Hinv as [Hlen Hslots]. unfold smp_count in Hx.
  destruct (lookup_lt_is_Some_2 (w_dbs w) x Hx) as [db Hdb].
  assert (Hxr : (x < length (w_readers w))%nat) by lia.
  unfold lookup_readers_shard, bind, may_throw, on_db, set_reader, throw, ret.
  destruct (fl in_lookup_invoke_on x); simpl; [done|].
  destruct (fl in_lookup_querier x); simpl; [done|].
  rewrite Hdb. unfold db_lookup_shard_mutation_querier.
  assert (Hnone : ∀ db',
    ends_in (λ w', policy_inv w' ∧ smp_count w' = smp_count w)
      (if decide (x < length (w_readers w))%nat
       then Done tt (w_with_readers (<[x := reader_meta_default]> (w_readers w))
                       (w_with_dbs (<[x := db']> (w_dbs w)) w))
       else @Undefined world unit)).
  { intros db'. destruct (decide (x < length (w_readers w))%nat); [|done]. simpl.
    split; [|by unfold smp_count; simpl; rewrite length_insert].
    apply (policy_inv_slot w x);
      [done|done|simpl; by rewrite ?length_insert|apply slot_ok_default]. }
  destruct (db_querier_cache db !! cmd_query_uuid (ctx_cmd ctx)) as [q|]; [|apply Hnone].
  destruct (compatible q _ _); [|apply Hnone]. simpl.
  rewrite list_lookup_insert_eq by done. simpl.
  destruct (decide (permit_sem (q_permit q) ≠ db_semaphore_id db)); simpl.
  { split; [|by unfold smp_count; simpl; rewrite !length_insert].
    destruct (keeps_dbs w (<[x := db_with_querier_cache
                                    (delete (cmd_query_uuid (ctx_cmd ctx))
                                       (db_querier_cache db)) db]> (w_dbs w)))
      as (Hi & _); [done|by rewrite length_insert|].
    by rewrite list_insert_insert_eq. }
  rewrite !list_lookup_insert_eq by (by rewrite ?length_insert). simpl.
  destruct (decide (x < length (w_readers w))%nat); [|done]. simpl.
  split; [|by unfold smp_count; simpl; rewrite !length_insert].
  apply (policy_inv_slot w x); [done|done|simpl; by rewrite ?length_insert|].
  split; simpl; eauto.
Qed.

Lemma lookup_readers_keeps fl ctx w :
  policy_inv w →
  ends_in (λ w', policy_inv w' ∧ smp_count w' = smp_count w) (lookup_readers fl ctx w).
Proof.
  intros Hinv. unfold lookup_readers.
  destruct (bool_decide _ || _); [done|].
  unfold bind, get.
  apply (ends_in_parallel_for_each
           (λ w', policy_inv w' ∧ smp_count w' = smp_count w)); [|done].
  intros x st Hx%elem_of_seq [Hi Hn].
  eapply ends_in_mono; [|apply lookup_readers_shard_keeps; [done|lia]].
  intros st' [? ?]. split; [done|congruence].
Qed.

Lemma read_page_scripted fl page result buffer closing ctx w :
  policy_inv w → ctx_ranges ctx ≠ [] →
  Forall (λ c, (call_shard c < smp_count w)%nat) (page ++ closing) →
  updates_after_create (λ _, false) page = true →
  updates_after_create (λ _, false) closing = true →
  ends_in (λ w', policy_inv w' ∧ smp_count w' = smp_count w)
    (read_page (scripted_env fl page result buffer closing) ctx w).
Proof.
  intros Hinv Hranges [Hpage Hclosing]%Forall_app Hup Huc.
  set (I := λ w', policy_inv w' ∧ smp_count w' = smp_count w).
  assert (Hnone : ∀ w', created_in (λ _, false) w') by (by intros w' x).
  assert (Hclose : ∀ w', I w' →
    ends_in I (run_policy_calls fl ctx closing w')).
  { intros w' [Hi Hn]. eapply ends_in_mono;
      [|apply (run_policy_calls_keep fl ctx closing (λ _, false) w');
        [done|by rewrite Hn|done|done]].
    intros st [? ?]. split; [done|congruence]. }
  unfold read_page. simpl consume_page. simpl detach_buffer. simpl reader_close.
  destruct (ctx_ranges ctx) as [|front rest]; [done|]. simpl head.
  unfold bind at 1. unfold deref, ret.
  apply (ends_in_bind I I); [|done|].
  - apply ends_in_as_future. apply (ends_in_bind I I); [|done|].
    + by apply (run_policy_calls_keep fl ctx page (λ _, false) w).
    + intros _ st Hst. by destruct result.
  - intros [e|[[ckey res] cstate]] st Hst.
    + apply (ends_in_bind I I); [by apply Hclose|done|]. by intros.
    + apply (ends_in_bind I I); [done|done|].
      intros b st1 Hst1. apply (ends_in_bind I I); [by apply Hclose|done|]. by intros.
Qed.

Lemma save_readers_ends fl ctx buf cs ck w :
  policy_inv w → (ctx_shard ctx < smp_count w)%nat →
  (∀ t, (shard_of (ctx_schema ctx) t < smp_count w)%nat) →
  ends_in (one_slot_per_shard (smp_count w)) (save_readers fl ctx buf cs ck w).
Proof.
  intros [Hlen Hslots] Hlocal Hrange.
  destruct (decide (cmd_query_uuid (ctx_cmd ctx) = 0)) as [Hz|Hnz].
  - unfold save_readers. rewrite bool_decide_eq_true_2 by done. by split.
  - destruct (save_readers_spec fl ctx buf cs ck w Hnz) as (w' & -> & Hwf & Hl & _).
    + split; [done|]. split; [done|]. split.
      * intros t. rewrite Hlen. apply Hrange.
      * intros x rm Hrm Hs. by apply (Hslots x rm Hrm).
    + simpl. split; [apply Hwf|done].
Qed.

Lemma stop_shard_ends fl x w n :
  one_slot_per_shard n w → (x < n)%nat →
  ends_in (one_slot_per_shard n) (stop_shard fl x w).
Proof.
  intros [Hlen Hn] Hx. unfold smp_count in Hn.
  destruct (lookup_lt_is_Some_2 (w_readers w) x ltac:(lia)) as [rm Hrm].
  destruct (lookup_lt_is_Some_2 (w_dbs w) x ltac:(lia)) as [db Hdb].
  unfold stop_shard, bind, reader_at, may_throw, set_reader, on_db, ret, throw.
  rewrite Hrm. destruct (rm_rparts rm) as [rparts|]; [|by split].
  destruct (fl in_stop_invoke_on x); simpl; [by split|].
  destruct (decide (x < length (w_readers w))%nat); [|lia]. simpl.
  assert (H1 : one_slot_per_shard n
                 (w_with_readers (<[x := rm_with_rparts None rm]> (w_readers w)) w)).
  { split; [simpl; by rewrite length_insert|done]. }
  destruct (rp_handle rparts) as [handle|]; [|done]. simpl.
  destruct (fl in_stop_unregister x); simpl; [done|].
  rewrite Hdb. unfold db_unregister_inactive_read. simpl.
  destruct (sem_inactive (db_semaphores db (permit_sem (rp_permit rparts))) !! handle);
    simpl.
  - rewrite list_lookup_insert_eq by lia. simpl.
    split; unfold smp_count; simpl; by rewrite !length_insert.
  - split; unfold smp_count; simpl; by rewrite !length_insert.
Qed.

Lemma stop_ends fl w n :
  one_slot_per_shard n w → ends_in (one_slot_per_shard n) (stop fl w).
Proof.
  intros Hw. unfold stop, bind, get.
  apply (ends_in_parallel_for_each (one_slot_per_shard n)); [|done].
  intros x st Hx%elem_of_seq Hst. apply stop_shard_ends; [done|].
  destruct Hw as [_ Hn]. lia.
Qed.

Lemma do_query_ends fl page result buffer closing local s cmd ranges w :
  (local < smp_count w)%nat →
  (∀ t, (shard_of s t < smp_count w)%nat) →
  ranges ≠ [] →
  Forall (λ c, (call_shard c < smp_count w)%nat) (page ++ closing) →
  updates_after_create (λ _, false) page = true →
  updates_after_create (λ _, false) closing = true →
  ends_in (one_slot_per_shard (smp_count w))
    (do_query fl (scripted_env fl page result buffer closing) local s cmd ranges w).
Proof.
  intros Hlocal Hrange Hranges Hshards Hup Huc.
  destruct (lookup_lt_is_Some_2 (w_dbs w) local Hlocal) as [db Hdb].
  destruct (make_read_context_spec local s cmd ranges w db Hdb)
    as (ctx & w0 & Hctx & Hinv0 & Hn0 & _ & Hcl & Hcs & _ & Hcr).
  set (n := smp_count w) in *.
  set (I := λ w', policy_inv w' ∧ smp_count w' = n).
  assert (HI : ∀ w', I w' → one_slot_per_shard n w').
  { intros w' [[? _] ?]. by split. }
  unfold do_query. unfold bind at 1. rewrite Hctx.
  apply (ends_in_bind (one_slot_per_shard n) (one_slot_per_shard n)); [|done|].
  - apply ends_in_as_future. unfold do_query_chain.
    apply (ends_in_bind I (one_slot_per_shard n)); [|done|].
    { eapply ends_in_mono; [|by apply lookup_readers_keeps].
      intros st [? ?]. split; [done|congruence]. }
    intros _ w1 [Hi1 Hn1].
    apply (ends_in_bind I (one_slot_per_shard n)); [|done|].
    { eapply ends_in_mono;
        [|apply read_page_scripted; [done|by rewrite Hcr|by rewrite Hn1|done..]].
      intros st [? ?]. split; [done|congruence]. }
    intros r w2 [Hi2 Hn2].
    apply (ends_in_bind (one_slot_per_shard n) (one_slot_per_shard n)); [|done|by intros].
    destruct (_ || _); [|by apply HI].
    rewrite <- Hn2. apply save_readers_ends; [done|rewrite Hcl, Hn2; done|].
    intros t. rewrite Hcs, Hn2. apply Hrange.
  - intros f w3 Hw3.
    apply (ends_in_bind (one_slot_per_shard n) (one_slot_per_shard n));
      [by apply stop_ends|done|].
    intros _ w4 Hw4. by destruct f.
Qed.

(** X13.  On a range vector that is not empty, a query never runs into
    undefined behaviour, whatever the faults are and however the reader of
    the page drives the lifecycle policy while the page is consumed and
    when it is closed, as long as the coordinator's shard and the shards it
    is driven on are shards of the node, the sharder maps every token to a
    shard of the node, and [update_read_range] is only called for a shard
    whose reader was created.  With [max_result_size] present in the
    command this holds of [do_query_on_all_shards] as well.  The range
    vector must not be empty: [read_page] reads [ranges.front()], so that
    on an empty vector a query that gets as far as [read_page] (a stateless
    query or a first page does, as nothing is looked up) is undefined. *)
Theorem do_query_is_defined fl page result buffer closing local s cmd ranges w :
  (local < smp_count w)%nat →
  (∀ t, (shard_of s t < smp_count w)%nat) →
  ranges ≠ [] →
  Forall (λ c, (call_shard c < smp_count w)%nat) (page ++ closing) →
  updates_after_create (λ _, false) page = true →
  updates_after_create (λ _, false) closing = true →
  do_query fl (scripted_env fl page result buffer closing) local s cmd ranges w
  ≠ Undefined ∧
  (is_Some (cmd_max_result_size cmd) →
   do_query_on_all_shards fl (scripted_env fl page result buffer closing) local s cmd
     ranges w ≠ Undefined) ∧
  (cmd_query_uuid cmd = 0 ∨ cmd_is_first_page cmd = true →
   ∀ env, do_query fl env local s cmd [] w = Undefined).
Proof.
  intros Hlocal Hrange Hranges Hshards Hup Huc.
  pose proof (do_query_ends fl page result buffer closing local s cmd ranges w
                Hlocal Hrange Hranges Hshards Hup Huc) as Hq.
  split; [intros Heq; by rewrite Heq in Hq|]. split.
  2:{ intros Hfirst env.
      destruct (lookup_lt_is_Some_2 (w_dbs w) local Hlocal) as [db Hdb].
      destruct (make_read_context_spec local s cmd [] w db Hdb)
        as (ctx & w0 & Hctx & _ & _ & _ & _ & _ & Hcc & Hcr).
      unfold do_query. unfold bind at 1. rewrite Hctx.
      unfold bind at 1. unfold as_future, do_query_chain.
      unfold bind at 1. unfold lookup_readers. rewrite Hcc.
      assert (bool_decide (cmd_query_uuid cmd = 0) || cmd_is_first_page cmd = true)
        as -> by (destruct Hfirst as [->| ->]; [done|by rewrite orb_true_r]).
      unfold ret. unfold bind at 1. unfold read_page. unfold bind at 1.
      by rewrite Hcr. }
  intros [m Hm]. unfold do_query_on_all_shards.
  destruct (lookup_lt_is_Some_2 (w_dbs w) local Hlocal) as [db Hdb].
  destruct (_ || _).
  { unfold bind, on_db. by rewrite Hdb. }
  unfold try_catch, bind, deref, may_throw, ret, throw. rewrite Hm. simpl.
  destruct (fl in_new_mutation_read local); simpl.
  { unfold on_db, db_count_failed_read, modify. by rewrite Hdb. }
  destruct (do_query _ _ _ _ _ _ w) as [r w1|e w1|]; simpl in Hq; [| |done].
  - destruct Hq as [_ Hn]. unfold smp_count in Hn, Hlocal.
    destruct (lookup_lt_is_Some_2 (w_dbs w1) local ltac:(lia)) as [db1 Hdb1].
    unfold on_db, db_count_read, modify. rewrite Hdb1. simpl.
    by rewrite list_lookup_insert_eq by lia.
  - destruct Hq as [_ Hn]. unfold smp_count in Hn, Hlocal.
    destruct (lookup_lt_is_Some_2 (w_dbs w1) local ltac:(lia)) as [db1 Hdb1].
    unfold on_db, db_count_failed_read, modify. by rewrite Hdb1.
Qed.

(** ** More on [stop] *)

Lemma stop_shard_reports_nothing fl x w0 w n :
  one_slot_per_shard n w → same_reports w0 w → (x < n)%nat →
  ends_in (λ w', one_slot_per_shard n w' ∧ same_reports w0 w') (stop_shard fl x w).
Proof.
  intros Hslots Hsame Hx.
  pose proof (stop_shard_ends fl x w n Hslots Hx) as Hends.
  destruct Hslots as [Hlen Hn]. unfold smp_count in Hn.
  destruct (lookup_lt_is_Some_2 (w_readers w) x ltac:(lia)) as [rm Hrm].
  destruct (lookup_lt_is_Some_2 (w_dbs w) x ltac:(lia)) as [db Hdb].
  revert Hends.
  unfold stop_shard, bind, reader_at, may_throw, set_reader, on_db, ret, throw.
  rewrite Hrm. destruct (rm_rparts rm) as [rparts|]; [|done].
  destruct (fl in_stop_invoke_on x); simpl; [done|].
  destruct (decide (x < length (w_readers w))%nat); [|lia]. simpl.
  destruct (rp_handle rparts) as [handle|]; [|done]. simpl.
  destruct (fl in_stop_unregister x); simpl; [done|].
  rewrite Hdb. unfold db_unregister_inactive_read. simpl.
  assert (Hins : ∀ db', db_querier_cache db' = db_querier_cache db →
            db_stats_of db' = db_stats_of db → db_log db' = db_log db →
            db_querier_cache <$> <[x := db']> (w_dbs w) = db_querier_cache <$> w_dbs w ∧
            db_stats_of <$> <[x := db']> (w_dbs w) = db_stats_of <$> w_dbs w ∧
            db_log <$> <[x := db']> (w_dbs w) = db_log <$> w_dbs w).
  { intros db' Hc' Hs' Hl'. rewrite !list_fmap_insert, Hc', Hs', Hl'.
    rewrite !list_insert_id by (by rewrite list_lookup_fmap, Hdb). done. }
  destruct Hsame as (Hc & Hs & Hl).
  destruct (sem_inactive (db_semaphores db (permit_sem (rp_permit rparts))) !! handle);
    simpl.
  - rewrite list_lookup_insert_eq by lia. simpl. rewrite list_insert_insert_eq.
    intros Hends. split; [done|]. unfold same_reports. simpl.
    destruct (Hins (db_with_closed (f :: db_closed db)
                      (db_with_semaphores
                         (<[permit_sem (rp_permit rparts)
                            := {| sem_inactive :=
                                    delete handle
                                      (sem_inactive
                                         (db_semaphores db (permit_sem (rp_permit rparts))));
                                  sem_next_handle :=
                                    sem_next_handle
                                      (db_semaphores db (permit_sem (rp_permit rparts))) |}]>
                            (db_semaphores db)) db))) as (-> & -> & ->); done.
  - intros Hends. split; [done|]. unfold same_reports. simpl.
    destruct (Hins (db_with_semaphores
                      (<[permit_sem (rp_permit rparts)
                         := {| sem_inactive :=
                                 delete handle
                                   (sem_inactive
                                      (db_semaphores db (permit_sem (rp_permit rparts))));
                               sem_next_handle :=
                                 sem_next_handle
                                   (db_semaphores db (permit_sem (rp_permit rparts))) |}]>
                         (db_semaphores db)) db)) as (-> & -> & ->); done.
Qed.

(** X14.  [stop] reports nothing and spares what was saved: however it ends, by
    returning or by the exception of one of its steps, the querier caches,
    the statistics counters and the logs of all shards are as they were
    before.  It is not undefined on a context with one slot per shard. *)
Theorem stop_reports_nothing fl w :
  length (w_readers w) = length (w_dbs w) →
  ends_in (same_reports w) (stop fl w).
Proof.
  intros Hlen. unfold stop, bind, get.
  eapply ends_in_mono;
    [|apply (ends_in_parallel_for_each
               (λ w', one_slot_per_shard (smp_count w) w' ∧ same_reports w w'))].
  - by intros st [_ ?].
  - intros x st Hx%elem_of_seq [Hs Hr]. apply stop_shard_reports_nothing; [done..|lia].
  - by split.
Qed.

(** X15.  After a [stop] whose steps did not throw no slot holds remote parts any
    more, so that a second [stop] finds nothing to do and changes nothing,
    whatever would throw then. *)
Theorem stop_twice fl fl' w :
  length (w_readers w) = length (w_dbs w) →
  (∀ x, fl in_stop_invoke_on x = false ∧ fl in_stop_unregister x = false) →
  ∃ w1, stop fl w = Done tt w1 ∧
    (∀ x rm, w_readers w1 !! x = Some rm → rm_rparts rm = None) ∧
    stop fl' w1 = Done tt w1.
Proof.
  intros Hlen Hfl. unfold stop at 1. unfold bind, get.
  destruct (stop_loop fl (smp_count w) 0 w Hlen ltac:(done) Hfl)
    as (w1 & Heq & Hlr & Hld & Hall).
  exists w1. split; [done|].
  assert (Hnone : ∀ x rm, w_readers w1 !! x = Some rm → rm_rparts rm = None).
  { intros x rm1 Hrm1.
    assert (Hx : (x < length (w_readers w))%nat)
      by (rewrite <- Hlr; by eapply lookup_lt_Some).
    destruct (lookup_lt_is_Some_2 (w_readers w) x Hx) as [rm Hrm].
    destruct (lookup_lt_is_Some_2 (w_dbs w) x ltac:(lia)) as [db Hdb].
    destruct (Hall x rm db Hrm Hdb) as (rm' & db' & Hrm' & _ & Hcase).
    destruct (decide (0 ≤ x < 0 + smp_count w)%nat) as [|Hout].
    - destruct Hcase as [Hnone _]. by simplify_eq.
    - unfold smp_count in Hout. lia. }
  split; [done|]. unfold stop, bind, get.
  apply parallel_for_each_noop. intros x Hx%elem_of_seq.
  unfold smp_count in Hx.
  destruct (lookup_lt_is_Some_2 (w_readers w1) x ltac:(lia)) as [rm1 Hrm1].
  unfold stop_shard, bind, reader_at. rewrite Hrm1. by rewrite (Hnone x rm1 Hrm1).
Qed.

(** ** The counters of [do_query_on_all_shards] *)

(** X16.  With non-zero limits and [max_result_size] present, every call counts
    once on the coordinator's shard.  When the memory accounter cannot be
    obtained, no read context is built: the exception is rethrown with
    [total_reads_failed] incremented and nothing else changed.  When
    [do_query] returns a result, the result is returned with the cache hit
    rate, [total_reads] is incremented and [short_mutation_queries] grows
    by one iff the result is a short read.  When [do_query] throws, the
    same exception is rethrown and [total_reads_failed] is incremented. *)
Theorem do_query_on_all_shards_counts_the_read fl env local s cmd ranges w m :
  cmd_row_limit cmd ≠ 0 →
  slice_partition_row_limit (cmd_slice cmd) ≠ 0 →
  cmd_partition_limit cmd ≠ 0 →
  cmd_max_result_size cmd = Some m →
  (fl in_new_mutation_read local = true →
   ∀ db, w_dbs w !! local = Some db →
     ∃ db',
       do_query_on_all_shards fl env local s cmd ranges w
       = Throw (external_failure in_new_mutation_read local)
           (w_with_dbs (<[local := db']> (w_dbs w)) w) ∧
       total_reads_failed (db_stats_of db') = wadd (total_reads_failed (db_stats_of db)) 1 ∧
       total_reads (db_stats_of db') = total_reads (db_stats_of db) ∧
       db_next_permit db' = db_next_permit db) ∧
  (fl in_new_mutation_read local = false →
   (∀ result w1 db1,
      do_query fl env local s cmd ranges w = Done result w1 →
      w_dbs w1 !! local = Some db1 →
      ∃ db2,
        do_query_on_all_shards fl env local s cmd ranges w
        = Done (result, db_cache_hit_rate db1)
            (w_with_dbs (<[local := db2]> (w_dbs w1)) w1) ∧
        total_reads (db_stats_of db2) = wadd (total_reads (db_stats_of db1)) 1 ∧
        short_mutation_queries (db_stats_of db2)
        = wadd (short_mutation_queries (db_stats_of db1))
            (if is_short_read result then 1 else 0) ∧
        total_reads_failed (db_stats_of db2) = total_reads_failed (db_stats_of db1)) ∧
   (∀ e w1 db1,
      do_query fl env local s cmd ranges w = Throw e w1 →
      w_dbs w1 !! local = Some db1 →
      ∃ db2,
        do_query_on_all_shards fl env local s cmd ranges w
        = Throw e (w_with_dbs (<[local := db2]> (w_dbs w1)) w1) ∧
        total_reads_failed (db_stats_of db2)
        = wadd (total_reads_failed (db_stats_of db1)) 1 ∧
        total_reads (db_stats_of db2) = total_reads (db_stats_of db1) ∧
        short_mutation_queries (db_stats_of db2)
        = short_mutation_queries (db_stats_of db1))).
Proof.
  intros Hr Hpr Hp Hm.
  assert (Hcond : bool_decide (cmd_row_limit cmd = 0)
                  || bool_decide (slice_partition_row_limit (cmd_slice cmd) = 0)
                  || bool_decide (cmd_partition_limit cmd = 0) = false).
  { by rewrite !bool_decide_eq_false_2. }
  unfold do_query_on_all_shards. rewrite Hcond, Hm.
  unfold try_catch, bind, deref, may_throw, ret, throw. simpl.
  split; [intros Hfl db Hdb|intros Hfl; split].
  - rewrite Hfl. simpl. unfold on_db, db_count_failed_read, modify. rewrite Hdb. simpl.
    eexists. split; [reflexivity|]. done.
  - intros result w1 db1 Hq Hdb1. rewrite Hfl. simpl. rewrite Hq.
    assert (Hl : (local < length (w_dbs w1))%nat) by (by eapply lookup_lt_Some).
    unfold on_db, db_count_read, modify. rewrite Hdb1. simpl.
    rewrite list_lookup_insert_eq by done. simpl. rewrite list_insert_insert_eq.
    eexists. split; [reflexivity|]. by destruct (is_short_read result).
  - intros e w1 db1 Hq Hdb1. rewrite Hfl. simpl. rewrite Hq.
    unfold on_db, db_count_failed_read, modify. rewrite Hdb1. simpl.
    eexists. split; [reflexivity|]. done.
Qed.

(** ** From the policy to the querier *)

(** X17.  How the policy and the save compose on one shard: after
    [update_read_range], [destroy_reader] on the shard in state [used] and
    [save_reader], with the stopped reader still registered and no step of
    the save throwing, the querier stored for the shard records the range
    of [update_read_range] (not the one the reader was created with), the
    slice and permit of the remote parts, and a reader that delivers the
    dismantled fragments, then the fragments handed over by
    [destroy_reader], then its own buffer; the slot is back to the
    default. *)
Theorem saved_range_is_the_updated_one
    fl ctx x range stopped pk ck w rm rparts db reader :
  w_readers w !! x = Some rm → rm_state rm = used → rm_rparts rm = Some rparts →
  w_dbs w !! x = Some db →
  sem_inactive (db_semaphores db (permit_sem (rp_permit rparts))) !! sr_handle stopped
  = Some reader →
  fl in_save_invoke_on x = false → fl in_save_unregister x = false →
  fl in_save_unpop x = false → fl in_save_insert x = false →
  ∃ w1 w2 w3 db3 q,
    update_read_range x range w = Done tt w1 ∧
    destroy_reader x stopped w1 = Done tt w2 ∧
    save_reader fl ctx x pk ck w2 = Done tt w3 ∧
    w_readers w3 !! x = Some reader_meta_default ∧
    w_dbs w3 !! x = Some db3 ∧
    db_querier_cache db3 !! cmd_query_uuid (ctx_cmd ctx) = Some q ∧
    q_reader_range q = Some range ∧
    q_reader_slice q = rp_slice rparts ∧ q_permit q = rp_permit rparts ∧
    q_last_pkey q = pk ∧ q_last_ckey q = ck ∧
    rd_buffer (q_reader q)
    = get_dismantled_buffer rm ++ sr_unconsumed_fragments stopped ++ rd_buffer reader.
Proof.
  intros Hrm Hst Hrp Hdb Hreg Hf0 Hf1 Hf2 Hf3.
  assert (Hx : (x < length (w_readers w))%nat) by (by eapply lookup_lt_Some).
  assert (Hxd : (x < length (w_dbs w))%nat) by (by eapply lookup_lt_Some).
  set (rp1 := {| rp_permit := rp_permit rparts; rp_range := Some range;
                 rp_slice := rp_slice rparts;
                 rp_read_operation := rp_read_operation rparts;
                 rp_handle := rp_handle rparts; rp_buffer := rp_buffer rparts |}).
  set (w1 := w_with_readers (<[x := rm_with_rparts (Some rp1) rm]> (w_readers w)) w).
  assert (H1 : update_read_range x range w = Done tt w1).
  { unfold update_read_range, bind, reader_at, deref, set_reader. rewrite Hrm, Hrp. simpl.
    by destruct (decide (x < length (w_readers w))%nat). }
  set (rp2 := {| rp_permit := rp_permit rparts; rp_range := Some range;
                 rp_slice := rp_slice rparts;
                 rp_read_operation := rp_read_operation rparts;
                 rp_handle := Some (sr_handle stopped);
                 rp_buffer := Some (sr_unconsumed_fragments stopped) |}).
  set (rm2 := {| rm_state := saving; rm_rparts := Some rp2;
                 rm_dismantled_buffer := rm_dismantled_buffer rm |}).
  set (w2 := w_with_readers (<[x := rm2]> (w_readers w)) w).
  assert (H2 : destroy_reader x stopped w1 = Done tt w2).
  { unfold destroy_reader, bind, reader_at, deref, set_reader. simpl.
    rewrite list_lookup_insert_eq by done. simpl. rewrite Hst.
    destruct (decide (used = used)); [|done]. simpl. rewrite length_insert.
    destruct (decide (x < length (w_readers w))%nat); [|done].
    unfold w2, w_with_readers. simpl. by rewrite list_insert_insert_eq. }
  destruct (save_step_spec fl ctx x pk ck rm2 rp2 (sr_handle stopped) reader db
              eq_refl eq_refl Hreg Hf1 Hf2 Hf3)
    as (db3 & q & Hstep & Hq & Hqb & _ & _ & Hq2 & Hq3 & Hq4 & Hq5 & Hq6 & _).
  exists w1, w2,
    (w_with_dbs (<[x := db3]> (w_dbs w))
       (w_with_readers (<[x := reader_meta_default]> (w_readers w)) w)), db3, q.
  split; [done|]. split; [done|]. split.
  { unfold save_reader, bind, reader_at, set_reader, try_catch, may_throw.
    unfold w2 at 1 2. simpl.
    rewrite list_lookup_insert_eq by done. cbn [w_readers w_with_readers].
    rewrite length_insert.
    destruct (decide (x < length (w_readers w))%nat); [|done].
    rewrite Hf0. simpl. unfold on_db. simpl. rewrite Hdb.
    unfold save_on_shard, try_catch. rewrite Hstep.
    unfold w_with_dbs, w_with_readers. simpl. by rewrite list_insert_insert_eq. }
  simpl. rewrite !list_lookup_insert_eq by done.
  repeat split; try done. rewrite Hqb. simpl. by rewrite <- app_assoc.
Qed.

(** ** The multi-range reader delivers every range *)

Section read_all_facts.
Variable ranges : list (list mutation_fragment_v2).
Variable chunk : underlying_reader → nat.

Local Open Scope nat_scope.

Lemma read_all_spec fuel rounds : ∀ m acc,
  2 * length ranges + 2 ≤ fuel →
  mrr_reading ranges m → mrr_buffer m = [] →
  length (mrr_future ranges m) + (if mrr_end_of_stream m then 0 else 1) < rounds →
  read_all ranges chunk rounds fuel m acc = Some (acc ++ mrr_future ranges m).
Proof.
  induction rounds as [|rounds IH]; intros m acc Hfuel Hr Hb Hrounds; [lia|].
  simpl read_all. rewrite Hb. simpl is_empty. rewrite andb_true_r.
  destruct (mrr_end_of_stream m) eqn:Heos.
  { unfold mrr_future. by rewrite Heos, app_nil_r. }
  unfold fill_buffer. rewrite Heos.
  destruct (fill_loop_stream ranges chunk fuel m Hr Heos) as (m' & -> & Hr' & Hsame & Hempty).
  { pose proof (mrr_need_bound ranges m). lia. }
  rewrite Hb in Hsame. simpl in Hsame.
  set (m2 := {| mrr_buffer := []; mrr_end_of_stream := mrr_end_of_stream m';
                mrr_reader := mrr_reader m'; mrr_it := mrr_it m' |}).
  assert (Hf2 : mrr_future ranges m2 = mrr_future ranges m') by done.
  rewrite (IH m2 (acc ++ mrr_buffer m')); [|done|done|done|].
  - by rewrite Hf2, <- app_assoc, Hsame.
  - rewrite Hf2. simpl. apply (f_equal length) in Hsame. rewrite length_app in Hsame.
    destruct (mrr_buffer m') as [|f b] eqn:Hb'.
    + rewrite (Hempty eq_refl). unfold mrr_future. rewrite (Hempty eq_refl). simpl. lia.
    + simpl in Hsame. destruct (mrr_end_of_stream m'); lia.
Qed.

(** X18.  A consumer that reads the wrapper, as [read_page] builds it, by
    [fill_buffer()] and [detach_buffer()] until the end of the stream gets
    every fragment of every range of the vector exactly once, range after
    range in the order of the vector and each range in its own order (an
    empty range contributes nothing and does not end the stream); the
    wrapper reports the end of the stream only after the last range. *)
Theorem read_all_delivers_every_range m0 fuel rounds :
  mrr_initial ranges = Some m0 →
  2 * length ranges + 2 ≤ fuel →
  length (tag_ranges 0 ranges) + 2 ≤ rounds →
  read_all ranges chunk rounds fuel m0 [] = Some (tag_ranges 0 ranges).
Proof.
  intros Hinit Hfuel Hrounds. unfold mrr_initial in Hinit.
  destruct ranges as [|first rest] eqn:Hranges; [done|].
  simpl in Hinit. injection Hinit as <-. rewrite <- Hranges in *.
  set (m0 := {| mrr_buffer := []; mrr_end_of_stream := false;
                mrr_reader := {| u_buffer := []; u_end_of_stream := false;
                                 u_range := 0; u_pending := first |};
                mrr_it := 0 |}).
  assert (Hfut : mrr_future ranges m0 = tag_ranges 0 ranges).
  { unfold mrr_future. simpl. by rewrite Hranges. }
  rewrite (read_all_spec fuel rounds m0 []); [by rewrite Hfut|done| |done|].
  - split; [done|]. intros _. simpl. rewrite Hranges. simpl. split; [lia|done].
  - rewrite Hfut. simpl. lia.
Qed.
End read_all_facts.

(** ** A reader that was looked up and not used *)


(** ** Every shard keeps to its own slot *)

Lemma only_shard_refl x w : only_shard x w w.
Proof. by repeat split. Qed.

Lemma only_shard_trans x w1 w2 w3 :
  only_shard x w1 w2 → only_shard x w2 w3 → only_shard x w1 w3.
Proof.
  intros (Ht1 & Hr1 & Hd1 & Hy1) (Ht2 & Hr2 & Hd2 & Hy2).
  split; [congruence|]. split; [congruence|]. split; [congruence|].
  intros y Hy. destruct (Hy1 y Hy) as [? ?], (Hy2 y Hy) as [? ?].
  split; congruence.
Qed.

Lemma shard_local_bind {A B} x (m : M world A) (k : A → M world B) :
  shard_local x m → (∀ a, shard_local x (k a)) → shard_local x (bind m k).
Proof.
  intros Hm Hk w. unfold bind. specialize (Hm w).
  destruct (m w) as [a w1|e w1|]; [|done..].
  specialize (Hk a w1).
  destruct (k a w1); [| |done]; by eapply only_shard_trans.
Qed.

Lemma shard_local_ret {A} x (a : A) : shard_local x (ret a).
Proof. intros w. apply only_shard_refl. Qed.

Lemma shard_local_throw {A} x e : shard_local x (@throw world A e).
Proof. intros w. apply only_shard_refl. Qed.

Lemma shard_local_deref {A} x (o : option A) : shard_local x (deref o).
Proof. intros w. destruct o; simpl; [apply only_shard_refl|done]. Qed.

Lemma shard_local_may_throw x fl site shard : shard_local x (may_throw fl site shard).
Proof. intros w. unfold may_throw. destruct (fl site shard); apply only_shard_refl. Qed.

Lemma shard_local_reader_at x : shard_local x (reader_at x).
Proof.
  intros w. unfold reader_at. destruct (w_readers w !! x); [apply only_shard_refl|done].
Qed.

Lemma shard_local_set_reader x rm : shard_local x (set_reader x rm).
Proof.
  intros w. unfold set_reader. destruct (decide (x < length (w_readers w))%nat); [|done].
  repeat split; simpl; [by rewrite length_insert|by rewrite list_lookup_insert_ne].
Qed.

Lemma shard_local_on_db {A} x (m : M database A) : shard_local x (on_db x m).
Proof.
  intros w. unfold on_db. destruct (w_dbs w !! x) as [db|]; [|done].
  destruct (m db); [| |done];
    (repeat split; simpl; [by rewrite length_insert|by rewrite list_lookup_insert_ne]).
Qed.

Ltac shard_local_step :=
  first
    [ apply shard_local_ret | apply shard_local_throw | apply shard_local_deref
    | apply shard_local_may_throw | apply shard_local_reader_at
    | apply shard_local_set_reader | apply shard_local_on_db
    | apply shard_local_bind; [|intros ?]
    | match goal with
      | |- shard_local _ (if ?c then _ else _) => destruct c
      | |- shard_local _ (match ?o with _ => _ end) => destruct o
      end ].

(** X20.  The code that runs on a shard keeps to that shard: the four functions
    of the lifecycle policy, the lambda that [lookup_readers] runs on every
    shard and the one of [stop], called on shard [x], change nothing but the
    reader slot of [x] and the database of [x], however they end.  No other
    slot of the reader vector is read for writing, no other database is
    touched. *)
Theorem policy_is_shard_local fl ctx x :
  shard_local x (obtain_reader_permit fl ctx x) ∧
  (∀ permit pr ps, shard_local x (create_reader fl x permit pr ps)) ∧
  (∀ range, shard_local x (update_read_range x range)) ∧
  (∀ reader, shard_local x (destroy_reader x reader)) ∧
  shard_local x (lookup_readers_shard fl ctx x) ∧
  shard_local x (stop_shard fl x).
Proof.
  repeat split; intros;
    unfold obtain_reader_permit, create_reader, update_read_range, destroy_reader,
      lookup_readers_shard, stop_shard;
    repeat shard_local_step.
Qed.

(** ** The names of the states *)

(** X21.  The warnings name the state of a shard by [reader_state_to_string]:
    the four states have four different names, and none of them is the
    name ["invalid"] that the function keeps for a value outside the
    enumeration. *)
Theorem reader_state_names_are_distinct :
  (∀ rs, rs ∈ reader_states) ∧
  NoDup (reader_state_to_string <$> reader_states) ∧
  Forall (λ rs, reader_state_to_string rs ≠ "invalid") reader_states.
Proof.
  split.
  - intros []; apply (bool_decide_unpack _); by vm_compute.
  - split; [|by repeat constructor].
    apply (bool_decide_unpack _). by vm_compute.
Qed.

(** ** [lookup_readers] on all shards *)

Lemma lookup_readers_shard_spec fl ctx x w db :
  w_dbs w !! x = Some db → (x < length (w_readers w))%nat →
  fl in_lookup_invoke_on x = false → fl in_lookup_querier x = false →
  own_semaphore ctx db →
  ∃ w1 db1,
    lookup_readers_shard fl ctx x w = Done tt w1 ∧
    w_readers w1 = <[x := looked_up ctx db]> (w_readers w) ∧
    w_dbs w1 = <[x := db1]> (w_dbs w) ∧
    db_querier_cache db1 !! cmd_query_uuid (ctx_cmd ctx) = None.
Proof.
  intros Hdb Hx Hf1 Hf2 Hown.
  assert (Hxd : (x < length (w_dbs w))%nat) by (by eapply lookup_lt_Some).
  unfold lookup_readers_shard, looked_up, own_semaphore in *.
  unfold bind, may_throw, ret, on_db, set_reader.
  rewrite Hf1, Hf2, Hdb. simpl.
  unfold db_lookup_shard_mutation_querier.
  destruct (db_querier_cache db !! cmd_query_uuid (ctx_cmd ctx)) as [q|] eqn:Hq.
  2:{ simpl. destruct (decide (x < length (w_readers w))%nat); [|done].
      do 2 eexists. split; [reflexivity|]. done. }
  destruct (compatible q _ _) eqn:Hmatch; simpl.
  2:{ destruct (decide (x < length (w_readers w))%nat); [|done].
      do 2 eexists. split; [reflexivity|]. simpl.
      split; [done|]. split; [done|]. apply lookup_delete_eq. }
  rewrite list_lookup_insert_eq by done. simpl.
  destruct (decide (permit_sem (q_permit q) ≠ db_semaphore_id db)) as [Hne|_].
  { by destruct Hne, (Hown q). }
  simpl. rewrite !list_lookup_insert_eq by (by rewrite ?length_insert). simpl.
  destruct (decide (x < length (w_readers w))%nat); [|done].
  do 2 eexists. split; [reflexivity|]. simpl.
  rewrite !list_insert_insert_eq.
  split; [done|]. split; [done|]. apply lookup_delete_eq.
Qed.

Lemma lookup_loop fl ctx n : ∀ i w,
  length (w_readers w) = length (w_dbs w) →
  (i + n ≤ length (w_dbs w))%nat →
  (∀ x, fl in_lookup_invoke_on x = false ∧ fl in_lookup_querier x = false) →
  (∀ x db, w_dbs w !! x = Some db → own_semaphore ctx db) →
  ∃ w',
    parallel_for_each (seq i n) (lookup_readers_shard fl ctx) w = Done tt w' ∧
    length (w_readers w') = length (w_readers w) ∧
    length (w_dbs w') = length (w_dbs w) ∧
    ∀ x db, w_dbs w !! x = Some db →
      if decide (i ≤ x < i + n)%nat
      then w_readers w' !! x = Some (looked_up ctx db) ∧
           ∃ db1, w_dbs w' !! x = Some db1 ∧
                  db_querier_cache db1 !! cmd_query_uuid (ctx_cmd ctx) = None
      else w_readers w' !! x = w_readers w !! x ∧ w_dbs w' !! x = Some db.
Proof.
  induction n as [|n IH]; intros i w Hlen Hin Hfl Hown.
  - exists w. repeat split; try done. intros x db Hdb.
    destruct (decide (i ≤ x < i + 0)%nat); [lia|done].
  - simpl seq. simpl parallel_for_each.
    destruct (lookup_lt_is_Some_2 (w_dbs w) i ltac:(lia)) as [dbi Hdbi].
    destruct (lookup_readers_shard_spec fl ctx i w dbi Hdbi ltac:(lia)
                (proj1 (Hfl i)) (proj2 (Hfl i)) (Hown i dbi Hdbi))
      as (w1 & db1 & Heq1 & Hr1 & Hd1 & Hc1).
    rewrite Heq1.
    destruct (IH (S i) w1) as (w' & Heq & Hlr & Hld & Hall).
    { by rewrite Hr1, Hd1, !length_insert. }
    { rewrite Hd1, length_insert. lia. }
    { done. }
    { intros x db. rewrite Hd1. destruct (decide (x = i)) as [->|Hne].
      - rewrite list_lookup_insert_eq by lia. intros [= <-] q Hq. by rewrite Hc1 in Hq.
      - rewrite list_lookup_insert_ne by done. apply Hown. }
    exists w'. split; [done|].
    split; [by rewrite Hlr, Hr1, length_insert|].
    split; [by rewrite Hld, Hd1, length_insert|].
    intros x db Hdb. destruct (decide (x = i)) as [->|Hne].
    + specialize (Hall i db1). rewrite Hd1, list_lookup_insert_eq in Hall by lia.
      specialize (Hall eq_refl).
      destruct (decide (S i ≤ i < S i + n)%nat); [lia|]. destruct Hall as [Hri Hdi].
      destruct (decide (i ≤ i < i + S n)%nat); [|lia].
      split; [|by eauto]. rewrite Hri, Hr1. simplify_eq.
      apply list_lookup_insert_eq. lia.
    + specialize (Hall x db). rewrite Hd1, list_lookup_insert_ne in Hall by done.
      specialize (Hall Hdb). rewrite Hr1, list_lookup_insert_ne in Hall by done.
      destruct (decide (S i ≤ x < S i + n)%nat), (decide (i ≤ x < i + S n)%nat);
        try done; lia.
Qed.


(** ** What a failed save leaves behind *)

(** The end of a save that threw inside the lambda: the database of the
    shard has the failure logged and counted, nothing else. *)
Ltac failed_on_shard x db Hdb Hkeep :=
  match goal with
  | |- context [db_with_stats ?st ?d] =>
      let db' := fresh "db'" in
      set (db' := db_with_stats st d);
      destruct (Hkeep x db db' Hdb eq_refl eq_refl) as [? ?];
      eexists _, db'; split; [reflexivity|]; simpl;
      split; [done|]; split; [done|]; split; [done|];
      rewrite list_lookup_insert_eq by done; split; [done|];
      split; [first [done|simpl; rewrite fn_lookup_insert; apply lookup_delete_eq]|];
      exists x, db, db'; rewrite list_lookup_insert_eq by done; by repeat split
  end.

(** X23.  The save of a shard whose reader is still registered fails
    exactly when the cross-shard call, the unregistration, the storing of
    the querier or, if there is a fragment to push back, pushing it back
    throws.  When it fails, [save_reader] still returns, the slot of the
    shard is reset to the default all the same, and the reader is neither
    stored nor closed: no querier cache and no list of closed readers
    changes on any shard.  If the cross-shard call or the unregistration
    threw, the reader is still registered as an inactive read; if a later
    step threw, it has left the semaphore's registry and the code does
    nothing more with it.  The failure is counted once, on the
    coordinator's shard when the cross-shard call failed and on the shard
    itself otherwise.  When no step fails (a throwing push-back does not
    matter where nothing is pushed back), the querier is stored with the
    pushed-back fragments in front of the reader's buffer and no failure is
    counted. *)
Theorem failed_save_neither_stores_nor_closes
    fl ctx x pk ck w rm rparts handle reader db :
  w_readers w !! x = Some rm → rm_rparts rm = Some rparts →
  rp_handle rparts = Some handle → w_dbs w !! x = Some db →
  (ctx_shard ctx < length (w_dbs w))%nat →
  sem_inactive (db_semaphores db (permit_sem (rp_permit rparts))) !! handle = Some reader →
  let fails := fl in_save_invoke_on x || fl in_save_unregister x
               || (fl in_save_unpop x && negb (is_empty (pushed_back rm)))
               || fl in_save_insert x in
  (fails = true →
   ∃ w' db',
     save_reader fl ctx x pk ck w = Done tt w' ∧
     w_readers w' = <[x := reader_meta_default]> (w_readers w) ∧
     db_querier_cache <$> w_dbs w' = db_querier_cache <$> w_dbs w ∧
     db_closed <$> w_dbs w' = db_closed <$> w_dbs w ∧
     w_dbs w' !! x = Some db' ∧
     sem_inactive (db_semaphores db' (permit_sem (rp_permit rparts))) !! handle
     = (if fl in_save_invoke_on x || fl in_save_unregister x then Some reader else None) ∧
     ∃ payer dbp dbp',
       payer = (if fl in_save_invoke_on x then ctx_shard ctx else x) ∧
       w_dbs w !! payer = Some dbp ∧ w_dbs w' !! payer = Some dbp' ∧
       failed_reader_saves dbp' = wadd (failed_reader_saves dbp) 1) ∧
  (fails = false →
   ∃ w' db' q,
     save_reader fl ctx x pk ck w = Done tt w' ∧
     w_readers w' = <[x := reader_meta_default]> (w_readers w) ∧
     w_dbs w' = <[x := db']> (w_dbs w) ∧
     db_querier_cache db' !! cmd_query_uuid (ctx_cmd ctx) = Some q ∧
     rd_buffer (q_reader q)
     = (get_dismantled_buffer rm ++ default [] (rp_buffer rparts)) ++ rd_buffer reader ∧
     sem_inactive (db_semaphores db' (permit_sem (rp_permit rparts))) !! handle = None ∧
     failed_reader_saves db' = failed_reader_saves db).
Proof.
  intros Hrm Hrp Hh Hdb Hlocal Hreg fails. subst fails.
  assert (Hx : (x < length (w_readers w))%nat) by (by eapply lookup_lt_Some).
  assert (Hxd : (x < length (w_dbs w))%nat) by (by eapply lookup_lt_Some).
  destruct (lookup_lt_is_Some_2 (w_dbs w) _ Hlocal) as [dbl Hdbl].
  assert (Hkeep : ∀ y dby dby', w_dbs w !! y = Some dby →
            db_querier_cache dby' = db_querier_cache dby →
            db_closed dby' = db_closed dby →
            db_querier_cache <$> <[y := dby']> (w_dbs w) = db_querier_cache <$> w_dbs w ∧
            db_closed <$> <[y := dby']> (w_dbs w) = db_closed <$> w_dbs w).
  { intros y dby dby' Hy Hc Hcl. rewrite !list_fmap_insert, Hc, Hcl.
    rewrite !list_insert_id by (by rewrite list_lookup_fmap, Hy). done. }
  split.
  - intros Hfails.
    unfold save_reader, bind, reader_at, set_reader, try_catch, may_throw.
    rewrite Hrm. destruct (decide (x < length (w_readers w))%nat); [|done].
    destruct (fl in_save_invoke_on x) eqn:Hf0; simpl.
    + (* the cross-shard call fails *)
      unfold on_db. simpl. rewrite Hdbl. simpl.
      set (dbl' := db_with_stats _ _).
      destruct (Hkeep (ctx_shard ctx) dbl dbl' Hdbl eq_refl eq_refl) as [Hc Hcl].
      destruct (decide (ctx_shard ctx = x)) as [Heq|Hne].
      * rewrite Heq in *. assert (dbl = db) by congruence. subst dbl.
        exists (w_with_dbs (<[x := dbl']> (w_dbs w))
                  (w_with_readers (<[x := reader_meta_default]> (w_readers w)) w)), dbl'.
        split; [done|]. simpl. split; [done|]. split; [done|]. split; [done|].
        rewrite list_lookup_insert_eq by done. split; [done|]. split; [done|].
        exists x, db, dbl'. rewrite list_lookup_insert_eq by done. by repeat split.
      * exists (w_with_dbs (<[ctx_shard ctx := dbl']> (w_dbs w))
                  (w_with_readers (<[x := reader_meta_default]> (w_readers w)) w)), db.
        split; [done|]. simpl. split; [done|]. split; [done|]. split; [done|].
        rewrite list_lookup_insert_ne by done. split; [done|]. split; [done|].
        exists (ctx_shard ctx), dbl, dbl'. rewrite list_lookup_insert_eq by done.
        by repeat split.
    + (* the lambda runs on the shard and catches *)
      unfold on_db. simpl. rewrite Hdb.
      unfold save_on_shard, try_catch, save_step, bind, deref, ret, may_throw, throw.
      rewrite Hrp. simpl. rewrite Hh. simpl.
      destruct (fl in_save_unregister x) eqn:Hf1; simpl.
      { failed_on_shard x db Hdb Hkeep. }
      unfold db_unregister_inactive_read. simpl. rewrite Hreg. simpl.
      unfold pushed_back in Hfails.
      rewrite Hrp, is_empty_app, negb_andb, andb_orb_distrib_r in Hfails.
      simpl in Hfails.
      rewrite unpop_saved_buffer_outcome.
      destruct (fl in_save_unpop x && negb (is_empty (default [] (rp_buffer rparts))));
        simpl.
      { failed_on_shard x db Hdb Hkeep. }
      rewrite unpop_saved_buffer_outcome.
      destruct (fl in_save_unpop x
                && negb (is_empty (default [] (rm_dismantled_buffer rm)))); simpl.
      { failed_on_shard x db Hdb Hkeep. }
      simpl in Hfails. rewrite Hfails.
      destruct (unpop_buffer (ctx_schema ctx) (rm_dismantled_buffer rm) _)
        as [fragments rd]. simpl.
      failed_on_shard x db Hdb Hkeep.
  - intros Hok.
    apply orb_false_elim in Hok as [Hok Hf3].
    apply orb_false_elim in Hok as [Hok Hf2].
    apply orb_false_elim in Hok as [Hf0 Hf1].
    destruct (save_step_done fl ctx x pk ck rm rparts handle reader db
                Hrp Hh Hreg Hf1 Hf2 Hf3)
      as (db' & q & Hstep & Hq & Hbuf & _ & _ & _ & _ & _ & _ & _ & Hgone & _ & _ & Hfailed).
    exists (w_with_dbs (<[x := db']> (w_dbs w))
              (w_with_readers (<[x := reader_meta_default]> (w_readers w)) w)), db', q.
    split; [|done].
    unfold save_reader, bind, reader_at, set_reader, try_catch, may_throw.
    rewrite Hrm. destruct (decide (x < length (w_readers w))%nat); [|done].
    rewrite Hf0. simpl. unfold on_db. simpl. rewrite Hdb.
    unfold save_on_shard, try_catch. by rewrite Hstep.
Qed.

(** ** The further theorems at the examples *)

Lemma dismantle_combined_buffer_counts_every_fragment_witness :
  let stats := {| dbs_partitions := 1; dbs_fragments := 5; dbs_bytes := 50;
                  dbs_discarded_partitions := 1; dbs_discarded_fragments := 2;
                  dbs_discarded_bytes := 20 |} in
  let readers' :=
    [ {| rm_state := saving; rm_rparts := Some (ex_rparts 0);
         rm_dismantled_buffer :=
           Some [ ex_row 1; mf_partition_end;
                  mf_partition_start (ex_ps 2); ex_row 2; mf_partition_end ] |};
      {| rm_state := used; rm_rparts := Some (ex_rparts 1);
         rm_dismantled_buffer := None |} ] in
  dismantle_combined_buffer ex_schema ex_readers ex_buffer (ps_key (ex_ps 4))
  = Some (stats, readers') ∧
  wadd (dbs_partitions stats) (dbs_discarded_partitions stats)
  = count_partitions ex_buffer mod size_t_modulus ∧
  wadd (dbs_fragments stats) (dbs_discarded_fragments stats)
  = count_fragments ex_buffer mod size_t_modulus ∧
  wadd (dbs_bytes stats) (dbs_discarded_bytes stats)
  = count_bytes ex_schema ex_buffer mod size_t_modulus.
Proof.
  intros stats readers'. split; [reflexivity|].
  exact (dismantle_combined_buffer_counts_every_fragment ex_schema ex_readers ex_buffer
           (ps_key (ex_ps 4)) stats readers' eq_refl).
Defined.

Lemma save_step_stores_the_stream_witness :
  (rm_rparts ex_saving_rm = Some ex_saving_rparts ∧
   rp_handle ex_saving_rparts = Some 0%nat ∧
   sem_inactive (db_semaphores ex_lookup_db (permit_sem (rp_permit ex_saving_rparts)))
     !! 0%nat = Some ex_reader ∧
   no_faults in_save_unregister 1%nat = false ∧ no_faults in_save_unpop 1%nat = false ∧
   no_faults in_save_insert 1%nat = false) ∧
  ∃ db' q,
    save_step no_faults ex_ctx 1 (ps_key (ex_ps 3)) (Some 5%nat) ex_saving_rm ex_lookup_db
    = Done tt db' ∧
    db_querier_cache db' !! cmd_query_uuid (ctx_cmd ex_ctx) = Some q ∧
    rd_buffer (q_reader q) = ([ex_row 3] ++ [ex_row 4]) ++ [ex_row 5] ∧
    rd_permit (q_reader q) = rd_permit ex_reader ∧
    q_ranges q = ctx_ranges ex_ctx ∧ q_reader_range q = rp_range ex_saving_rparts ∧
    q_reader_slice q = rp_slice ex_saving_rparts ∧
    q_permit q = rp_permit ex_saving_rparts ∧
    q_last_pkey q = ps_key (ex_ps 3) ∧ q_last_ckey q = Some 5%nat ∧
    sem_inactive (db_semaphores db' (permit_sem (rp_permit ex_saving_rparts))) !! 0%nat
    = None ∧
    unpopped_fragments db'
    = (unpopped_fragments ex_lookup_db + N.of_nat (length ([ex_row 3] ++ [ex_row 4])))
      mod size_t_modulus ∧
    unpopped_bytes db'
    = (unpopped_bytes ex_lookup_db
       + count_bytes (ctx_schema ex_ctx) ([ex_row 3] ++ [ex_row 4])) mod size_t_modulus ∧
    failed_reader_saves db' = failed_reader_saves ex_lookup_db.
Proof.
  split; [repeat split; reflexivity|].
  exact (save_step_stores_the_stream no_faults ex_ctx 1 (ps_key (ex_ps 3)) (Some 5%nat)
           ex_saving_rm ex_saving_rparts 0%nat ex_reader ex_lookup_db
           eq_refl eq_refl eq_refl eq_refl eq_refl eq_refl).
Defined.

Lemma evicted_reader_is_not_saved_witness :
  (rm_rparts ex_saving_rm = Some ex_saving_rparts ∧
   rp_handle ex_saving_rparts = Some 0%nat ∧
   sem_inactive (db_semaphores ex_db (permit_sem (rp_permit ex_saving_rparts))) !! 0%nat
   = None ∧
   no_faults in_save_unregister 1%nat = false) ∧
  ∃ db',
    save_on_shard no_faults ex_ctx 1 (ps_key (ex_ps 3)) (Some 5%nat) ex_saving_rm ex_db
    = Done tt db' ∧
    db_querier_cache db' = db_querier_cache ex_db ∧
    db_stats_of db' = db_stats_of ex_db ∧
    db_log db' = db_log ex_db ∧
    db_closed db' = db_closed ex_db.
Proof.
  split; [repeat split; reflexivity|].
  exact (evicted_reader_is_not_saved no_faults ex_ctx 1 (ps_key (ex_ps 3)) (Some 5%nat)
           ex_saving_rm ex_saving_rparts 0%nat ex_db eq_refl eq_refl eq_refl eq_refl).
Defined.

Lemma ex_w1_wf_no_faults : wf_save ex_ctx (ex_w1 no_faults true).
Proof.
  split; [reflexivity|]. split; [vm_compute; lia|]. split.
  - exact ex_schema_in_range.
  - intros [|[|x]] rm Hx Hsave; vm_compute in Hx; simplify_eq.
    + by destruct Hsave.
    + do 2 eexists. split; reflexivity.
Qed.

Lemma save_readers_stores_the_unread_stream_witness :
  let rparts := {| rp_permit := {| permit_id := 0; permit_sem := 0 |};
                   rp_range := Some (0, 100)%Z; rp_slice := Some ex_slice;
                   rp_read_operation := true; rp_handle := Some 0%nat;
                   rp_buffer := Some [ex_row 4] |} in
  let rm := {| rm_state := saving; rm_rparts := Some rparts;
               rm_dismantled_buffer := None |} in
  (cmd_query_uuid (ctx_cmd ex_ctx) ≠ 0 ∧
   wf_save ex_ctx (ex_w1 no_faults true) ∧
   w_readers (ex_w1 no_faults true) !! 1%nat = Some rm ∧ to_be_saved rm ∧
   (∃ db, w_dbs (ex_w1 no_faults true) !! 1%nat = Some db ∧
      sem_inactive (db_semaphores db 0%nat) !! 0%nat = Some ex_shard_reader)) ∧
  ∃ w' db' q,
    save_readers no_faults ex_ctx [ex_row 3] (ex_compaction_state 3) (Some 5%nat)
      (ex_w1 no_faults true) = Done tt w' ∧
    w_readers w' !! 1%nat = Some reader_meta_default ∧
    w_dbs w' !! 1%nat = Some db' ∧
    db_querier_cache db' !! cmd_query_uuid (ctx_cmd ex_ctx) = Some q ∧
    rd_buffer (q_reader q)
    = [ mf_partition_start (ex_ps 3); mf_static_row {| sr_cells := [1%Z] |};
        ex_row 3; ex_row 4; ex_row 5 ] ∧
    rd_permit (q_reader q) = rd_permit ex_shard_reader ∧
    q_ranges q = ctx_ranges ex_ctx ∧ q_reader_range q = rp_range rparts ∧
    q_reader_slice q = rp_slice rparts ∧ q_permit q = rp_permit rparts ∧
    q_last_pkey q = ps_key (ex_ps 3) ∧ q_last_ckey q = Some 5%nat.
Proof.
  intros rparts rm.
  assert (Huuid : cmd_query_uuid (ctx_cmd ex_ctx) ≠ 0) by discriminate.
  assert (Hsave : to_be_saved rm) by (right; reflexivity).
  split.
  { split; [exact Huuid|]. split; [exact ex_w1_wf_no_faults|].
    split; [vm_compute; reflexivity|]. split; [exact Hsave|].
    eexists. split; vm_compute; reflexivity. }
  exact (save_readers_stores_the_unread_stream no_faults ex_ctx [ex_row 3]
           (ex_compaction_state 3) (Some 5%nat) (ex_w1 no_faults true) 1 rm rparts
           0%nat ex_shard_reader
           (default ex_db (w_dbs (ex_w1 no_faults true) !! 1%nat))
           Huuid ex_w1_wf_no_faults eq_refl Hsave eq_refl eq_refl eq_refl eq_refl
           eq_refl eq_refl eq_refl eq_refl).
Defined.

Lemma lookup_then_create_returns_the_saved_reader_witness :
  let db := db_with_querier_cache {[ 7 := ex_querier 0 ]} ex_db in
  let rparts := {| rp_permit := {| permit_id := 1; permit_sem := 0 |};
                   rp_range := Some (0, 100)%Z; rp_slice := Some ex_slice;
                   rp_read_operation := true; rp_handle := Some 0%nat;
                   rp_buffer := None |} in
  (w_dbs (ex_saved_world 0) !! 1%nat = Some db ∧
   (1 < length (w_readers (ex_saved_world 0)))%nat ∧
   db_querier_cache db !! cmd_query_uuid (ctx_cmd ex_ctx) = Some (ex_querier 0) ∧
   q_ranges (ex_querier 0) = ctx_ranges ex_ctx ∧
   q_reader_slice (ex_querier 0) = Some (cmd_slice (ctx_cmd ex_ctx)) ∧
   permit_sem (q_permit (ex_querier 0)) = db_semaphore_id db ∧
   rd_permit (q_reader (ex_querier 0)) = q_permit (ex_querier 0)) ∧
  ∃ w1 w2 w3 db1 db3,
    lookup_readers_shard no_faults ex_ctx 1 (ex_saved_world 0) = Done tt w1 ∧
    w_readers w1 !! 1%nat
    = Some {| rm_state := successful_lookup; rm_rparts := Some rparts;
              rm_dismantled_buffer := None |} ∧
    w_dbs w1 !! 1%nat = Some db1 ∧
    db_querier_cache db1 !! cmd_query_uuid (ctx_cmd ex_ctx) = None ∧
    sem_inactive (db_semaphores db1 (db_semaphore_id db)) !! 0%nat = Some ex_reader ∧
    obtain_reader_permit no_faults ex_ctx 1 w1
    = Done {| permit_id := 1; permit_sem := 0 |} w2 ∧
    create_reader no_faults 1 {| permit_id := 1; permit_sem := 0 |} (50, 60)%Z ex_slice w2
    = Done ex_reader w3 ∧
    w_readers w3 !! 1%nat
    = Some {| rm_state := used; rm_rparts := Some rparts;
              rm_dismantled_buffer := None |} ∧
    w_dbs w3 !! 1%nat = Some db3 ∧
    db_querier_cache db3 !! cmd_query_uuid (ctx_cmd ex_ctx) = None ∧
    sem_inactive (db_semaphores db3 (db_semaphore_id db)) !! 0%nat = None.
Proof.
  intros db rparts.
  assert (Hlt : (1 < length (w_readers (ex_saved_world 0)))%nat) by (simpl; lia).
  split; [repeat split; try reflexivity; exact Hlt|].
  exact (lookup_then_create_returns_the_saved_reader no_faults ex_ctx 1
           (ex_saved_world 0) db (ex_querier 0) (50, 60)%Z ex_slice
           eq_refl Hlt eq_refl eq_refl eq_refl eq_refl eq_refl eq_refl eq_refl eq_refl).
Defined.



Lemma create_reader_leaves_the_shard_used_witness :
  let permit := {| permit_id := 1; permit_sem := 0 |} in
  let o := create_reader no_faults 0 permit (0, 100)%Z ex_slice ex_lookup_world in
  o = Done ex_reader (state_of ex_node o) ∧
  rd_permit ex_reader = permit ∧
  ∃ rm rm',
    w_readers ex_lookup_world !! 0%nat = Some rm ∧ rm_state rm ≠ saving ∧
    w_readers (state_of ex_node o) = <[0%nat := rm']> (w_readers ex_lookup_world) ∧
    rm_state rm' = used ∧ is_Some (rm_rparts rm') ∧
    rm_dismantled_buffer rm' = rm_dismantled_buffer rm.
Proof.
  intros permit o. split; [reflexivity|].
  exact (create_reader_leaves_the_shard_used no_faults 0 permit (0, 100)%Z ex_slice
           ex_lookup_world ex_reader (state_of ex_node o) eq_refl).
Defined.

Lemma create_reader_rejects_a_saving_shard_witness :
  let permit := {| permit_id := 1; permit_sem := 0 |} in
  let rm := {| rm_state := saving; rm_rparts := Some (ex_rparts 0);
               rm_dismantled_buffer := None |} in
  (w_readers ex_world !! 0%nat = Some rm ∧ w_dbs ex_world !! 0%nat = Some ex_db ∧
   rm_state rm = saving) ∧
  create_reader no_faults 0 permit (0, 100)%Z ex_slice ex_world
  = Throw std_logic_error
      (w_with_dbs
         (<[0%nat := db_with_log (db_log ex_db ++ [warn_unexpected_create 0 saving]) ex_db]>
            (w_dbs ex_world)) ex_world).
Proof.
  intros permit rm. split; [repeat split; reflexivity|].
  exact (proj1 (create_reader_rejects_a_saving_shard no_faults 0 permit (0, 100)%Z
                  ex_slice ex_world rm ex_db eq_refl eq_refl) eq_refl).
Defined.

Lemma create_reader_builds_a_new_reader_witness :
  let permit := {| permit_id := 5; permit_sem := 0 |} in
  let rm := {| rm_state := used; rm_rparts := Some (ex_rparts 1);
               rm_dismantled_buffer := None |} in
  (w_readers ex_world !! 1%nat = Some rm ∧ w_dbs ex_world !! 1%nat = Some ex_db ∧
   rm_state rm = used) ∧
  ∃ w',
    create_reader no_faults 1 permit (50, 60)%Z ex_slice ex_world
    = Done {| rd_permit := permit; rd_buffer := []; rd_buffer_size := 0 |} w' ∧
    w_readers w'
    = <[1%nat := {| rm_state := used;
                    rm_rparts :=
                      Some {| rp_permit := permit; rp_range := Some (50, 60)%Z;
                              rp_slice := Some ex_slice; rp_read_operation := true;
                              rp_handle := None; rp_buffer := None |};
                    rm_dismantled_buffer := rm_dismantled_buffer rm |}]>
        (w_readers ex_world) ∧
    db_querier_cache <$> w_dbs w' = db_querier_cache <$> w_dbs ex_world.
Proof.
  intros permit rm. split; [repeat split; reflexivity|].
  exact (create_reader_builds_a_new_reader no_faults 1 permit (50, 60)%Z ex_slice
           ex_world rm ex_db eq_refl eq_refl (or_intror (or_introl eq_refl))).
Defined.

Lemma obtain_reader_permit_limits_the_permit_witness :
  let p := {| permit_id := 0; permit_sem := 0 |} in
  let o := obtain_reader_permit no_faults ex_ctx 1 ex_w0 in
  (o = Done p (state_of ex_node o) ∧ w_dbs ex_w0 !! 1%nat = Some ex_db) ∧
  w_readers (state_of ex_node o) = w_readers ex_w0 ∧
  (∃ db', w_dbs (state_of ex_node o) !! 1%nat = Some db' ∧
     db_permit_max_result_size db' !! permit_id p
     = Some (get_max_result_size ex_ctx ex_db)) ∧
  (∀ rm, w_readers ex_w0 !! 1%nat = Some rm → rm_state rm ≠ successful_lookup →
     p = {| permit_id := db_next_permit ex_db; permit_sem := db_semaphore_id ex_db |}).
Proof.
  intros p o. split; [split; reflexivity|].
  exact (obtain_reader_permit_limits_the_permit no_faults ex_ctx 1 ex_w0 p
           (state_of ex_node o) ex_db eq_refl eq_refl).
Defined.

Lemma ex_w0_policy_inv : policy_inv ex_w0.
Proof.
  split; [reflexivity|].
  intros [|[|x]] rm Hx; vm_compute in Hx; simplify_eq; apply slot_ok_default.
Qed.

Lemma ex_calls_in_range :
  Forall (λ c, (call_shard c < smp_count ex_w0)%nat) (ex_page_calls ++ ex_closing_calls).
Proof. repeat constructor. Qed.

Lemma policy_calls_keep_the_invariant_witness :
  (policy_inv ex_w0 ∧
   Forall (λ c, (call_shard c < smp_count ex_w0)%nat) (ex_page_calls ++ ex_closing_calls) ∧
   updates_after_create (λ _, false) (ex_page_calls ++ ex_closing_calls) = true ∧
   created_in (λ _, false) ex_w0) ∧
  ends_in (λ w', policy_inv w' ∧ smp_count w' = smp_count ex_w0)
    (run_policy_calls no_faults ex_ctx (ex_page_calls ++ ex_closing_calls) ex_w0).
Proof.
  assert (Hnone : created_in (λ _, false) ex_w0) by (intros x Hx; discriminate Hx).
  split.
  { split; [exact ex_w0_policy_inv|]. split; [exact ex_calls_in_range|].
    split; [reflexivity|exact Hnone]. }
  exact (policy_calls_keep_the_invariant no_faults ex_ctx
           (ex_page_calls ++ ex_closing_calls) (λ _, false) ex_w0
           ex_w0_policy_inv ex_calls_in_range eq_refl Hnone).
Defined.

Lemma do_query_is_defined_witness :
  let env := scripted_env ex_save_fault ex_page_calls
               (inr (Some 5%nat, ex_result,
                     {| are_limits_reached := true;
                        detach_state := ex_compaction_state 3 |}))
               [ex_row 3] ex_closing_calls in
  ((0 < smp_count ex_node)%nat ∧
   (∀ t, (shard_of ex_schema t < smp_count ex_node)%nat) ∧
   ex_ranges ≠ [] ∧
   Forall (λ c, (call_shard c < smp_count ex_node)%nat)
     (ex_page_calls ++ ex_closing_calls) ∧
   updates_after_create (λ _, false) ex_page_calls = true ∧
   updates_after_create (λ _, false) ex_closing_calls = true ∧
   is_Some (cmd_max_result_size ex_cmd) ∧
   cmd_is_first_page ex_cmd = true) ∧
  do_query ex_save_fault env 0 ex_schema ex_cmd ex_ranges ex_node ≠ Undefined ∧
  do_query_on_all_shards ex_save_fault env 0 ex_schema ex_cmd ex_ranges ex_node
  ≠ Undefined ∧
  ∀ env', do_query ex_save_fault env' 0 ex_schema ex_cmd [] ex_node = Undefined.
Proof.
  intros env.
  assert (Hlocal : (0 < smp_count ex_node)%nat) by (vm_compute; lia).
  assert (Hsome : is_Some (cmd_max_result_size ex_cmd)) by (by eexists).
  assert (Hranges : ex_ranges ≠ []) by done.
  split.
  { split; [exact Hlocal|]. split; [exact ex_schema_in_range|].
    split; [exact Hranges|].
    split; [exact ex_calls_in_range|]. split; [reflexivity|].
    split; [reflexivity|]. split; [exact Hsome|reflexivity]. }
  pose proof (do_query_is_defined ex_save_fault ex_page_calls
                (inr (Some 5%nat, ex_result,
                      {| are_limits_reached := true;
                         detach_state := ex_compaction_state 3 |}))
                [ex_row 3] ex_closing_calls 0 ex_schema ex_cmd ex_ranges ex_node
                Hlocal ex_schema_in_range Hranges ex_calls_in_range eq_refl eq_refl)
    as (H1 & H2 & H3).
  split; [exact H1|]. split; [exact (H2 Hsome)|exact (H3 (or_intror eq_refl))].
Defined.

Lemma stop_reports_nothing_witness :
  length (w_readers ex_used_world) = length (w_dbs ex_used_world) ∧
  ends_in (same_reports ex_used_world) (stop ex_stop_fault ex_used_world).
Proof.
  split; [reflexivity|].
  exact (stop_reports_nothing ex_stop_fault ex_used_world eq_refl).
Defined.

Lemma stop_twice_witness :
  (length (w_readers ex_used_world) = length (w_dbs ex_used_world) ∧
   ∀ x, no_faults in_stop_invoke_on x = false ∧ no_faults in_stop_unregister x = false) ∧
  ∃ w1, stop no_faults ex_used_world = Done tt w1 ∧
    (∀ x rm, w_readers w1 !! x = Some rm → rm_rparts rm = None) ∧
    stop ex_stop_fault w1 = Done tt w1.
Proof.
  assert (Hnone : ∀ x, no_faults in_stop_invoke_on x = false
                       ∧ no_faults in_stop_unregister x = false) by (by split).
  split; [split; [reflexivity|exact Hnone]|].
  exact (stop_twice no_faults ex_stop_fault ex_used_world eq_refl Hnone).
Defined.

Lemma do_query_on_all_shards_counts_the_read_witness :
  let env := ex_env no_faults true in
  let o := do_query no_faults env 0 ex_schema ex_cmd ex_ranges ex_node in
  (cmd_row_limit ex_cmd ≠ 0 ∧ slice_partition_row_limit (cmd_slice ex_cmd) ≠ 0 ∧
   cmd_partition_limit ex_cmd ≠ 0 ∧ cmd_max_result_size ex_cmd = Some 4096 ∧
   no_faults in_new_mutation_read 0%nat = false ∧
   o = Done ex_result (state_of ex_node o)) ∧
  ∃ db1 db2,
    w_dbs (state_of ex_node o) !! 0%nat = Some db1 ∧
    do_query_on_all_shards no_faults env 0 ex_schema ex_cmd ex_ranges ex_node
    = Done (ex_result, db_cache_hit_rate db1)
        (w_with_dbs (<[0%nat := db2]> (w_dbs (state_of ex_node o))) (state_of ex_node o)) ∧
    total_reads (db_stats_of db2) = wadd (total_reads (db_stats_of db1)) 1 ∧
    short_mutation_queries (db_stats_of db2)
    = wadd (short_mutation_queries (db_stats_of db1))
        (if is_short_read ex_result then 1 else 0) ∧
    total_reads_failed (db_stats_of db2) = total_reads_failed (db_stats_of db1).
Proof.
  intros env o.
  assert (H10 : (10 : N) ≠ 0) by discriminate.
  assert (H100 : (100 : N) ≠ 0) by discriminate.
  assert (Hq : o = Done ex_result (state_of ex_node o)) by (vm_compute; reflexivity).
  split; [repeat split; assumption || reflexivity|].
  destruct (lookup_lt_is_Some_2 (w_dbs (state_of ex_node o)) 0)
    as [db1 Hdb1]; [vm_compute; lia|].
  destruct (proj1 (proj2 (do_query_on_all_shards_counts_the_read no_faults env 0
                            ex_schema ex_cmd ex_ranges ex_node 4096
                            H10 H100 H10 eq_refl) eq_refl)
              ex_result (state_of ex_node o) db1 Hq Hdb1) as (db2 & H).
  exists db1, db2. split; [exact Hdb1|exact H].
Defined.

Lemma saved_range_is_the_updated_one_witness :
  let stopped := {| sr_handle := 0; sr_unconsumed_fragments := [ex_row 4] |} in
  let rm := {| rm_state := used; rm_rparts := Some (ex_rparts 1);
               rm_dismantled_buffer := None |} in
  (w_readers ex_used_world !! 1%nat = Some rm ∧ rm_state rm = used ∧
   w_dbs ex_used_world !! 1%nat = Some ex_lookup_db ∧
   sem_inactive (db_semaphores ex_lookup_db (permit_sem (rp_permit (ex_rparts 1))))
     !! sr_handle stopped = Some ex_reader) ∧
  ∃ w1 w2 w3 db3 q,
    update_read_range 1 (50, 100)%Z ex_used_world = Done tt w1 ∧
    destroy_reader 1 stopped w1 = Done tt w2 ∧
    save_reader no_faults ex_ctx 1 (ps_key (ex_ps 3)) (Some 5%nat) w2 = Done tt w3 ∧
    w_readers w3 !! 1%nat = Some reader_meta_default ∧
    w_dbs w3 !! 1%nat = Some db3 ∧
    db_querier_cache db3 !! cmd_query_uuid (ctx_cmd ex_ctx) = Some q ∧
    q_reader_range q = Some (50, 100)%Z ∧
    q_reader_slice q = rp_slice (ex_rparts 1) ∧ q_permit q = rp_permit (ex_rparts 1) ∧
    q_last_pkey q = ps_key (ex_ps 3) ∧ q_last_ckey q = Some 5%nat ∧
    rd_buffer (q_reader q) = [] ++ [ex_row 4] ++ [ex_row 5].
Proof.
  intros stopped rm. split; [repeat split; reflexivity|].
  exact (saved_range_is_the_updated_one no_faults ex_ctx 1 (50, 100)%Z stopped
           (ps_key (ex_ps 3)) (Some 5%nat) ex_used_world rm (ex_rparts 1) ex_lookup_db
           ex_reader eq_refl eq_refl eq_refl eq_refl eq_refl eq_refl eq_refl eq_refl
           eq_refl).
Defined.

Lemma read_all_delivers_every_range_witness :
  (mrr_initial ex_range_contents = Some ex_mrr ∧
   (2 * length ex_range_contents + 2 ≤ 8)%nat ∧
   (length (tag_ranges 0 ex_range_contents) + 2 ≤ 5)%nat) ∧
  read_all ex_range_contents ex_chunk 5 8 ex_mrr []
  = Some [ (0%nat, mf_partition_start (ex_ps 2)); (0%nat, ex_row 2);
           (2%nat, mf_partition_start (ex_ps 4)) ].
Proof.
  assert (Hfuel : (2 * length ex_range_contents + 2 ≤ 8)%nat) by (simpl; lia).
  assert (Hrounds : (length (tag_ranges 0 ex_range_contents) + 2 ≤ 5)%nat)
    by (simpl; lia).
  split; [split; [reflexivity|split; [exact Hfuel|exact Hrounds]]|].
  exact (read_all_delivers_every_range ex_range_contents ex_chunk ex_mrr 8 5
           eq_refl Hfuel Hrounds).
Defined.

Lemma ex_paged_world_own_semaphore x db :
  w_dbs ex_paged_world !! x = Some db → own_semaphore ex_ctx_later db.
Proof.
  destruct x as [|[|x]]; intros Hdb; simpl in Hdb; simplify_eq; intros q Hq _;
    simpl in Hq; by apply lookup_singleton_Some in Hq as [_ <-].
Qed.


Lemma failed_save_neither_stores_nor_closes_witness :
  (w_readers ex_saving_world !! 1%nat = Some ex_saving_rm ∧
   w_dbs ex_saving_world !! 1%nat = Some ex_lookup_db ∧
   ex_insert_fault in_save_insert 1%nat = true ∧
   w_readers ex_lookup_world !! 0%nat
   = Some {| rm_state := successful_lookup; rm_rparts := Some (ex_rparts 0);
             rm_dismantled_buffer := None |} ∧
   w_dbs ex_lookup_world !! 0%nat = Some ex_lookup_db ∧
   ex_unpop_fault in_save_unpop 0%nat = true) ∧
  (∃ w' db',
     save_reader ex_insert_fault ex_ctx 1 (ps_key (ex_ps 3)) (Some 5%nat) ex_saving_world
     = Done tt w' ∧
     w_readers w' = <[1%nat := reader_meta_default]> (w_readers ex_saving_world) ∧
     db_querier_cache <$> w_dbs w' = db_querier_cache <$> w_dbs ex_saving_world ∧
     db_closed <$> w_dbs w' = db_closed <$> w_dbs ex_saving_world ∧
     w_dbs w' !! 1%nat = Some db' ∧
     sem_inactive (db_semaphores db' (permit_sem (rp_permit ex_saving_rparts))) !! 0%nat
     = None ∧
     ∃ payer dbp dbp',
       payer = 1%nat ∧
       w_dbs ex_saving_world !! payer = Some dbp ∧ w_dbs w' !! payer = Some dbp' ∧
       failed_reader_saves dbp' = wadd (failed_reader_saves dbp) 1) ∧
  (∃ w' db' q,
     save_reader ex_unpop_fault ex_ctx 0 (ps_key (ex_ps 3)) (Some 5%nat) ex_lookup_world
     = Done tt w' ∧
     w_readers w' = <[0%nat := reader_meta_default]> (w_readers ex_lookup_world) ∧
     w_dbs w' = <[0%nat := db']> (w_dbs ex_lookup_world) ∧
     db_querier_cache db' !! cmd_query_uuid (ctx_cmd ex_ctx) = Some q ∧
     rd_buffer (q_reader q) = ([] ++ []) ++ [ex_row 5] ∧
     sem_inactive (db_semaphores db' (permit_sem (rp_permit (ex_rparts 0)))) !! 0%nat
     = None ∧
     failed_reader_saves db' = failed_reader_saves ex_lookup_db).
Proof.
  split; [by repeat split|]. split.
  - exact (proj1 (failed_save_neither_stores_nor_closes ex_insert_fault ex_ctx 1
                    (ps_key (ex_ps 3)) (Some 5%nat) ex_saving_world ex_saving_rm
                    ex_saving_rparts 0%nat ex_reader ex_lookup_db eq_refl eq_refl
                    eq_refl eq_refl ltac:(simpl; lia) eq_refl) eq_refl).
  - exact (proj2 (failed_save_neither_stores_nor_closes ex_unpop_fault ex_ctx 0
                    (ps_key (ex_ps 3)) (Some 5%nat) ex_lookup_world _
                    (ex_rparts 0) 0%nat ex_reader ex_lookup_db eq_refl eq_refl
                    eq_refl eq_refl ltac:(simpl; lia) eq_refl) eq_refl).
Defined.
